(** * OneBot 12 channel plugin: target addressing, inbound gating,
      outbound sending and the WebSocket protocol client.

    A shallow embedding of the TypeScript sources of the plugin
    ([targets.ts], [normalize.ts], [monitor.ts], [client-registry.ts],
    [outbound.ts], [ws-client.ts], [accounts.ts] and the setup and
    outbound adapters of [channel.ts]) together with the properties the
    specification states about them, and further properties that the
    code has.  What belongs to the platform and not to the plugin is a
    parameter: the URL class, the case mappings and the printing of
    numbers of the JavaScript engine, the services of the host. *)

From Stdlib Require Import NArith ZArith QArith_base Qround List Ascii String Bool Lia
  DecimalN.
From stdpp Require Import base option list gmap fin_maps.

Import ListNotations.
Local Open Scope N_scope.

#[local] Set Warnings "-clear-no-such-hyp".

(** ** JavaScript strings

    A JavaScript string is a sequence of UTF-16 code units.  The code
    below inspects code units (prefix tests, trimming, splitting on
    ['/'] and [':']), so a string is a list of code units, each an [N]
    below 65536; where it lower-cases a string that it keeps, the case
    mappings are those of the engine, a parameter of the model. *)

Abbreviation jsstring := (list N).

Module Js.

(** A string literal of the source, as code units (the literals of the
    modelled files are all ASCII). *)
Definition lit (s : String.string) : jsstring :=
  List.map N_of_ascii (list_ascii_of_string s).

(** [WhiteSpace] and [LineTerminator] of ECMAScript, the code units
    that [String.prototype.trim] removes. *)
Definition isWhiteSpace (c : N) : bool :=
  existsb (N.eqb c)
    [9; 10; 11; 12; 13; 32; 160; 5760; 8232; 8233; 8239; 8287; 12288; 65279]
  || ((8192 <=? c) && (c <=? 8202)).

Fixpoint trimStart (s : jsstring) : jsstring :=
  match s with
  | [] => []
  | c :: s' => if isWhiteSpace c then trimStart s' else s
  end.

Definition trimEnd (s : jsstring) : jsstring := rev (trimStart (rev s)).

Definition trim (s : jsstring) : jsstring := trimStart (trimEnd s).

(** [String.prototype.toLowerCase] where its result is only compared
    with a literal of the source (a prefix of an address, a detail
    type): the code units ['A'..'Z'] go to ['a'..'z'], every other code
    unit stays.  Every such literal is ASCII, has no ['k'] and does not
    end in ['i'], and no code point outside Basic Latin lower-cases
    into such a literal (only U+212A gives ['k'] and U+0130 gives ['i']
    followed by U+0307).  Where the lower-cased string itself is kept,
    as in the allowlists, it is [toLowerCaseFull] of the engine
    below. *)
Definition toLowerCaseUnit (c : N) : N :=
  if (65 <=? c) && (c <=? 90) then c + 32 else c.

Definition toLowerCase (s : jsstring) : jsstring := List.map toLowerCaseUnit s.

(** [s.startsWith(prefix)] *)
Fixpoint startsWith (s prefix : jsstring) {struct prefix} : bool :=
  match prefix, s with
  | [], _ => true
  | p :: prefix', c :: s' => (c =? p) && startsWith s' prefix'
  | _ :: _, [] => false
  end.

(** [s.slice(n)] for [0 <= n] *)
Definition slice (s : jsstring) (n : nat) : jsstring := drop n s.

(** JavaScript truthiness of a string: non-empty. *)
Definition truthy (s : jsstring) : bool :=
  match s with [] => false | _ :: _ => true end.

(** A value of type [string | null | undefined] used as a condition:
    it passes exactly when it is a non-empty string. *)
Definition ifTruthy (v : option jsstring) : option jsstring :=
  match v with
  | Some s => if truthy s then Some s else None
  | None => None
  end.

(** [a === b] on strings *)
Definition strictEq (a b : jsstring) : bool := bool_decide (a = b).

(** [s.split(/[/:]/)]: the pieces between the separators, one more
    piece than there are separators. *)
Definition isSep (c : N) : bool := (c =? 47) || (c =? 58).

Fixpoint splitOn (sep : N -> bool) (s : jsstring) : list jsstring :=
  match s with
  | [] => [[]]
  | c :: s' =>
      if sep c then [] :: splitOn sep s'
      else match splitOn sep s' with
           | [] => [[c]]
           | p :: ps => (c :: p) :: ps
           end
  end.

(** No code unit of [s] is [sep]. *)
Definition without (sep : N) (s : jsstring) : bool :=
  forallb (fun c => negb (c =? sep)) s.

(** The part before the first [sep], and the part after it if there is
    one. *)
Fixpoint splitFirst (sep : N) (s : jsstring) : jsstring * option jsstring :=
  match s with
  | [] => ([], None)
  | c :: s' =>
      if c =? sep then ([], Some s')
      else let '(before, after) := splitFirst sep s' in (c :: before, after)
  end.

(** [s.includes(t)] *)
Fixpoint includes (s t : jsstring) : bool :=
  startsWith s t ||
  match s with
  | [] => false
  | _ :: s' => includes s' t
  end.

(** [parts.join(sep)] *)
Fixpoint join (sep : jsstring) (parts : list jsstring) : jsstring :=
  match parts with
  | [] => []
  | [p] => p
  | p :: ps => p ++ sep ++ join sep ps
  end.

(** The decimal digits of an integer: what a template literal gives
    for [Date.now()], for a counter and for the close code of a socket,
    which are integers below [2^53]. *)
Fixpoint uintDigits (d : Decimal.uint) : jsstring :=
  match d with
  | Decimal.Nil => []
  | Decimal.D0 d => 48 :: uintDigits d
  | Decimal.D1 d => 49 :: uintDigits d
  | Decimal.D2 d => 50 :: uintDigits d
  | Decimal.D3 d => 51 :: uintDigits d
  | Decimal.D4 d => 52 :: uintDigits d
  | Decimal.D5 d => 53 :: uintDigits d
  | Decimal.D6 d => 54 :: uintDigits d
  | Decimal.D7 d => 55 :: uintDigits d
  | Decimal.D8 d => 56 :: uintDigits d
  | Decimal.D9 d => 57 :: uintDigits d
  end.

Definition decimalN (n : N) : jsstring := uintDigits (N.to_uint n).

Definition decimal (z : Z) : jsstring :=
  match z with
  | Zneg p => 45 :: decimalN (Npos p)
  | _ => decimalN (Z.to_N z)
  end.

#[local] Set Warnings "-register-all".

(** *** Numbers

    A JavaScript number is [NaN], an infinity or a finite value.  Every
    finite value of the double format is a fraction, and the operations
    below ([>=], [<=], [Math.max], [!== 0], truncation) give on doubles
    what they give on fractions; [-0] is [0], which none of them tells
    apart. *)
Inductive number : Type :=
  | NaN
  | PosInfinity
  | NegInfinity
  | Finite (value : Q).

(** An integer literal of the source *)
Definition ofZ (z : Z) : number := Finite (inject_Z z).

(** [a <= b], false when an operand is [NaN] *)
Definition numLe (a b : number) : bool :=
  match a, b with
  | NaN, _ | _, NaN => false
  | NegInfinity, _ | _, PosInfinity => true
  | PosInfinity, _ | _, NegInfinity => false
  | Finite p, Finite q => Qle_bool p q
  end.

(** [Math.max(a, b)] *)
Definition mathMax (a b : number) : number :=
  match a, b with
  | NaN, _ | _, NaN => NaN
  | _, _ => if numLe a b then b else a
  end.

(** [n === 0] *)
Definition isZero (n : number) : bool :=
  match n with
  | Finite q => Qeq_bool q 0
  | _ => false
  end.

(** [Math.trunc(n)] of a finite number *)
Definition trunc (n : number) : Z :=
  match n with
  | Finite q => (Qnum q ÷ Zpos (Qden q))%Z
  | _ => 0%Z
  end.

(** *** The engine

    What the modelled code uses of the JavaScript engine that is not
    written out here: [String.prototype.toLowerCase] with the case
    mappings of all of Unicode, and the conversion of a number to a
    string ([String(n)], a template literal).  The code is modelled
    over an implementation of them. *)
Class Engine : Type := {
  toLowerCaseFull : jsstring -> jsstring;
  numberToString : number -> jsstring;
}.

(** What the case mappings of Unicode give for [toLowerCaseFull]: the
    empty string stays empty; a string that starts with white space
    keeps it, ahead of the rest in lower case; and a string that starts
    with another code unit starts with another code unit in lower
    case. *)
Record LawfulLowerCase `{engine : Engine} : Prop := {
  lower_nil : toLowerCaseFull [] = [];
  lower_space : forall c s,
    isWhiteSpace c = true -> toLowerCaseFull (c :: s) = c :: toLowerCaseFull s;
  lower_solid : forall c s,
    isWhiteSpace c = false ->
    exists c' s', toLowerCaseFull (c :: s) = c' :: s' ∧ isWhiteSpace c' = false;
}.

(** An engine to run the code on samples: it lower-cases Basic Latin
    only and prints the digits of the whole part of a number, which is
    what the engine of JavaScript does on ASCII strings and on integers
    below [2^53]. *)
Definition sampleEngine : Engine :=
  {| toLowerCaseFull := toLowerCase;
     numberToString := fun n =>
       match n with
       | NaN => lit "NaN"
       | PosInfinity => lit "Infinity"
       | NegInfinity => lit "-Infinity"
       | Finite q => decimal (Qfloor q)
       end |}.

(** A parsed JSON value.  The members of an object are its own
    properties, each name once. *)
Inductive Json : Type :=
  | JNull
  | JBool (b : bool)
  | JNumber (n : number)
  | JString (s : jsstring)
  | JArray (items : list Json)
  | JObject (members : list (jsstring * Json)).

Fixpoint assoc {A} (key : jsstring) (l : list (jsstring * A)) : option A :=
  match l with
  | [] => None
  | (k, v) :: l' => if strictEq k key then Some v else assoc key l'
  end.

(** [value[key]] for a name that is neither an index nor inherited. *)
Definition prop (value : Json) (key : String.string) : option Json :=
  match value with
  | JObject members => assoc (lit key) members
  | _ => None
  end.

(** [typeof value[key] === "string"], with the string. *)
Definition stringProp (value : Json) (key : String.string) : option jsstring :=
  match prop value key with
  | Some (JString s) => Some s
  | _ => None
  end.

(** [String(value)] and the truthiness of a JSON value *)
Fixpoint toStr `{engine : Engine} (value : Json) : jsstring :=
  match value with
  | JNull => lit "null"
  | JBool true => lit "true"
  | JBool false => lit "false"
  | JNumber n => numberToString n
  | JString s => s
  | JArray items =>
      join (lit ",")
        (List.map (fun item => match item with JNull => [] | _ => toStr item end) items)
  | JObject _ => lit "[object Object]"
  end.

Definition jsonTruthy (value : Json) : bool :=
  match value with
  | JNull => false
  | JBool b => b
  | JNumber n => match n with NaN => false | _ => negb (isZero n) end
  | JString s => truthy s
  | JArray _ | JObject _ => true
  end.

End Js.

(** ** targets.ts *)

Module Targets.
Import Js.

Inductive OneBotTarget : Type :=
  | User (userId : jsstring)
  | Group (groupId : jsstring)
  | Channel (guildId channelId : jsstring).

(** [PREFIX_RE = /^onebot:/i]: without the [u] flag a case-insensitive
    match never equates a code unit outside ASCII with an ASCII one, so
    the pattern matches exactly the ASCII case variants of ["onebot:"]. *)
Definition matchesPREFIX_RE (s : jsstring) : bool :=
  startsWith (toLowerCase s) (lit "onebot:").

Definition normalizeRawTarget (input : jsstring) : jsstring :=
  let trimmed := trim input in
  if matchesPREFIX_RE trimmed then slice trimmed 7 else trimmed.

Definition stripPrefix (input prefix : jsstring) : option jsstring :=
  let lowered := toLowerCase input in
  if negb (startsWith lowered prefix) then None
  else Some (trim (slice input (length prefix))).

Definition userPrefixes : list jsstring :=
  [lit "user:"; lit "private:"; lit "dm:"; lit "qq:"].

Definition channelPrefixes : list jsstring :=
  [lit "channel:"; lit "guild:"].

(** The two [for (const prefix of ...)] loops: the remainder after the
    first prefix whose [stripPrefix] result is truthy. *)
Fixpoint firstRest (raw : jsstring) (prefixes : list jsstring) : option jsstring :=
  match prefixes with
  | [] => None
  | prefix :: prefixes' =>
      match ifTruthy (stripPrefix raw prefix) with
      | Some rest => Some rest
      | None => firstRest raw prefixes'
      end
  end.

(** [rest.split(/[/:]/).map((part) => part.trim()).filter(Boolean)] *)
Definition channelParts (rest : jsstring) : list jsstring :=
  List.filter truthy (List.map trim (splitOn isSep rest)).

Definition parseOneBotTarget (input : jsstring) : option OneBotTarget :=
  let raw := normalizeRawTarget input in
  if negb (truthy raw) then None
  else
    match firstRest raw userPrefixes with
    | Some rest => Some (User rest)
    | None =>
        match ifTruthy (stripPrefix raw (lit "group:")) with
        | Some groupRest => Some (Group groupRest)
        | None =>
            match firstRest raw channelPrefixes with
            | Some rest =>
                match channelParts rest with
                | guildId :: channelId :: _ => Some (Channel guildId channelId)
                | _ => None
                end
            | None => None
            end
        end
    end.

Definition normalizeOneBotMessagingTarget (target : jsstring) : jsstring :=
  match parseOneBotTarget target with
  | None => trim target
  | Some (User userId) => lit "user:" ++ userId
  | Some (Group groupId) => lit "group:" ++ groupId
  | Some (Channel guildId channelId) =>
      lit "channel:" ++ guildId ++ lit ":" ++ channelId
  end.

Definition looksLikeOneBotTargetId (input : jsstring) : bool :=
  match parseOneBotTarget input with Some _ => true | None => false end.

Definition formatOneBotTargetHint : jsstring :=
  lit "<user:ID|group:ID|channel:GUILD:CHANNEL>".

(** The parameter object of [buildOneBotTargetFromEvent]; an optional
    field that is [null], [undefined] or missing is [None]. *)
Record TargetFromEventParams : Type := {
  detailType : jsstring;
  userId : option jsstring;
  groupId : option jsstring;
  guildId : option jsstring;
  channelId : option jsstring;
}.

Definition buildOneBotTargetFromEvent (params : TargetFromEventParams)
  : option jsstring :=
  let detail := toLowerCase (trim (detailType params)) in
  if strictEq detail (lit "private") || strictEq detail (lit "user")
     || strictEq detail (lit "dm") then
    match ifTruthy (userId params) with
    | None => None
    | Some u => Some (lit "user:" ++ u)
    end
  else if strictEq detail (lit "group") then
    match ifTruthy (groupId params) with
    | None => None
    | Some g => Some (lit "group:" ++ g)
    end
  else if strictEq detail (lit "channel") then
    match ifTruthy (guildId params), ifTruthy (channelId params) with
    | Some g, Some c => Some (lit "channel:" ++ g ++ lit ":" ++ c)
    | _, _ => None
    end
  else None.

End Targets.

(** ** normalize.ts *)

Module Normalize.
Import Js.

(** [USER_PREFIX_RE = /^(onebot:)?(user:|private:|dm:|qq:)?/i]: both
    groups are optional and greedy, so the match removes an ASCII case
    variant of ["onebot:"] when the string starts with one, and then the
    first of the four user prefixes the remainder starts with. *)
Definition dropPrefixCI (prefix s : jsstring) : option jsstring :=
  if startsWith (toLowerCase s) prefix then Some (slice s (length prefix))
  else None.

Fixpoint dropFirstPrefixCI (prefixes : list jsstring) (s : jsstring) : jsstring :=
  match prefixes with
  | [] => s
  | prefix :: prefixes' =>
      match dropPrefixCI prefix s with
      | Some rest => rest
      | None => dropFirstPrefixCI prefixes' s
      end
  end.

Definition replaceUSER_PREFIX_RE (s : jsstring) : jsstring :=
  dropFirstPrefixCI [lit "user:"; lit "private:"; lit "dm:"; lit "qq:"]
    (dropFirstPrefixCI [lit "onebot:"] s).

Definition normalizeOneBotUserId (input : jsstring) : jsstring :=
  replaceUSER_PREFIX_RE (trim input).

End Normalize.

(** ** types.ts *)

Module Types.
Import Js.

Record OneBotGroupConfig : Type := {
  enabled : option bool;
  groupRequireMention : option bool;
}.

Inductive DmPolicy : Type := DmPairing | DmAllowlist | DmOpen | DmDisabled.
Inductive GroupPolicy : Type := GroupAllowlist | GroupOpen | GroupDisabled.

Definition dmPolicyName (p : DmPolicy) : jsstring :=
  match p with
  | DmPairing => lit "pairing"
  | DmAllowlist => lit "allowlist"
  | DmOpen => lit "open"
  | DmDisabled => lit "disabled"
  end.

Record OneBotAccountConfig : Type := {
  dmPolicy : option DmPolicy;
  allowFrom : option (list jsstring);
  groupAllowFrom : option (list jsstring);
  groupPolicy : option GroupPolicy;
  groups : option (gmap jsstring OneBotGroupConfig);
  blockStreaming : option bool;
}.

Record ResolvedOneBotAccount : Type := {
  accountId : jsstring;
  accountEnabled : bool;
  accountWsUrl : option jsstring;
  accountAccessToken : option jsstring;
  platform : option jsstring;
  selfId : option jsstring;
  requireMention : option bool;
  configured : bool;
  config : OneBotAccountConfig;
}.

(** A value of type [unknown] in segment data: a string, or something
    else given by its [String(...)] rendering. *)
Inductive JsValue : Type :=
  | VString (s : jsstring)
  | VOther (rendering : jsstring).

Definition String_ (v : JsValue) : jsstring :=
  match v with VString s => s | VOther s => s end.

Record SegmentData : Type := {
  text : option JsValue;
  user_id : option JsValue;
}.

Record OneBotMessageSegment : Type := {
  segType : jsstring;
  data : option SegmentData;
}.

Record OneBotSelf : Type := {
  selfPlatform : option jsstring;
  selfUserId : option jsstring;
}.

Record OneBotMessageEvent : Type := {
  evType : option jsstring;
  detail_type : option jsstring;
  self : option OneBotSelf;
  time : option Z;
  message_id : option jsstring;
  message : option (list OneBotMessageSegment);
  alt_message : option jsstring;
  evUserId : option jsstring;
  group_id : option jsstring;
  guild_id : option jsstring;
  channel_id : option jsstring;
  qq_nickname : option jsstring;
  user_name : option jsstring;
}.

End Types.

(** ** The URL class of the platform

    [new URL(s)], [url.searchParams.has], [url.searchParams.set] and
    [url.toString()] belong to the platform (the WHATWG URL Standard),
    not to the plugin.  The client is modelled over an implementation of
    them.  [Lawful] states what the standard guarantees of one: a
    serialized URL parses back to the same record, also after a search
    parameter was set; [set] leaves the parameter present, and a second
    [set] of a name overrides the first. *)

Module Url.

Record UrlApi : Type := {
  URL : Type;
  (** [new URL(s)]; [None] when the constructor throws *)
  parse : jsstring -> option URL;
  has : URL -> jsstring -> bool;
  set : URL -> jsstring -> jsstring -> URL;
  toString : URL -> jsstring;
}.

Record Lawful (api : UrlApi) : Prop := {
  parse_toString : forall s u,
    parse api s = Some u -> parse api (toString api u) = Some u;
  parse_set : forall s u k v,
    parse api s = Some u ->
    parse api (toString api (set api u k v)) = Some (set api u k v);
  has_set : forall u k v, has api (set api u k v) k = true;
  set_set : forall u k v v', set api (set api u k v) k v' = set api u k v';
}.

End Url.

(** A small implementation of the URL class, to run the client on
    concrete addresses.  It accepts an address that starts with a scheme
    (a letter, then letters, digits, ['+'], ['-'], ['.'], then [':']) and
    has no ['#']; what follows the first ['?'] is the query, split on
    ['&'] and each piece on its first ['=']; names and values that are
    set have their ['&'], ['='] and ['#'] percent-encoded.  An address
    without a scheme is rejected, as the standard does for a URL without
    a base. *)

Module SimpleUrl.
Import Js.

Definition isAlpha (c : N) : bool :=
  ((65 <=? c) && (c <=? 90)) || ((97 <=? c) && (c <=? 122)).

Definition isSchemeChar (c : N) : bool :=
  isAlpha c || ((48 <=? c) && (c <=? 57)) || (c =? 43) || (c =? 45) || (c =? 46).

Fixpoint schemeRest (s : jsstring) : bool :=
  match s with
  | [] => false
  | c :: s' => if c =? 58 then true else isSchemeChar c && schemeRest s'
  end.

Definition hasScheme (s : jsstring) : bool :=
  match s with
  | c :: s' => isAlpha c && schemeRest s'
  | [] => false
  end.

Record T : Type := {
  base : jsstring;
  params : list (jsstring * jsstring);
}.

Definition parseParam (piece : jsstring) : jsstring * jsstring :=
  let '(name, value) := splitFirst 61 piece in (name, default [] value).

Definition parseQuery (query : jsstring) : list (jsstring * jsstring) :=
  List.map parseParam (List.filter truthy (splitOn (fun c => c =? 38) query)).

Definition parse (s : jsstring) : option T :=
  if hasScheme s && without 35 s then
    let '(before, query) := splitFirst 63 s in
    Some {| base := before;
            params := match query with Some q => parseQuery q | None => [] end |}
  else None.

Definition serializeParam (param : jsstring * jsstring) : jsstring :=
  param.1 ++ 61 :: param.2.

Definition toString (u : T) : jsstring :=
  base u ++ match params u with
            | [] => []
            | ps => 63 :: join [38] (List.map serializeParam ps)
            end.

Definition encodeUnit (c : N) : jsstring :=
  if c =? 38 then lit "%26"
  else if c =? 61 then lit "%3D"
  else if c =? 35 then lit "%23"
  else [c].

Definition encode (s : jsstring) : jsstring := flat_map encodeUnit s.

Definition has (u : T) (name : jsstring) : bool :=
  existsb (fun param => strictEq param.1 (encode name)) (params u).

(** [URLSearchParams.set]: the first parameter of the name gets the
    value and the others of the name go; without one it is appended. *)
Fixpoint setParam (name value : jsstring) (ps : list (jsstring * jsstring))
  : list (jsstring * jsstring) :=
  match ps with
  | [] => [(name, value)]
  | (n, v) :: ps' =>
      if strictEq n name
      then (name, value) :: List.filter (fun param => negb (strictEq param.1 name)) ps'
      else (n, v) :: setParam name value ps'
  end.

Definition set (u : T) (name value : jsstring) : T :=
  {| base := base u; params := setParam (encode name) (encode value) (params u) |}.

Definition api : Url.UrlApi :=
  {| Url.URL := T; Url.parse := parse; Url.has := has; Url.set := set;
     Url.toString := toString |}.

End SimpleUrl.

(** ** ws-client.ts *)

Module WsClient.
Import Js Types Url.

Definition ACCESS_TOKEN : jsstring := lit "access_token".
Definition REDACTED : jsstring := lit "***".

(** [url.replace(/access_token=[^&]+/g, "access_token=***")]: the
    scanner is at [Scan] between matches, at [InMatch n] while it
    passes the last [n] code units of ["access_token="] of a match, and
    at [InValue] while it passes the value, up to the next ['&']. *)
Inductive ReplaceState : Type := Scan | InMatch (n : nat) | InValue.

(** The pattern matches at the head of [s]: ["access_token="] and at
    least one more code unit that is not ['&']. *)
Definition matchesHere (s : jsstring) : bool :=
  startsWith s (lit "access_token=") &&
  match drop 13 s with
  | c :: _ => negb (c =? 38)
  | [] => false
  end.

Fixpoint replaceFrom (st : ReplaceState) (s : jsstring) : jsstring :=
  match s with
  | [] => []
  | c :: s' =>
      match st with
      | Scan =>
          if matchesHere s then lit "access_token=***" ++ replaceFrom (InMatch 12) s'
          else c :: replaceFrom Scan s'
      | InMatch (S n) => replaceFrom (InMatch n) s'
      | InMatch O | InValue =>
          if c =? 38 then c :: replaceFrom Scan s' else replaceFrom InValue s'
      end
  end.

Definition replaceAccessToken (url : jsstring) : jsstring := replaceFrom Scan url.

Section Platform.

Context (api : UrlApi).

Definition withAccessToken (url : jsstring) (token : option jsstring) : jsstring :=
  match ifTruthy token with
  | None => url
  | Some token =>
      match parse api url with
      | Some parsed =>
          let parsed :=
            if negb (has api parsed ACCESS_TOKEN) then set api parsed ACCESS_TOKEN token
            else parsed in
          toString api parsed
      | None => url
      end
  end.

Definition sanitizeUrl (url : jsstring) : jsstring :=
  match parse api url with
  | Some parsed =>
      let parsed :=
        if has api parsed ACCESS_TOKEN then set api parsed ACCESS_TOKEN REDACTED
        else parsed in
      toString api parsed
  | None => replaceAccessToken url
  end.


(** *** The client object and its surroundings *)

Inductive ReadyState : Type := CONNECTING | OPEN | CLOSING | CLOSED.

Record OneBotActionRequest : Type := {
  action : jsstring;
  params : option Json;
  echo : jsstring;
  requestSelf : option OneBotSelf;
}.

(** What a timer runs when it fires: the closure of [sendAction]
    (over [echo], [action] and the [reject] of its promise) or the one of
    [scheduleReconnect]. *)
Inductive TimerCallback : Type :=
  | ActionTimeout (echo action : jsstring) (promise : nat)
  | Reconnect.

Record Timer : Type := {
  due : Z;
  callback : TimerCallback;
}.

(** [resolve] and [reject] are those of one promise. *)
Record PendingAction : Type := {
  promise : nat;
  timeout : nat;
}.

Inductive Effect : Type :=
  | LoggerInfo (message : jsstring)
  | LoggerWarn (message : jsstring)
  | LoggerError (message : jsstring)
  | OnOpen
  | OnClose (code : Z) (reason : jsstring)
  | OnError (message : jsstring)
  | OnEvent (event : Json)
  | NewWebSocket (socket : nat) (url : jsstring) (authorization : option jsstring)
  | WsSend (socket : nat) (request : OneBotActionRequest)
  | WsClose (socket : nat)
  | SetTimeout (timer : nat) (callback : TimerCallback) (delay : number)
  | ClearTimeout (timer : nat)
  | Resolve (promise : nat) (response : Json)
  | Reject (promise : nat) (error : jsstring)
  | Throw (error : jsstring).

Record OneBotClientOptions : Type := {
  optWsUrl : jsstring;
  optAccessToken : option jsstring;
  optReconnectDelayMs : option number;
  (** whether an [abortSignal] was given *)
  optAbortSignal : bool;
}.

(** The fields of [OneBotClient]; [pending] is a [Map], kept in
    insertion order. *)
Record OneBotClient : Type := {
  wsUrl : jsstring;
  accessToken : option jsstring;
  hasAbortSignal : bool;
  reconnectDelayMs : number;
  ws : option nat;
  stopped : bool;
  reconnectTimer : option nat;
  actionCounter : N;
  pending : list (jsstring * PendingAction);
  self : option OneBotSelf;
}.

(** The client together with what it acts on: the clock, the sockets it
    created with their [readyState], the timers that are set, the abort
    signal, and the trace of what it did. *)
Record World : Type := {
  client : OneBotClient;
  now : Z;
  sockets : gmap nat ReadyState;
  timers : gmap nat Timer;
  fresh : nat;
  aborted : bool;
  abortListeners : nat;
  trace : list Effect;
}.

Definition constructor (options : OneBotClientOptions) : OneBotClient :=
  {| wsUrl := optWsUrl options;
     accessToken := optAccessToken options;
     hasAbortSignal := optAbortSignal options;
     reconnectDelayMs :=
       mathMax (ofZ 1000) (default (ofZ 2500) (optReconnectDelayMs options));
     ws := None; stopped := false; reconnectTimer := None;
     actionCounter := 0; pending := []; self := None |}.

Definition initial (options : OneBotClientOptions) (time : Z) : World :=
  {| client := constructor options; now := time; sockets := ∅; timers := ∅;
     fresh := 0; aborted := false; abortListeners := 0; trace := [] |}.

Definition updClient (f : OneBotClient -> OneBotClient) (w : World) : World :=
  {| client := f (client w); now := now w; sockets := sockets w;
     timers := timers w; fresh := fresh w; aborted := aborted w;
     abortListeners := abortListeners w; trace := trace w |}.

Definition setWs (v : option nat) (c : OneBotClient) : OneBotClient :=
  {| wsUrl := wsUrl c; accessToken := accessToken c;
     hasAbortSignal := hasAbortSignal c; reconnectDelayMs := reconnectDelayMs c;
     ws := v; stopped := stopped c; reconnectTimer := reconnectTimer c;
     actionCounter := actionCounter c; pending := pending c; self := self c |}.

Definition setStopped (v : bool) (c : OneBotClient) : OneBotClient :=
  {| wsUrl := wsUrl c; accessToken := accessToken c;
     hasAbortSignal := hasAbortSignal c; reconnectDelayMs := reconnectDelayMs c;
     ws := ws c; stopped := v; reconnectTimer := reconnectTimer c;
     actionCounter := actionCounter c; pending := pending c; self := self c |}.

Definition setReconnectTimer (v : option nat) (c : OneBotClient) : OneBotClient :=
  {| wsUrl := wsUrl c; accessToken := accessToken c;
     hasAbortSignal := hasAbortSignal c; reconnectDelayMs := reconnectDelayMs c;
     ws := ws c; stopped := stopped c; reconnectTimer := v;
     actionCounter := actionCounter c; pending := pending c; self := self c |}.

Definition setActionCounter (v : N) (c : OneBotClient) : OneBotClient :=
  {| wsUrl := wsUrl c; accessToken := accessToken c;
     hasAbortSignal := hasAbortSignal c; reconnectDelayMs := reconnectDelayMs c;
     ws := ws c; stopped := stopped c; reconnectTimer := reconnectTimer c;
     actionCounter := v; pending := pending c; self := self c |}.

Definition setPending (v : list (jsstring * PendingAction)) (c : OneBotClient)
  : OneBotClient :=
  {| wsUrl := wsUrl c; accessToken := accessToken c;
     hasAbortSignal := hasAbortSignal c; reconnectDelayMs := reconnectDelayMs c;
     ws := ws c; stopped := stopped c; reconnectTimer := reconnectTimer c;
     actionCounter := actionCounter c; pending := v; self := self c |}.

Definition setSelfField (v : option OneBotSelf) (c : OneBotClient) : OneBotClient :=
  {| wsUrl := wsUrl c; accessToken := accessToken c;
     hasAbortSignal := hasAbortSignal c; reconnectDelayMs := reconnectDelayMs c;
     ws := ws c; stopped := stopped c; reconnectTimer := reconnectTimer c;
     actionCounter := actionCounter c; pending := pending c; self := v |}.

Definition emit (e : Effect) (w : World) : World :=
  {| client := client w; now := now w; sockets := sockets w;
     timers := timers w; fresh := fresh w; aborted := aborted w;
     abortListeners := abortListeners w; trace := trace w ++ [e] |}.

Definition setSockets (v : gmap nat ReadyState) (w : World) : World :=
  {| client := client w; now := now w; sockets := v;
     timers := timers w; fresh := fresh w; aborted := aborted w;
     abortListeners := abortListeners w; trace := trace w |}.

Definition setTimers (v : gmap nat Timer) (w : World) : World :=
  {| client := client w; now := now w; sockets := sockets w;
     timers := v; fresh := fresh w; aborted := aborted w;
     abortListeners := abortListeners w; trace := trace w |}.

Definition setFresh (v : nat) (w : World) : World :=
  {| client := client w; now := now w; sockets := sockets w;
     timers := timers w; fresh := v; aborted := aborted w;
     abortListeners := abortListeners w; trace := trace w |}.

Definition setNow (v : Z) (w : World) : World :=
  {| client := client w; now := v; sockets := sockets w;
     timers := timers w; fresh := fresh w; aborted := aborted w;
     abortListeners := abortListeners w; trace := trace w |}.

Definition setAbort (a : bool) (listeners : nat) (w : World) : World :=
  {| client := client w; now := now w; sockets := sockets w;
     timers := timers w; fresh := fresh w; aborted := a;
     abortListeners := listeners; trace := trace w |}.

(** The time a timer of Node.js waits: a delay that is not a number
    from 1 to [TIMEOUT_MAX] (also [NaN] and the infinities) is replaced
    by 1, and the delay is truncated to whole milliseconds. *)
Definition TIMEOUT_MAX : Z := 2147483647.

Definition timerDelay (after : number) : Z :=
  if numLe (ofZ 1) after && numLe after (ofZ TIMEOUT_MAX) then trunc after
  else 1%Z.

(** [setTimeout(callback, delay)] and [clearTimeout(timer)] *)
Definition setTimeout (cb : TimerCallback) (delay : number) (w : World) : nat * World :=
  let id := fresh w in
  (id, emit (SetTimeout id cb delay)
         (setFresh (S id)
            (setTimers (<[id := {| due := (now w + timerDelay delay)%Z;
                                   callback := cb |}]>
                          (timers w)) w))).

Definition clearTimeout (id : nat) (w : World) : World :=
  emit (ClearTimeout id) (setTimers (delete id (timers w)) w).

(** [Map.prototype.get], [set] and [delete] on the insertion-ordered
    map, which holds each key once *)
Definition mapGet {A} (key : jsstring) (m : list (jsstring * A)) : option A :=
  assoc key m.

Fixpoint mapDelete {A} (key : jsstring) (m : list (jsstring * A))
  : list (jsstring * A) :=
  match m with
  | [] => []
  | (k, v) :: m' =>
      if strictEq k key then mapDelete key m' else (k, v) :: mapDelete key m'
  end.

Fixpoint mapSet {A} (key : jsstring) (value : A) (m : list (jsstring * A))
  : list (jsstring * A) :=
  match m with
  | [] => [(key, value)]
  | (k, v) :: m' =>
      if strictEq k key then (k, value) :: m' else (k, v) :: mapSet key value m'
  end.

(** *** Methods *)

(** [new WebSocket(url, { headers })] checks the address and throws on
    one it does not accept: [Some err] then. *)
Context (webSocketThrows : jsstring -> option jsstring).

Definition readyState (w : World) : option ReadyState :=
  ws (client w) ≫= fun s => sockets w !! s.

Definition isOpen (w : World) : bool :=
  match readyState w with Some OPEN => true | _ => false end.

Definition getSelf (w : World) : option OneBotSelf := self (client w).

Definition setSelf (v : option OneBotSelf) (w : World) : World :=
  updClient (setSelfField v) w.

Definition rejectEntry (error : jsstring) (w : World)
    (entry : jsstring * PendingAction) : World :=
  emit (Reject (promise entry.2) error) (clearTimeout (timeout entry.2) w).

Definition rejectAllPending (error : jsstring) (w : World) : World :=
  updClient (setPending [])
    (foldl (rejectEntry error) w (pending (client w))).

Definition clearReconnectTimer (w : World) : World :=
  match reconnectTimer (client w) with
  | Some id => updClient (setReconnectTimer None) (clearTimeout id w)
  | None => w
  end.

(** [ws.close()] moves a socket that is not closed to [CLOSING]; what it
    throws is ignored. *)
Definition closing (st : ReadyState) : ReadyState :=
  match st with CLOSED => CLOSED | _ => CLOSING end.

Definition closeSocket (w : World) : World :=
  match ws (client w) with
  | None => w
  | Some s =>
      emit (WsClose s)
        (setSockets (alter closing s (sockets w)) (updClient (setWs None) w))
  end.

Definition stop (w : World) : World :=
  rejectAllPending (lit "OneBot connection stopped")
    (closeSocket (clearReconnectTimer (updClient (setStopped true) w))).

Definition connect (w : World) : World :=
  if stopped (client w) then w
  else
    let url := withAccessToken (wsUrl (client w)) (accessToken (client w)) in
    let authorization :=
      (fun token => lit "Bearer " ++ token) <$> ifTruthy (accessToken (client w)) in
    let w := emit (LoggerInfo (lit "onebot: connecting to " ++ sanitizeUrl url)) w in
    match webSocketThrows url with
    | Some err => emit (Throw err) w
    | None =>
        let s := fresh w in
        let w :=
          emit (NewWebSocket s url authorization)
            (setFresh (S s) (setSockets (<[s := CONNECTING]> (sockets w)) w)) in
        let w := updClient (setWs (Some s)) w in
        if hasAbortSignal (client w) && negb (aborted w)
        then setAbort (aborted w) (S (abortListeners w)) w
        else w
    end.

Definition start (w : World) : World :=
  if hasAbortSignal (client w) && aborted w
  then updClient (setStopped true) w
  else connect w.

Definition scheduleReconnect (w : World) : World :=
  if bool_decide (is_Some (reconnectTimer (client w))) || stopped (client w) then w
  else
    let '(id, w) := setTimeout Reconnect (reconnectDelayMs (client w)) w in
    updClient (setReconnectTimer (Some id)) w.

(** The options of one [sendAction] call, and whether [ws.send] (with
    [JSON.stringify]) throws for it. *)
Record SendActionOptions : Type := {
  timeoutMs : option number;
  selfOverride : option OneBotSelf;
}.

Definition echoToken (time : Z) (counter : N) : jsstring :=
  lit "onebot:" ++ decimal time ++ lit ":" ++ decimalN counter.

(** [sendAction] returns a promise, [fresh w] here; the [throw] of the
    [async] function rejects it. *)
Definition sendAction (act : jsstring) (params : option Json)
    (options : option SendActionOptions) (sendThrows : option jsstring)
    (w : World) : nat * World :=
  let p := fresh w in
  let w := setFresh (S p) w in
  match ws (client w) with
  | Some s =>
      if negb (isOpen w) then (p, emit (Reject p (lit "OneBot is not connected")) w)
      else
        let echo := echoToken (now w) (actionCounter (client w)) in
        let w := updClient (setActionCounter (actionCounter (client w) + 1)) w in
        let selfValue :=
          match options ≫= selfOverride with
          | Some v => Some v
          | None => self (client w)
          end in
        let request :=
          {| action := act; params := params; echo := echo;
             requestSelf := selfValue |} in
        let delay := default (ofZ 10000) (options ≫= timeoutMs) in
        let '(timeout, w) := setTimeout (ActionTimeout echo act p) delay w in
        let w :=
          updClient (fun c => setPending
                       (mapSet echo {| promise := p; timeout := timeout |} (pending c)) c) w in
        match sendThrows with
        | None => (p, emit (WsSend s request) w)
        | Some err =>
            let w := clearTimeout timeout w in
            let w := updClient (fun c => setPending (mapDelete echo (pending c)) c) w in
            (p, emit (Reject p err) w)
        end
  | None => (p, emit (Reject p (lit "OneBot is not connected")) w)
  end.

Definition handlePayload (payload : Json) (w : World) : World :=
  match payload with
  | JObject _ | JArray _ =>
      match stringProp payload "status", stringProp payload "echo" with
      | Some _, Some echo =>
          match mapGet echo (pending (client w)) with
          | Some entry =>
              let w := clearTimeout (timeout entry) w in
              let w := updClient (fun c => setPending (mapDelete echo (pending c)) c) w in
              emit (Resolve (promise entry) payload) w
          | None => w
          end
      | _, _ =>
          match stringProp payload "type", stringProp payload "detail_type" with
          | Some _, Some _ => emit (OnEvent payload) w
          | _, _ => w
          end
      end
  | _ => w
  end.

(** A frame as [JSON.parse] sees it. *)
Inductive Frame : Type :=
  | BadJson (error : jsstring)
  | GoodJson (payload : Json).

Definition onMessage (frame : Frame) (w : World) : World :=
  match frame with
  | BadJson err =>
      emit (LoggerWarn (lit "onebot: failed to parse message: " ++ err)) w
  | GoodJson payload => handlePayload payload w
  end.

Definition onSocketOpen (w : World) : World :=
  emit OnOpen (emit (LoggerInfo (lit "onebot: websocket connected")) w).

Definition onSocketError (message : jsstring) (w : World) : World :=
  emit (OnError message)
    (emit (LoggerError (lit "onebot: websocket error: " ++ message)) w).

Definition onSocketClose (code : Z) (reasonText : jsstring) (w : World) : World :=
  let w :=
    emit (LoggerWarn (lit "onebot: websocket closed (" ++ decimal code ++ lit ") "
                        ++ reasonText)) w in
  let w := emit (OnClose code reasonText) w in
  let w := rejectAllPending (lit "OneBot connection closed") w in
  if negb (stopped (client w)) then scheduleReconnect w else w.

(** The callback of a timer that fires. *)
Definition runTimer (cb : TimerCallback) (w : World) : World :=
  match cb with
  | ActionTimeout echo act p =>
      emit (Reject p (lit "OneBot action timeout: " ++ act))
        (updClient (fun c => setPending (mapDelete echo (pending c)) c) w)
  | Reconnect =>
      connect (updClient (setReconnectTimer None) w)
  end.

(** *** What can happen to a client *)

Inductive Input : Type :=
  | CallStart
  | CallStop
  | CallSetSelf (v : option OneBotSelf)
  | CallSendAction (act : jsstring) (params : option Json)
      (options : option SendActionOptions) (sendThrows : option jsstring)
  | AbortSignal
  | SocketOpen (socket : nat)
  | SocketMessage (socket : nat) (frame : Frame)
  | SocketError (socket : nat) (message : jsstring)
  | SocketClose (socket : nat) (code : Z) (reason : jsstring)
  | TimerFires (timer : nat)
  | Elapse (ms : Z).

(** One turn of the event loop; [None] for what cannot happen: an event
    of a socket in a state that does not emit it, a timer that is not
    set or not due, time running backwards, a second abort. *)
Definition step (w : World) (i : Input) : option World :=
  match i with
  | CallStart => Some (start w)
  | CallStop => Some (stop w)
  | CallSetSelf v => Some (setSelf v w)
  | CallSendAction act params options sendThrows =>
      Some (sendAction act params options sendThrows w).2
  | AbortSignal =>
      if hasAbortSignal (client w) && negb (aborted w)
      then Some (Nat.iter (abortListeners w) stop (setAbort true 0 w))
      else None
  | SocketOpen s =>
      match sockets w !! s with
      | Some CONNECTING => Some (onSocketOpen (setSockets (<[s := OPEN]> (sockets w)) w))
      | _ => None
      end
  | SocketMessage s frame =>
      match sockets w !! s with
      | Some OPEN | Some CLOSING => Some (onMessage frame w)
      | _ => None
      end
  | SocketError s message =>
      match sockets w !! s with
      | Some CLOSED | None => None
      | Some _ => Some (onSocketError message w)
      end
  | SocketClose s code reason =>
      match sockets w !! s with
      | Some CLOSED | None => None
      | Some _ =>
          Some (onSocketClose code reason (setSockets (<[s := CLOSED]> (sockets w)) w))
      end
  | TimerFires id =>
      match timers w !! id with
      | Some t =>
          if (due t <=? now w)%Z
          then Some (runTimer (callback t) (setTimers (delete id (timers w)) w))
          else None
      | None => None
      end
  | Elapse ms =>
      if (0 <=? ms)%Z then Some (setNow (now w + ms)%Z w) else None
  end.

Fixpoint run (w : World) (inputs : list Input) : option World :=
  match inputs with
  | [] => Some w
  | i :: inputs' =>
      match step w i with
      | Some w' => run w' inputs'
      | None => None
      end
  end.

End Platform.

End WsClient.

(** ** client-registry.ts *)

Module ClientRegistry.

(** The module-level [clients] map.  A client object is given with the
    world it acts on; a call that changes the client is written back
    under its key. *)
Abbreviation Clients := (gmap jsstring WsClient.World).

Definition setOneBotClient (accountId : jsstring) (client : WsClient.World)
    (clients : Clients) : Clients :=
  <[accountId := client]> clients.

Definition getOneBotClient (accountId : jsstring) (clients : Clients)
  : option WsClient.World :=
  clients !! accountId.

Definition deleteOneBotClient (accountId : jsstring) (clients : Clients) : Clients :=
  delete accountId clients.

Definition clearOneBotClients (clients : Clients) : Clients := ∅.

End ClientRegistry.

(** ** outbound.ts *)

Module Outbound.
Import Js Types Targets ClientRegistry.

Definition CHANNEL_ID : jsstring := lit "onebot".

(** [[{ type: "text", data: { text } }]], as it goes on the wire *)
Definition buildTextSegments (text : jsstring) : Json :=
  JArray [JObject [(lit "type", JString (lit "text"));
                   (lit "data", JObject [(lit "text", JString text)])]].

Definition orElse (a b : option jsstring) : option jsstring :=
  match ifTruthy a with Some v => Some v | None => b end.

Definition resolveSelf (account : ResolvedOneBotAccount)
    (fallback : option OneBotSelf) : option OneBotSelf :=
  let platform := orElse (trim <$> platform account) (fallback ≫= selfPlatform) in
  let userId := orElse (trim <$> selfId account) (fallback ≫= selfUserId) in
  match ifTruthy platform, ifTruthy userId with
  | None, None => None
  | p, u => Some {| selfPlatform := p; selfUserId := u |}
  end.

Record SendResult : Type := {
  channel : jsstring;
  to : jsstring;
}.

(** How a call of [sendOneBotMessage] goes on: it throws, it returns, or
    it has issued an action and waits for the promise of [sendAction]. *)
Inductive SendOutcome : Type :=
  | Threw (error : jsstring)
  | Returned (result : SendResult)
  | Awaiting (promise : nat).

Definition sendOneBotMessage (account : ResolvedOneBotAccount)
    (target text : jsstring) (sendThrows : option jsstring) (clients : Clients)
  : SendOutcome * Clients :=
  match parseOneBotTarget target with
  | None =>
      (Threw (lit "Invalid OneBot target. Use " ++ formatOneBotTargetHint), clients)
  | Some parsed =>
      match getOneBotClient (accountId account) clients with
      | None => (Threw (lit "OneBot client is not connected"), clients)
      | Some client =>
          let trimmed := trim text in
          if negb (truthy trimmed) then
            (Returned {| channel := CHANNEL_ID; to := target |}, clients)
          else
            let message := buildTextSegments trimmed in
            let request :=
              match parsed with
              | User userId =>
                  JObject [(lit "detail_type", JString (lit "private"));
                           (lit "message", message);
                           (lit "user_id", JString userId)]
              | Group groupId =>
                  JObject [(lit "detail_type", JString (lit "group"));
                           (lit "message", message);
                           (lit "group_id", JString groupId)]
              | Channel guildId channelId =>
                  JObject [(lit "detail_type", JString (lit "channel"));
                           (lit "message", message);
                           (lit "guild_id", JString guildId);
                           (lit "channel_id", JString channelId)]
              end in
            let selfOverride := resolveSelf account (WsClient.getSelf client) in
            let '(promise, client) :=
              WsClient.sendAction (lit "send_message") (Some request)
                (Some {| WsClient.timeoutMs := None;
                         WsClient.selfOverride := selfOverride |})
                sendThrows client in
            (Awaiting promise, setOneBotClient (accountId account) client clients)
      end
  end.

(** The part after [await client.sendAction(...)], once the promise is
    settled: rejected with [inl err] or resolved with [inr response]. *)
Definition afterSendAction `{engine : Engine} (target : jsstring)
    (settled : jsstring + Json) : SendOutcome :=
  match settled with
  | inl err => Threw err
  | inr response =>
      let message fallback :=
        match prop response "message" with
        | Some m => if jsonTruthy m then toStr m else fallback
        | None => fallback
        end in
      let failedStatus :=
        match prop response "status" with
        | Some (JString status) =>
            if truthy status && negb (strictEq status (lit "ok"))
            then Some status else None
        | Some status => if jsonTruthy status then Some (toStr status) else None
        | None => None
        end in
      match failedStatus with
      | Some status =>
          Threw (message (lit "OneBot send_message failed (" ++ status ++ lit ")"))
      | None =>
          match prop response "retcode" with
          | Some (JNumber n) =>
              if negb (isZero n) then
                Threw (message (lit "OneBot send_message retcode "
                                  ++ numberToString n))
              else Returned {| channel := CHANNEL_ID; to := target |}
          | _ => Returned {| channel := CHANNEL_ID; to := target |}
          end
      end
  end.

End Outbound.

(** ** monitor.ts *)

Module Monitor.
Import Js Targets Normalize Types.

Definition CHANNEL_ID : jsstring := lit "onebot".

(** *** Allowlists *)

Record NormalizedAllowlist : Type := {
  entries : gset jsstring;
  hasWildcard : bool;
}.

(** One turn of the loop of [normalizeAllowlist].  An entry of the
    configured array ([string | number]) is given by [String(entry)]. *)
Definition normalizeAllowlistStep `{engine : Engine} (acc : NormalizedAllowlist)
    (entry : jsstring) : NormalizedAllowlist :=
  let raw := trim entry in
  if negb (truthy raw) then acc
  else if strictEq raw (lit "*") then
    {| entries := entries acc; hasWildcard := true |}
  else
    {| entries := {[ toLowerCaseFull (normalizeOneBotUserId raw) ]} ∪ entries acc;
       hasWildcard := hasWildcard acc |}.

Definition normalizeAllowlist `{engine : Engine} (list : option (list jsstring))
  : NormalizedAllowlist :=
  foldl normalizeAllowlistStep {| entries := ∅; hasWildcard := false |}
    (default [] list).

Definition mergeAllowlistsStep (acc : NormalizedAllowlist)
    (list : option NormalizedAllowlist) : NormalizedAllowlist :=
  match list with
  | None => acc
  | Some l =>
      {| entries := entries acc ∪ entries l;
         hasWildcard := if hasWildcard l then true else hasWildcard acc |}
  end.

Definition mergeAllowlists (lists : list (option NormalizedAllowlist))
  : NormalizedAllowlist :=
  foldl mergeAllowlistsStep {| entries := ∅; hasWildcard := false |} lists.

Definition isAllowed `{engine : Engine} (list : NormalizedAllowlist)
    (senderId : option jsstring) : bool :=
  if hasWildcard list then true
  else
    match ifTruthy (toLowerCaseFull <$> (trim <$> senderId)) with
    | None => false
    | Some candidate => bool_decide (candidate ∈ entries list)
    end.

(** *** Group configuration *)

Record GroupState : Type := {
  allowlistEnabled : bool;
  allowed : bool;
  groupConfig : option OneBotGroupConfig;
}.

(** [Object.hasOwn(groups, key)] *)
Definition hasOwn (groups : gmap jsstring OneBotGroupConfig) (key : jsstring) : bool :=
  bool_decide (key ∈ dom groups).

(** The names of the members of [Object.prototype] (those of ECMAScript
    with its Annex B), which the configured [groups] object and [{}]
    inherit. *)
Definition objectPrototypeKeys : list jsstring :=
  [lit "constructor"; lit "hasOwnProperty"; lit "isPrototypeOf";
   lit "propertyIsEnumerable"; lit "toLocaleString"; lit "toString";
   lit "valueOf"; lit "__proto__"; lit "__defineGetter__";
   lit "__defineSetter__"; lit "__lookupGetter__"; lit "__lookupSetter__"].

(** An inherited member read as a group entry: a function, or
    [Object.prototype] itself, which has neither [enabled] nor
    [requireMention]. *)
Definition inheritedMember : OneBotGroupConfig :=
  {| enabled := None; groupRequireMention := None |}.

(** [groups[key]]: the own property [key] when there is one, else the
    member of that name that the object inherits. *)
Definition getGroup (groups : gmap jsstring OneBotGroupConfig) (key : jsstring)
  : option OneBotGroupConfig :=
  match groups !! key with
  | Some c => Some c
  | None =>
      if bool_decide (key ∈ objectPrototypeKeys) then Some inheritedMember else None
  end.

Definition resolveGroupConfig
    (groups : option (gmap jsstring OneBotGroupConfig))
    (groupKey : option jsstring) : GroupState :=
  let groups := default ∅ groups in
  let allowlistEnabled := bool_decide (0 < size groups)%nat in
  let groupKey := default [] groupKey in
  let directConfig := if truthy groupKey then getGroup groups groupKey else None in
  let wildcardConfig := getGroup groups (lit "*") in
  let groupConfig :=
    match directConfig with Some c => Some c | None => wildcardConfig end in
  {| allowlistEnabled := allowlistEnabled;
     allowed := negb allowlistEnabled
                || (truthy groupKey && hasOwn groups groupKey)
                || hasOwn groups (lit "*");
     groupConfig := groupConfig |}.

Definition segmentText (segment : OneBotMessageSegment) : jsstring :=
  let data := default {| text := None; user_id := None |} (data segment) in
  if strictEq (segType segment) (lit "text") then
    match text data with Some (VString t) => t | _ => [] end
  else if strictEq (segType segment) (lit "mention") then
    let userId := match user_id data with Some (VString u) => u | _ => [] end in
    if truthy userId then lit "@" ++ userId else lit "@mention"
  else if strictEq (segType segment) (lit "mention_all") then lit "@all"
  else lit "<" ++ segType segment ++ lit ">".

Definition resolveMessageText (event : OneBotMessageEvent)
  : jsstring * list OneBotMessageSegment :=
  let segments := default [] (message event) in
  let alt := default [] (trim <$> alt_message event) in
  if truthy alt then (alt, segments)
  else (trim (concat (List.map segmentText segments)), segments).

Record MentionSignals : Type := {
  hasAnyMention : bool;
  mentionedSelf : bool;
}.

Definition mentionSignalsStep (selfId : option jsstring) (acc : MentionSignals)
    (segment : OneBotMessageSegment) : MentionSignals :=
  if strictEq (segType segment) (lit "mention_all") then
    {| hasAnyMention := true; mentionedSelf := true |}
  else if strictEq (segType segment) (lit "mention") then
    let userId := (fun v => trim (String_ v)) <$> (data segment ≫= user_id) in
    match ifTruthy selfId, ifTruthy userId with
    | Some s, Some u =>
        {| hasAnyMention := true;
           mentionedSelf := if strictEq u s then true else mentionedSelf acc |}
    | _, _ => {| hasAnyMention := true; mentionedSelf := mentionedSelf acc |}
    end
  else acc.

Definition resolveMentionSignals (segments : list OneBotMessageSegment)
    (selfId : option jsstring) : MentionSignals :=
  let selfId := trim <$> selfId in
  foldl (mentionSignalsStep selfId)
    {| hasAnyMention := false; mentionedSelf := false |} segments.

Definition resolveSenderName (event : OneBotMessageEvent) : option jsstring :=
  match ifTruthy (trim <$> qq_nickname event) with
  | Some n => Some n
  | None => ifTruthy (trim <$> user_name event)
  end.

(** *** Host services

    [handleOneBotMessage] consumes the plugin runtime of the host
    ([getOneBotRuntime()], [clawdbot/plugin-sdk]) and the host
    configuration.  They are outside the plugin; the handler is
    modelled over an arbitrary implementation of the calls it makes,
    each already applied to the configuration. *)

Record Authorizer : Type := {
  authConfigured : bool;
  authAllowed : bool;
}.

Record CommandGate : Type := {
  commandAuthorized : bool;
  shouldBlock : bool;
}.

Record MentionGateParams : Type := {
  mgIsGroup : bool;
  mgRequireMention : bool;
  mgCanDetectMention : bool;
  mgWasMentioned : bool;
  mgAllowTextCommands : bool;
  mgHasControlCommand : bool;
  mgCommandAuthorized : bool;
}.

Record MentionGate : Type := {
  effectiveWasMentioned : bool;
  shouldSkip : bool;
}.

Inductive PeerKind : Type := PeerDm | PeerGroup | PeerChannel.

Record AgentRoute : Type := {
  agentId : jsstring;
  sessionKey : jsstring;
  routeAccountId : jsstring;
}.

Record PairingRequest : Type := {
  code : jsstring;
  created : bool;
}.

Record Host : Type := {
  (** [core.channel.commands.shouldHandleTextCommands] *)
  shouldHandleTextCommands : bool;
  (** [config.commands?.useAccessGroups !== false] *)
  useAccessGroups : bool;
  (** [await core.channel.pairing.readAllowFromStore(CHANNEL_ID).catch(() => [])] *)
  readAllowFromStore : list jsstring;
  upsertPairingRequest : jsstring -> option jsstring -> PairingRequest;
  (** [buildPairingReply({channel, idLine, code})] *)
  buildPairingReply : jsstring -> jsstring -> jsstring;
  hasControlCommand : jsstring -> bool;
  resolveControlCommandGate : bool -> list Authorizer -> bool -> bool -> CommandGate;
  resolveAgentRoute : jsstring -> PeerKind -> jsstring -> AgentRoute;
  buildMentionRegexes : jsstring -> list jsstring;
  matchesMentionPatterns : jsstring -> list jsstring -> bool;
  (** [Boolean(core.channel.groups.resolveRequireMention({groupId, accountId, requireMentionOverride}))] *)
  resolveRequireMention : option jsstring -> jsstring -> option bool -> bool;
  resolveMentionGatingWithBypass : MentionGateParams -> MentionGate;
  (** [formatAgentEnvelope({channel: "QQ", from, timestamp, envelope, body})] *)
  formatAgentEnvelope : jsstring -> option Z -> jsstring -> jsstring;
  (** [sendOneBotMessage({account, target, text})] of outbound.ts, run
      against the client registry of the moment: [None] when it
      returns, [Some err] when it throws [err]. *)
  sendOneBotMessage : jsstring -> jsstring -> option jsstring;
}.

Inductive ChatType : Type := ChatDirect | ChatGroup | ChatChannel.

(** The argument of [finalizeInboundContext]. *)
Record InboundContext : Type := {
  Body : jsstring;
  RawBody : jsstring;
  CommandBody : jsstring;
  From : jsstring;
  To : jsstring;
  SessionKey : jsstring;
  AccountId : jsstring;
  ctxChatType : ChatType;
  ConversationLabel : jsstring;
  SenderName : option jsstring;
  SenderId : jsstring;
  Provider : jsstring;
  Surface : jsstring;
  MessageSid : option jsstring;
  Timestamp : option Z;
  WasMentioned : option bool;
  CommandAuthorized : bool;
  OriginatingChannel : jsstring;
  OriginatingTo : jsstring;
}.

(** What one run of the handler does to the outside, in order. *)
Inductive Effect : Type :=
  | StatusLastInboundAt
  | StatusLastOutboundAt
  | RuntimeLog (message : jsstring)
  | RuntimeError (message : jsstring)
  | UpsertPairingRequest (id : jsstring) (name : option jsstring)
  | SendOneBotMessage (target text : jsstring)
  | LogInboundDrop (reason target : jsstring)
  | RecordInboundSession (ctx : InboundContext)
  | DispatchReply (ctx : InboundContext) (disableBlockStreaming : option bool).

(** *** handleOneBotMessage *)

(** [value?.toString().trim() || null] *)
Definition trimmedOrNull (v : option jsstring) : option jsstring :=
  ifTruthy (trim <$> v).

(** A nullable string inside a template literal. *)
Definition interpolate (v : option jsstring) : jsstring :=
  default (lit "null") v.

(** What the handler has resolved about the event when it reaches the
    policy checks. *)
Record Inbound : Type := {
  detailType : jsstring;
  senderId : jsstring;
  inbSelfId : option jsstring;
  groupId : option jsstring;
  guildId : option jsstring;
  channelId : option jsstring;
  target : jsstring;
  isGroup : bool;
  chatType : ChatType;
  groupKey : option jsstring;
  conversationId : jsstring;
  rawText : jsstring;
  segments : list OneBotMessageSegment;
}.

(** The first part of the handler, up to [if (!rawText) return]: every
    [return] there is silent. *)
Definition resolveInbound (event : OneBotMessageEvent)
    (account : ResolvedOneBotAccount) : option Inbound :=
  let detailType := toLowerCase (trim (default [] (detail_type event))) in
  if negb (truthy detailType) then None else
  let senderId := default [] (trim <$> evUserId event) in
  if negb (truthy senderId) then None else
  let selfId :=
    match trimmedOrNull (self event ≫= selfUserId) with
    | Some s => Some s
    | None => trimmedOrNull (selfId account)
    end in
  if match selfId with Some s => strictEq senderId s | None => false end
  then None else
  let groupId := trimmedOrNull (group_id event) in
  let guildId := trimmedOrNull (guild_id event) in
  let channelId := trimmedOrNull (channel_id event) in
  match buildOneBotTargetFromEvent
          {| Targets.detailType := detailType;
             Targets.userId := Some senderId;
             Targets.groupId := groupId;
             Targets.guildId := guildId;
             Targets.channelId := channelId |} with
  | None => None
  | Some target =>
      if negb (truthy target) then None else
      let isChannel := strictEq detailType (lit "channel") in
      let isGroup := strictEq detailType (lit "group") || isChannel in
      let chatType :=
        if isChannel then ChatChannel
        else if isGroup then ChatGroup else ChatDirect in
      let groupKey :=
        if isChannel then Some target
        else if strictEq detailType (lit "group") then groupId else None in
      let conversationId :=
        if isChannel then interpolate guildId ++ lit ":" ++ interpolate channelId
        else default senderId groupId in
      if negb (truthy conversationId) then None else
      let '(rawText, segments) := resolveMessageText event in
      if negb (truthy rawText) then None else
      Some {| detailType := detailType; senderId := senderId;
              inbSelfId := selfId; groupId := groupId; guildId := guildId;
              channelId := channelId; target := target; isGroup := isGroup;
              chatType := chatType; groupKey := groupKey;
              conversationId := conversationId; rawText := rawText;
              segments := segments |}
  end.

Definition effectiveAllowFrom `{engine : Engine} (host : Host)
    (account : ResolvedOneBotAccount) : NormalizedAllowlist :=
  let configAllowFrom := normalizeAllowlist (allowFrom (config account)) in
  let storeAllowList := normalizeAllowlist (Some (readAllowFromStore host)) in
  mergeAllowlists [Some configAllowFrom; Some storeAllowList].

Definition effectiveGroupAllowFrom `{engine : Engine} (host : Host)
    (account : ResolvedOneBotAccount) : NormalizedAllowlist :=
  let configAllowFrom := normalizeAllowlist (allowFrom (config account)) in
  let configGroupAllowFrom := normalizeAllowlist (groupAllowFrom (config account)) in
  let storeAllowList := normalizeAllowlist (Some (readAllowFromStore host)) in
  let baseGroupAllowFrom :=
    match groupAllowFrom (config account) with
    | Some l => if bool_decide (0 < length l)%nat then configGroupAllowFrom
                else configAllowFrom
    | None => configAllowFrom
    end in
  mergeAllowlists [Some baseGroupAllowFrom; Some storeAllowList].

Inductive Admission : Type :=
  | Admit
  | Reject (effects : list Effect).

(** [`onebot: drop group ${groupKey ?? conversationId} (${why})`] *)
Definition dropGroupMessage (inb : Inbound) (why : jsstring) : jsstring :=
  lit "onebot: drop group " ++ default (conversationId inb) (groupKey inb)
    ++ lit " (" ++ why ++ lit ")".

(** The branch [if (isGroup) { ... }]: first the check of [groupState.allowed],
    then [admitGroupPolicy], the checks that follow it. *)
Definition admitGroupPolicy `{engine : Engine} (host : Host)
    (account : ResolvedOneBotAccount) (inb : Inbound) (groupState : GroupState)
  : Admission :=
  if match groupConfig groupState ≫= enabled with
     | Some false => true
     | _ => false
     end then
    Reject [RuntimeLog (dropGroupMessage inb (lit "disabled"))]
  else
    match default GroupAllowlist (groupPolicy (config account)) with
    | GroupDisabled =>
        Reject [RuntimeLog (dropGroupMessage inb (lit "groupPolicy=disabled"))]
    | GroupAllowlist =>
        if negb (isAllowed (effectiveGroupAllowFrom host account) (Some (senderId inb)))
        then Reject [RuntimeLog
               (lit "onebot: drop group sender " ++ senderId inb
                  ++ lit " (groupPolicy=allowlist, not allowed)")]
        else Admit
    | GroupOpen => Admit
    end.

Definition admitGroup `{engine : Engine} (host : Host)
    (account : ResolvedOneBotAccount) (inb : Inbound) : Admission :=
  let groupState := resolveGroupConfig (groups (config account)) (groupKey inb) in
  if negb (allowed groupState) then
    Reject [RuntimeLog (dropGroupMessage inb (lit "not allowlisted"))]
  else admitGroupPolicy host account inb groupState.

(** The branch [else { ... }] for chats that are not group-like. *)
Definition admitDirect `{engine : Engine} (host : Host) (event : OneBotMessageEvent)
    (account : ResolvedOneBotAccount) (inb : Inbound) : Admission :=
  let dmPolicy := default DmPairing (dmPolicy (config account)) in
  let dropped :=
    RuntimeLog (lit "onebot: drop DM sender " ++ senderId inb
                  ++ lit " (dmPolicy=" ++ dmPolicyName dmPolicy ++ lit ")") in
  match dmPolicy with
  | DmDisabled => Reject [dropped]
  | DmOpen => Admit
  | _ =>
      if isAllowed (effectiveAllowFrom host account) (Some (senderId inb)) then Admit
      else
        match dmPolicy with
        | DmPairing =>
            let name := resolveSenderName event in
            let request := upsertPairingRequest host (senderId inb) name in
            let reply :=
              if created request then
                let target := lit "user:" ++ senderId inb in
                let text :=
                  buildPairingReply host
                    (lit "Your QQ user id: " ++ senderId inb) (code request) in
                SendOneBotMessage target text ::
                match sendOneBotMessage host target text with
                | None => [StatusLastOutboundAt]
                | Some err =>
                    [RuntimeError (lit "onebot: pairing reply failed for "
                                     ++ senderId inb ++ lit ": " ++ err)]
                end
              else [] in
            Reject (UpsertPairingRequest (senderId inb) name :: reply ++ [dropped])
        | _ => Reject [dropped]
        end
  end.

(** The rest of the handler, from [const allowForCommands] on. *)
Definition afterAdmission `{engine : Engine} (host : Host)
    (event : OneBotMessageEvent) (account : ResolvedOneBotAccount) (inb : Inbound)
  : list Effect :=
  let allowForCommands :=
    if isGroup inb then effectiveGroupAllowFrom host account
    else effectiveAllowFrom host account in
  let senderAllowedForCommands := isAllowed allowForCommands (Some (senderId inb)) in
  let hasControl := hasControlCommand host (rawText inb) in
  let commandGate :=
    resolveControlCommandGate host (useAccessGroups host)
      [{| authConfigured := bool_decide (0 < size (entries allowForCommands))%nat
                        || hasWildcard allowForCommands;
          authAllowed := senderAllowedForCommands |}]
      (shouldHandleTextCommands host) hasControl in
  if isGroup inb && shouldBlock commandGate then
    [LogInboundDrop (lit "control command (unauthorized)") (senderId inb)]
  else
    let isChannel := strictEq (detailType inb) (lit "channel") in
    let route :=
      resolveAgentRoute host (accountId account)
        (if isGroup inb then (if isChannel then PeerChannel else PeerGroup)
         else PeerDm)
        (conversationId inb) in
    let mentionRegexes := buildMentionRegexes host (agentId route) in
    let mentionSignals := resolveMentionSignals (segments inb) (inbSelfId inb) in
    let textMentioned :=
      if bool_decide (0 < length mentionRegexes)%nat
      then matchesMentionPatterns host (rawText inb) mentionRegexes
      else false in
    let wasMentioned := mentionedSelf mentionSignals || textMentioned in
    let canDetectMention :=
      bool_decide (0 < length mentionRegexes)%nat || hasAnyMention mentionSignals in
    let requireMention :=
      if isGroup inb
      then resolveRequireMention host (groupKey inb) (accountId account)
             (requireMention account)
      else false in
    let mentionGate :=
      resolveMentionGatingWithBypass host
        {| mgIsGroup := isGroup inb;
           mgRequireMention := requireMention;
           mgCanDetectMention := canDetectMention;
           mgWasMentioned := wasMentioned;
           mgAllowTextCommands := shouldHandleTextCommands host;
           mgHasControlCommand := hasControl;
           mgCommandAuthorized := commandAuthorized commandGate |} in
    if isGroup inb && shouldSkip mentionGate then
      [RuntimeLog (dropGroupMessage inb (lit "no mention"))]
    else
      let conversationLabel :=
        if isGroup inb then
          if isChannel then
            lit "channel:" ++ default (lit "unknown") (guildId inb) ++ lit "/"
              ++ default (lit "unknown") (channelId inb)
          else lit "group:" ++ default (conversationId inb) (groupId inb)
        else lit "user:" ++ senderId inb in
      let timestamp :=
        match time event with
        | Some t => if (t =? 0)%Z then None else Some (t * 1000)%Z
        | None => None
        end in
      let body := formatAgentEnvelope host conversationLabel timestamp (rawText inb) in
      let ctxPayload :=
        {| Body := body;
           RawBody := rawText inb;
           CommandBody := rawText inb;
           From := lit "onebot:" ++ target inb;
           To := lit "onebot:" ++ target inb;
           SessionKey := sessionKey route;
           AccountId := routeAccountId route;
           ctxChatType := chatType inb;
           ConversationLabel := conversationLabel;
           SenderName := resolveSenderName event;
           SenderId := senderId inb;
           Provider := CHANNEL_ID;
           Surface := CHANNEL_ID;
           MessageSid := message_id event;
           Timestamp := timestamp;
           WasMentioned :=
             if isGroup inb then Some (effectiveWasMentioned mentionGate) else None;
           CommandAuthorized := commandAuthorized commandGate;
           OriginatingChannel := CHANNEL_ID;
           OriginatingTo := lit "onebot:" ++ target inb |} in
      [RecordInboundSession ctxPayload;
       DispatchReply ctxPayload (negb <$> blockStreaming (config account))].

Definition handleOneBotMessage `{engine : Engine} (host : Host)
    (event : OneBotMessageEvent) (account : ResolvedOneBotAccount) : list Effect :=
  match resolveInbound event account with
  | None => []
  | Some inb =>
      StatusLastInboundAt ::
      match (if isGroup inb then admitGroup host account inb
             else admitDirect host event account inb) with
      | Reject effects => effects
      | Admit => afterAdmission host event account inb
      end
  end.

End Monitor.

(** ** monitor.ts: delivering a reply *)

Module Reply.
Import Js Types Monitor.

(** The fields of [ReplyPayload] that [deliverOneBotReply] reads. *)
Record ReplyPayload : Type := {
  payloadText : option jsstring;
  mediaUrls : option (list jsstring);
  mediaUrl : option jsstring;
}.

(** [payload.mediaUrls?.length ? payload.mediaUrls
     : payload.mediaUrl ? [payload.mediaUrl] : []] *)
Definition replyMediaUrls (payload : ReplyPayload) : list jsstring :=
  match mediaUrls payload with
  | Some (url :: urls) => url :: urls
  | _ =>
      match ifTruthy (mediaUrl payload) with
      | Some url => [url]
      | None => []
      end
  end.

Definition mediaBlock (urls : list jsstring) : jsstring :=
  if bool_decide (0 < length urls)%nat
  then join [10] (List.map (fun url => lit "Attachment: " ++ url) urls)
  else [].

Definition combinedText (payload : ReplyPayload) : jsstring :=
  let text := default [] (payloadText payload) in
  let block := mediaBlock (replyMediaUrls payload) in
  if truthy (trim text) then
    if truthy block then trim text ++ [10; 10] ++ block else trim text
  else block.

(** The effects of one call, and the error when the promise it returns
    is rejected, which is when [sendOneBotMessage] throws. *)
Definition deliverOneBotReply (host : Host) (payload : ReplyPayload)
    (target : jsstring) : list Effect * option jsstring :=
  let combined := combinedText payload in
  if negb (truthy (trim combined)) then ([], None)
  else
    match sendOneBotMessage host target combined with
    | Some err => ([SendOneBotMessage target combined], Some err)
    | None => ([SendOneBotMessage target combined; StatusLastOutboundAt], None)
    end.

End Reply.

(** ** accounts.ts *)

Module Accounts.
Import Js Types.

(** The keys of an account section that the plugin reads; [None] is a
    key that the section does not have.  [sectionPolicy] holds the keys
    that the inbound handler reads. *)
Record AccountSection : Type := {
  sectionName : option jsstring;
  sectionEnabled : option bool;
  sectionWsUrl : option jsstring;
  sectionAccessToken : option jsstring;
  sectionPlatform : option jsstring;
  sectionSelfId : option jsstring;
  sectionRequireMention : option bool;
  sectionPolicy : OneBotAccountConfig;
}.

(** [channels.onebot]: the keys of the channel itself, the entries of
    [accounts] by account id, and [defaultAccount]. *)
Record OneBotConfig : Type := {
  base : AccountSection;
  accounts : option (gmap jsstring AccountSection);
  defaultAccount : option jsstring;
}.

Definition emptyPolicy : OneBotAccountConfig :=
  {| dmPolicy := None; allowFrom := None; groupAllowFrom := None;
     groupPolicy := None; groups := None; blockStreaming := None |}.

(** [{}] *)
Definition emptySection : AccountSection :=
  {| sectionName := None; sectionEnabled := None; sectionWsUrl := None;
     sectionAccessToken := None; sectionPlatform := None; sectionSelfId := None;
     sectionRequireMention := None; sectionPolicy := emptyPolicy |}.

(** One key of [{ ...base, ...account }]: the value of [account] when it
    has the key. *)
Definition spreadKey {A} (base account : option A) : option A :=
  match account with
  | Some v => Some v
  | None => base
  end.

Definition spreadPolicy (base account : OneBotAccountConfig) : OneBotAccountConfig :=
  {| dmPolicy := spreadKey (dmPolicy base) (dmPolicy account);
     allowFrom := spreadKey (allowFrom base) (allowFrom account);
     groupAllowFrom := spreadKey (groupAllowFrom base) (groupAllowFrom account);
     groupPolicy := spreadKey (groupPolicy base) (groupPolicy account);
     groups := spreadKey (groups base) (groups account);
     blockStreaming := spreadKey (blockStreaming base) (blockStreaming account) |}.

Definition spread (base account : AccountSection) : AccountSection :=
  {| sectionName := spreadKey (sectionName base) (sectionName account);
     sectionEnabled := spreadKey (sectionEnabled base) (sectionEnabled account);
     sectionWsUrl := spreadKey (sectionWsUrl base) (sectionWsUrl account);
     sectionAccessToken :=
       spreadKey (sectionAccessToken base) (sectionAccessToken account);
     sectionPlatform := spreadKey (sectionPlatform base) (sectionPlatform account);
     sectionSelfId := spreadKey (sectionSelfId base) (sectionSelfId account);
     sectionRequireMention :=
       spreadKey (sectionRequireMention base) (sectionRequireMention account);
     sectionPolicy := spreadPolicy (sectionPolicy base) (sectionPolicy account) |}.

(** What [resolveOneBotAccount] returns: the account as the rest of the
    plugin uses it, and its name. *)
Record Resolved : Type := {
  account : ResolvedOneBotAccount;
  name : option jsstring;
}.

Section Sdk.

(** [DEFAULT_ACCOUNT_ID] and [normalizeAccountId] of the plugin SDK;
    [Object.keys] of the [accounts] object, in the order of the engine;
    and [ids.sort((a, b) => a.localeCompare(b))], which depends on the
    locale of the host. *)
Context (DEFAULT_ACCOUNT_ID : jsstring).
Context (normalizeAccountId : option jsstring -> jsstring).
Context (ownKeys : gmap jsstring AccountSection -> list jsstring).
Context (sortByLocale : list jsstring -> list jsstring).

(** The argument [cfg] is [cfg.channels?.onebot]. *)
Definition listConfiguredAccountIds (cfg : option OneBotConfig) : list jsstring :=
  match cfg ≫= accounts with
  | None => []
  | Some accounts => List.filter truthy (ownKeys accounts)
  end.

Definition listOneBotAccountIds (cfg : option OneBotConfig) : list jsstring :=
  let ids := listConfiguredAccountIds cfg in
  if bool_decide (length ids = 0%nat) then [DEFAULT_ACCOUNT_ID]
  else sortByLocale ids.

Definition resolveDefaultOneBotAccountId (cfg : option OneBotConfig) : jsstring :=
  match ifTruthy (trim <$> (cfg ≫= defaultAccount)) with
  | Some configured => configured
  | None =>
      let ids := listOneBotAccountIds cfg in
      if bool_decide (DEFAULT_ACCOUNT_ID ∈ ids) then DEFAULT_ACCOUNT_ID
      else default DEFAULT_ACCOUNT_ID (head ids)
  end.

(** [accounts[accountId]]: the entry of the account.  (An inherited
    property such as ["constructor"] has no own keys, so that spreading
    it gives what spreading [{}] gives.) *)
Definition resolveAccountConfig (cfg : option OneBotConfig) (accountId : jsstring)
  : option AccountSection :=
  match cfg ≫= accounts with
  | None => None
  | Some accounts => accounts !! accountId
  end.

Definition mergeOneBotAccountConfig (cfg : option OneBotConfig)
    (accountId : jsstring) : AccountSection :=
  let base := default emptySection (base <$> cfg) in
  let account := default emptySection (resolveAccountConfig cfg accountId) in
  spread base account.

(** [value !== false] for an optional boolean *)
Definition notFalse (value : option bool) : bool :=
  match value with
  | Some false => false
  | _ => true
  end.

Definition resolveOneBotAccount (cfg : option OneBotConfig)
    (accountId : option jsstring) : Resolved :=
  let accountId := normalizeAccountId accountId in
  let baseEnabled := notFalse (cfg ≫= fun c => sectionEnabled (base c)) in
  let merged := mergeOneBotAccountConfig cfg accountId in
  let accountEnabled := notFalse (sectionEnabled merged) in
  let enabled := baseEnabled && accountEnabled in
  let wsUrl := trim <$> sectionWsUrl merged in
  {| account :=
       {| Types.accountId := accountId;
          accountEnabled := enabled;
          accountWsUrl := wsUrl;
          accountAccessToken := ifTruthy (trim <$> sectionAccessToken merged);
          platform := ifTruthy (trim <$> sectionPlatform merged);
          selfId := ifTruthy (trim <$> sectionSelfId merged);
          requireMention := sectionRequireMention merged;
          configured := match wsUrl with Some url => truthy url | None => false end;
          config := sectionPolicy merged |};
     name := ifTruthy (trim <$> sectionName merged) |}.

End Sdk.

End Accounts.

(** ** channel.ts: setup *)

Module ChannelPlugin.
Import Js Types Accounts.

(** The input of the setup commands that the plugin reads. *)
Record SetupInput : Type := {
  inputUrl : option jsstring;
  inputAccessToken : option jsstring;
}.

(** [{ ...section, enabled: true, ...(input.url ? { wsUrl: input.url } : {}),
       ...(input.accessToken ? { accessToken: input.accessToken } : {}) }] *)
Definition applyInput (section : AccountSection) (input : SetupInput) : AccountSection :=
  {| sectionName := sectionName section;
     sectionEnabled := Some true;
     sectionWsUrl := spreadKey (sectionWsUrl section) (ifTruthy (inputUrl input));
     sectionAccessToken :=
       spreadKey (sectionAccessToken section) (ifTruthy (inputAccessToken input));
     sectionPlatform := sectionPlatform section;
     sectionSelfId := sectionSelfId section;
     sectionRequireMention := sectionRequireMention section;
     sectionPolicy := sectionPolicy section |}.

Section Sdk.

Context (DEFAULT_ACCOUNT_ID : jsstring).
Context (normalizeAccountId : option jsstring -> jsstring).

(** [setup.validateInput]: the error message, if any *)
Definition validateInput (cfg : option OneBotConfig) (accountId : option jsstring)
    (input : SetupInput) : option jsstring :=
  let resolved := account (resolveOneBotAccount normalizeAccountId cfg accountId) in
  let wsUrl :=
    match ifTruthy (trim <$> inputUrl input) with
    | Some url => Some url
    | None => accountWsUrl resolved
    end in
  if negb (truthy (default [] wsUrl))
  then Some (lit "OneBot requires --url (WebSocket endpoint).")
  else None.

(** [setup.applyAccountConfig], on [channels.onebot]: [namedConfig] is
    that section of what [applyAccountNameToChannelSection] returned. *)
Definition applyAccountConfig (namedConfig : option OneBotConfig)
    (accountId : jsstring) (input : SetupInput) : OneBotConfig :=
  let section := default emptySection (base <$> namedConfig) in
  if strictEq accountId DEFAULT_ACCOUNT_ID then
    {| base := applyInput section input;
       accounts := namedConfig ≫= accounts;
       defaultAccount := namedConfig ≫= defaultAccount |}
  else
    let entries := default ∅ (namedConfig ≫= accounts) in
    let entry := default emptySection (entries !! accountId) in
    {| base :=
         {| sectionName := sectionName section;
            sectionEnabled := Some true;
            sectionWsUrl := sectionWsUrl section;
            sectionAccessToken := sectionAccessToken section;
            sectionPlatform := sectionPlatform section;
            sectionSelfId := sectionSelfId section;
            sectionRequireMention := sectionRequireMention section;
            sectionPolicy := sectionPolicy section |};
       accounts := Some (<[accountId := applyInput entry input]> entries);
       defaultAccount := namedConfig ≫= defaultAccount |}.

End Sdk.

End ChannelPlugin.

(** ** outbound.ts: the adapter *)

Module OutboundAdapter.
Import Js Types Targets ClientRegistry Outbound Accounts.

(** [resolveTarget({ to })]: [inl] the error of [{ ok: false, error }],
    [inr] the address of [{ ok: true, to }] *)
Definition resolveTarget (to : option jsstring) : jsstring + jsstring :=
  let normalized :=
    match ifTruthy to with
    | Some t => trim t
    | None => []
    end in
  match parseOneBotTarget normalized with
  | None => inl (lit "Invalid OneBot target. Use " ++ formatOneBotTargetHint)
  | Some _ => inr normalized
  end.

(** [[text, mediaUrl ? `Attachment: ${mediaUrl}` : ""]
      .filter((part) => Boolean(part && part.trim())).join("\n\n")] *)
Definition mediaText (text mediaUrl : option jsstring) : jsstring :=
  let attachment :=
    match ifTruthy mediaUrl with
    | Some url => lit "Attachment: " ++ url
    | None => []
    end in
  join [10; 10]
    (omap (fun part => match part with
                       | Some p => if truthy p && truthy (trim p) then Some p else None
                       | None => None
                       end)
          [text; Some attachment]).

Section Sdk.

Context (normalizeAccountId : option jsstring -> jsstring).

(** [convertMarkdownTables(text, resolveMarkdownTableMode({ cfg, channel,
    accountId }))] of the plugin runtime, by configuration and account
    id *)
Context (convertMarkdownTables : option OneBotConfig -> jsstring -> jsstring -> jsstring).

Definition sendText (cfg : option OneBotConfig) (to : jsstring)
    (text : option jsstring) (accountId : option jsstring)
    (sendThrows : option jsstring) (clients : Clients) : SendOutcome * Clients :=
  let account := account (resolveOneBotAccount normalizeAccountId cfg accountId) in
  if negb (configured account) then
    (Threw (lit "OneBot account not configured (missing wsUrl)"), clients)
  else
    let message :=
      convertMarkdownTables cfg (Types.accountId account) (default [] text) in
    sendOneBotMessage account to message sendThrows clients.

Definition sendMedia (cfg : option OneBotConfig) (to : jsstring)
    (text mediaUrl : option jsstring) (accountId : option jsstring)
    (sendThrows : option jsstring) (clients : Clients) : SendOutcome * Clients :=
  sendText cfg to (Some (mediaText text mediaUrl)) accountId sendThrows clients.

End Sdk.

End OutboundAdapter.

(** * Properties *)

(** ** Facts about JavaScript strings *)

Module JsFacts.
Import Js.

Lemma trimStart_fixed c s : isWhiteSpace c = false -> trimStart (c :: s) = c :: s.
Proof. intros H. simpl. by rewrite H. Qed.

Lemma trimStart_idem s : trimStart (trimStart s) = trimStart s.
Proof.
  induction s as [|c s IH]; [done|].
  simpl. destruct (isWhiteSpace c) eqn:E; [done|]. simpl. by rewrite E.
Qed.

(** What [trimStart] leaves starts with a code unit that is not white
    space. *)
Lemma trimStart_head s c t : trimStart s = c :: t -> isWhiteSpace c = false.
Proof.
  induction s as [|d s IH]; [done|].
  simpl. destruct (isWhiteSpace d) eqn:E; [done|]. by intros [= <- <-].
Qed.

Lemma trimEnd_snoc s c : isWhiteSpace c = false -> trimEnd (s ++ [c]) = s ++ [c].
Proof.
  intros H. unfold trimEnd. rewrite rev_app_distr. simpl. rewrite H.
  simpl. by rewrite rev_involutive.
Qed.

Lemma trimEnd_snoc_ws s c : isWhiteSpace c = true -> trimEnd (s ++ [c]) = trimEnd s.
Proof. intros H. unfold trimEnd. rewrite rev_app_distr. simpl. by rewrite H. Qed.

Lemma trimEnd_nil : trimEnd [] = [].
Proof. done. Qed.

Lemma trimEnd_app a b : trimEnd b ≠ [] -> trimEnd (a ++ b) = a ++ trimEnd b.
Proof.
  induction b as [|c b IH] using rev_ind; [done|].
  intros H. rewrite app_assoc.
  destruct (isWhiteSpace c) eqn:E.
  - rewrite !trimEnd_snoc_ws in * by done. by apply IH.
  - rewrite !trimEnd_snoc by done. by rewrite app_assoc.
Qed.

Lemma trimEnd_app_nil a b : trimEnd b = [] -> trimEnd (a ++ b) = trimEnd a.
Proof.
  induction b as [|c b IH] using rev_ind; [by rewrite app_nil_r|].
  intros H. rewrite app_assoc.
  destruct (isWhiteSpace c) eqn:E.
  - rewrite !trimEnd_snoc_ws in * by done. by apply IH.
  - rewrite trimEnd_snoc in H by done. by destruct b.
Qed.

Lemma trimEnd_idem s : trimEnd (trimEnd s) = trimEnd s.
Proof.
  unfold trimEnd. by rewrite rev_involutive, trimStart_idem.
Qed.

(** Trimming the start of a string whose end is trimmed leaves its end
    trimmed. *)
Lemma trimEnd_trimStart s : trimEnd s = s -> trimEnd (trimStart s) = trimStart s.
Proof.
  induction s as [|c s IH]; [done|].
  intros H. simpl. destruct (isWhiteSpace c) eqn:E; [|done].
  apply IH.
  destruct (decide (trimEnd s = [])) as [Hn|Hn].
  - change (c :: s) with ([c] ++ s) in H. rewrite trimEnd_app_nil in H by done.
    change [c] with ([] ++ [c]) in H at 1. rewrite trimEnd_snoc_ws in H by done.
    done.
  - change (c :: s) with ([c] ++ s) in H. rewrite trimEnd_app in H by done.
    by simplify_eq.
Qed.

Lemma trim_trimEnd s : trimEnd (trim s) = trim s.
Proof. apply trimEnd_trimStart, trimEnd_idem. Qed.

Lemma trim_trimStart s : trimStart (trim s) = trim s.
Proof. apply trimStart_idem. Qed.

Lemma trim_idem s : trim (trim s) = trim s.
Proof. unfold trim at 1. by rewrite trim_trimEnd, trim_trimStart. Qed.

(** A string that starts with something else than white space and ends
    with a trimmed non-empty string is trimmed. *)
Lemma trim_app_trim c p s :
  isWhiteSpace c = false -> trim s ≠ [] ->
  trim ((c :: p) ++ trim s) = (c :: p) ++ trim s.
Proof.
  intros Hc Hs. unfold trim at 1.
  rewrite trimEnd_app by (by rewrite trim_trimEnd).
  rewrite trim_trimEnd. simpl. by rewrite Hc.
Qed.

Lemma trim_head s c t : trim s = c :: t -> isWhiteSpace c = false.
Proof. apply trimStart_head. Qed.

Lemma truthy_ne s : truthy s = true <-> s ≠ [].
Proof. by destruct s. Qed.

Lemma startsWith_app p s : startsWith (p ++ s) p = true.
Proof.
  induction p as [|c p IH]; [done|]. simpl. by rewrite N.eqb_refl, IH.
Qed.

Lemma toLowerCase_app a b : toLowerCase (a ++ b) = toLowerCase a ++ toLowerCase b.
Proof. apply map_app. Qed.

Lemma slice_app p s : slice (p ++ s) (length p) = s.
Proof. apply drop_app_length. Qed.

Lemma isWhiteSpace_lower c : isWhiteSpace (toLowerCaseUnit c) = isWhiteSpace c.
Proof.
  unfold toLowerCaseUnit.
  destruct ((65 <=? c) && (c <=? 90)) eqn:E; [|done].
  apply andb_true_iff in E as [H1%N.leb_le H2%N.leb_le].
  unfold isWhiteSpace. simpl existsb.
  repeat match goal with
    | |- context [N.eqb ?a ?b] => rewrite (proj2 (N.eqb_neq a b)) by lia
    | |- context [N.leb ?a ?b] => rewrite (proj2 (N.leb_gt a b)) by lia
    end.
  done.
Qed.

(** A string that ends with something that is not white space keeps
    what follows it up to the trailing white space. *)
Lemma trimEnd_app_solid a c b :
  isWhiteSpace c = false -> trimEnd ((a ++ [c]) ++ b) = (a ++ [c]) ++ trimEnd b.
Proof.
  intros Hc. destruct (decide (trimEnd b = [])) as [Hb|Hb].
  - by rewrite trimEnd_app_nil, trimEnd_snoc, Hb, app_nil_r.
  - by apply trimEnd_app.
Qed.

Lemma trim_trimEnd_l s : trim (trimEnd s) = trim s.
Proof. unfold trim. by rewrite trimEnd_idem. Qed.

(** Two strings that differ at a position both have. *)
Fixpoint clash (k k' : jsstring) : bool :=
  match k, k' with
  | c :: k1, d :: k1' => negb (c =? d) || clash k1 k1'
  | _, _ => false
  end.

Lemma startsWith_clash k k' s : clash k k' = true -> startsWith (k ++ s) k' = false.
Proof.
  revert k. induction k' as [|d k' IH]; intros [|c k]; try done.
  simpl. destruct (c =? d); simpl; [apply IH|done].
Qed.

Lemma toLowerCase_head q c k :
  toLowerCase q = c :: k -> isWhiteSpace c = false ->
  exists c' q', q = c' :: q' ∧ isWhiteSpace c' = false.
Proof.
  destruct q as [|c' q']; [done|]. intros [= Hc _] Hw.
  exists c', q'. split; [done|]. by rewrite <- isWhiteSpace_lower, Hc.
Qed.

Lemma toLowerCase_last q c k :
  toLowerCase q = k ++ [c] -> isWhiteSpace c = false ->
  exists q' c', q = q' ++ [c'] ∧ isWhiteSpace c' = false.
Proof.
  intros H Hw. apply List.map_eq_app in H as (q' & l & -> & _ & Hl).
  destruct l as [|c' [|]]; try done. injection Hl as Hc.
  exists q', c'. split; [done|]. by rewrite <- isWhiteSpace_lower, Hc.
Qed.

Lemma without_app sep a b : without sep (a ++ b) = without sep a && without sep b.
Proof. apply forallb_app. Qed.

Lemma without_Forall sep s :
  without sep s = true <-> Forall (fun c => (c =? sep) = false) s.
Proof.
  unfold without. rewrite forallb_forall, List.Forall_forall.
  split; intros H c Hc; specialize (H c Hc); by destruct (c =? sep).
Qed.

Lemma splitFirst_spec sep s :
  without sep (splitFirst sep s).1 = true
  ∧ s = (splitFirst sep s).1
        ++ match (splitFirst sep s).2 with Some a => sep :: a | None => [] end.
Proof.
  induction s as [|c s [IH1 IH2]]; [done|]. simpl.
  destruct (c =? sep) eqn:E.
  - apply N.eqb_eq in E as ->. done.
  - destruct (splitFirst sep s) as [b a]. simpl in *. rewrite E. simpl.
    split; [done|]. by rewrite <- IH2.
Qed.

Lemma splitFirst_app sep b a :
  without sep b = true -> splitFirst sep (b ++ sep :: a) = (b, Some a).
Proof.
  induction b as [|c b IH]; simpl.
  - by rewrite N.eqb_refl.
  - intros [Hc Hb]%andb_true_iff. apply negb_true_iff in Hc. by rewrite Hc, IH.
Qed.

Lemma splitFirst_none sep b :
  without sep b = true -> splitFirst sep b = (b, None).
Proof.
  induction b as [|c b IH]; [done|]. simpl.
  intros [Hc Hb]%andb_true_iff. apply negb_true_iff in Hc. by rewrite Hc, IH.
Qed.

Lemma strictEq_true a b : strictEq a b = true <-> a = b.
Proof. unfold strictEq. by rewrite bool_decide_eq_true. Qed.

Lemma strictEq_false a b : strictEq a b = false <-> a ≠ b.
Proof. unfold strictEq. by rewrite bool_decide_eq_false. Qed.

End JsFacts.

(** ** Target addressing *)

Module TargetsFacts.
Import Js Targets JsFacts.

(** Replace the string literals of a goal by their code units. *)
Ltac unlit :=
  repeat match goal with
    | |- context [lit ?s] =>
        let v := eval vm_compute in (lit s) in change (lit s) with v
    end.

Definition noSep (s : jsstring) : Prop := Forall (fun c => isSep c = false) s.

(** A string that is trimmed and not empty. *)
Definition Trimmed (s : jsstring) : Prop := s ≠ [] ∧ trim s = s.

Lemma Trimmed_trim s : trim s ≠ [] -> Trimmed (trim s).
Proof. intros H. split; [done|apply trim_idem]. Qed.

Lemma trimStart_Forall (P : N -> Prop) s : Forall P s -> Forall P (trimStart s).
Proof.
  induction 1 as [|c s Hc Hs IH]; [constructor|].
  simpl. destruct (isWhiteSpace c); [done|by constructor].
Qed.

Lemma trim_Forall (P : N -> Prop) s : Forall P s -> Forall P (trim s).
Proof.
  intros H. apply trimStart_Forall. unfold trimEnd.
  apply List.Forall_rev, trimStart_Forall, List.Forall_rev, H.
Qed.

Lemma splitOn_pieces sep s :
  Forall (Forall (fun c => sep c = false)) (splitOn sep s).
Proof.
  induction s as [|c s IH]; simpl.
  - repeat constructor.
  - destruct (sep c) eqn:E; [by constructor|].
    destruct (splitOn sep s) as [|p ps]; [repeat constructor; done|].
    inversion IH; subst. constructor; [by constructor|done].
Qed.

Lemma splitOn_single sep s :
  Forall (fun c => sep c = false) s -> splitOn sep s = [s].
Proof.
  induction 1 as [|c s Hc Hs IH]; [done|]. simpl. by rewrite Hc, IH.
Qed.

Lemma splitOn_app sep g x r :
  Forall (fun c => sep c = false) g -> sep x = true ->
  splitOn sep (g ++ x :: r) = g :: splitOn sep r.
Proof.
  intros Hg Hx. induction Hg as [|c g Hc Hg IH]; simpl.
  - by rewrite Hx.
  - by rewrite Hc, IH.
Qed.

Lemma stripPrefix_inv raw prefix rest :
  ifTruthy (stripPrefix raw prefix) = Some rest -> Trimmed rest.
Proof.
  unfold stripPrefix. destruct (negb _); [done|]. simpl.
  destruct (truthy _) eqn:E; [|done]. intros [= <-].
  apply Trimmed_trim. by apply truthy_ne.
Qed.

Lemma firstRest_inv raw prefixes rest :
  firstRest raw prefixes = Some rest -> Trimmed rest.
Proof.
  induction prefixes as [|p ps IH]; [done|]. simpl.
  destruct (ifTruthy (stripPrefix raw p)) eqn:E; [|done].
  intros [= <-]. by eapply stripPrefix_inv.
Qed.

Lemma channelParts_inv rest part :
  part ∈ channelParts rest -> Trimmed part ∧ noSep part.
Proof.
  unfold channelParts. rewrite list_elem_of_In, filter_In, <- list_elem_of_In.
  intros [Hin Ht]. apply list_elem_of_fmap in Hin as (piece & -> & Hpiece).
  split; [apply Trimmed_trim; by apply truthy_ne|].
  apply trim_Forall.
  pose proof (splitOn_pieces isSep rest) as H.
  rewrite List.Forall_forall in H. apply H. by apply list_elem_of_In.
Qed.

(** What a parsed target carries: identifiers that are trimmed and not
    empty, and for a channel free of ['/'] and [':']. *)
Definition WellFormed (t : OneBotTarget) : Prop :=
  match t with
  | User u => Trimmed u
  | Group g => Trimmed g
  | Channel g c => (Trimmed g ∧ noSep g) ∧ (Trimmed c ∧ noSep c)
  end.

Lemma parseOneBotTarget_wf input t :
  parseOneBotTarget input = Some t -> WellFormed t.
Proof.
  unfold parseOneBotTarget.
  destruct (negb _); [done|].
  destruct (firstRest _ userPrefixes) eqn:Eu.
  { intros [= <-]. by eapply firstRest_inv. }
  destruct (ifTruthy (stripPrefix _ (lit "group:"))) eqn:Eg.
  { intros [= <-]. by eapply stripPrefix_inv. }
  destruct (firstRest _ channelPrefixes) as [rest|] eqn:Ec; [|done].
  destruct (channelParts rest) as [|g [|c ps]] eqn:Ep; [done..|].
  intros [= <-]. split; apply (channelParts_inv rest); rewrite Ep; set_solver.
Qed.

Lemma stripPrefix_same p rest :
  toLowerCase p = p -> stripPrefix (p ++ rest) p = Some (trim rest).
Proof.
  intros Hp. unfold stripPrefix.
  by rewrite toLowerCase_app, Hp, startsWith_app, slice_app.
Qed.

Lemma ifTruthy_Trimmed s : Trimmed s -> ifTruthy (Some (trim s)) = Some s.
Proof. intros [Hne ->]. simpl. by destruct s. Qed.

Lemma trim_canonical c p s :
  isWhiteSpace c = false -> Trimmed s -> trim ((c :: p) ++ s) = (c :: p) ++ s.
Proof.
  intros Hc [Hne Hs]. rewrite <- Hs. apply trim_app_trim; [done|by rewrite Hs].
Qed.

Lemma parse_canonical_user u :
  Trimmed u -> parseOneBotTarget (lit "user:" ++ u) = Some (User u).
Proof.
  intros Hu. unfold parseOneBotTarget, normalizeRawTarget.
  assert (trim (lit "user:" ++ u) = lit "user:" ++ u) as ->.
  { unlit. by apply (trim_canonical 117). }
  assert (matchesPREFIX_RE (lit "user:" ++ u) = false) as -> by done.
  assert (truthy (lit "user:" ++ u) = true) as -> by done.
  simpl negb. cbv iota.
  unfold userPrefixes, firstRest.
  rewrite stripPrefix_same by done. by rewrite ifTruthy_Trimmed.
Qed.

Lemma parse_canonical_group g :
  Trimmed g -> parseOneBotTarget (lit "group:" ++ g) = Some (Group g).
Proof.
  intros Hg. unfold parseOneBotTarget, normalizeRawTarget.
  assert (trim (lit "group:" ++ g) = lit "group:" ++ g) as ->.
  { unlit. by apply (trim_canonical 103). }
  assert (matchesPREFIX_RE (lit "group:" ++ g) = false) as -> by done.
  assert (truthy (lit "group:" ++ g) = true) as -> by done.
  assert (firstRest (lit "group:" ++ g) userPrefixes = None) as -> by done.
  simpl negb. cbv iota.
  rewrite stripPrefix_same by done. by rewrite ifTruthy_Trimmed.
Qed.

Lemma channelParts_canonical g c :
  Trimmed g ∧ noSep g -> Trimmed c ∧ noSep c ->
  channelParts (g ++ lit ":" ++ c) = [g; c].
Proof.
  intros [[Hg Hgt] Hgs] [[Hc Hct] Hcs]. unfold channelParts. unlit.
  simpl app. rewrite splitOn_app, splitOn_single by done.
  simpl. rewrite Hgt, Hct. by destruct g, c.
Qed.

Lemma parse_canonical_channel g c :
  Trimmed g ∧ noSep g -> Trimmed c ∧ noSep c ->
  parseOneBotTarget (lit "channel:" ++ g ++ lit ":" ++ c) = Some (Channel g c).
Proof.
  intros Hg Hc. unfold parseOneBotTarget, normalizeRawTarget.
  assert (trim (lit "channel:" ++ g ++ lit ":" ++ c)
          = lit "channel:" ++ g ++ lit ":" ++ c) as ->.
  { rewrite !app_assoc. rewrite <- (app_assoc (lit "channel:")). unlit.
    apply (trim_canonical 99); [done|apply Hc]. }
  assert (matchesPREFIX_RE (lit "channel:" ++ g ++ lit ":" ++ c) = false) as -> by done.
  assert (truthy (lit "channel:" ++ g ++ lit ":" ++ c) = true) as -> by done.
  assert (firstRest (lit "channel:" ++ g ++ lit ":" ++ c) userPrefixes = None)
    as -> by done.
  assert (stripPrefix (lit "channel:" ++ g ++ lit ":" ++ c) (lit "group:") = None)
    as -> by done.
  simpl negb. cbv iota. simpl ifTruthy. cbv iota.
  unfold channelPrefixes, firstRest. rewrite stripPrefix_same by done.
  assert (Trimmed (g ++ lit ":" ++ c)) as Hgc.
  { destruct Hg as [[Hne Hgt] _]. destruct g as [|c0 g']; [done|].
    split; [done|]. rewrite app_assoc.
    apply (trim_canonical c0 (g' ++ lit ":")); [|apply Hc].
    by apply (trim_head (c0 :: g') c0 g'). }
  rewrite ifTruthy_Trimmed by done.
  by rewrite channelParts_canonical.
Qed.

(** C1. Round trip of target addresses: when [parseOneBotTarget]
    succeeds on an input, parsing the canonical form that
    [normalizeOneBotMessagingTarget] renders gives the same target; when
    it fails, [normalizeOneBotMessagingTarget] returns the trimmed
    input. *)
Theorem normalize_round_trip (input : jsstring) :
  (forall t, parseOneBotTarget input = Some t ->
     parseOneBotTarget (normalizeOneBotMessagingTarget input)
     = parseOneBotTarget input)
  ∧ (parseOneBotTarget input = None ->
     normalizeOneBotMessagingTarget input = trim input).
Proof.
  split.
  - intros t Ht. unfold normalizeOneBotMessagingTarget. rewrite Ht.
    pose proof (parseOneBotTarget_wf _ _ Ht) as Hwf.
    destruct t as [u|g|g c]; simpl in Hwf.
    + by apply parse_canonical_user.
    + by apply parse_canonical_group.
    + destruct Hwf. by apply parse_canonical_channel.
  - intros Hn. unfold normalizeOneBotMessagingTarget. by rewrite Hn.
Qed.

Lemma normalize_round_trip_witness :
  parseOneBotTarget (normalizeOneBotMessagingTarget (lit " OneBot:Guild: g1 /c1:x "))
  = parseOneBotTarget (lit " OneBot:Guild: g1 /c1:x ")
  ∧ normalizeOneBotMessagingTarget (lit " 12345 ") = trim (lit " 12345 ").
Proof.
  split.
  - apply (proj1 (normalize_round_trip (lit " OneBot:Guild: g1 /c1:x "))
             (Channel (lit "g1") (lit "c1"))).
    vm_compute. reflexivity.
  - apply (proj2 (normalize_round_trip (lit " 12345 "))).
    vm_compute. reflexivity.
Defined.

(** *** Channel addresses *)

Definition channelOf (parts : list jsstring) : option OneBotTarget :=
  match parts with
  | guildId :: channelId :: _ => Some (Channel guildId channelId)
  | _ => None
  end.

(** An ASCII case variant of a literal. *)
Definition caseVariant (s : jsstring) (literal : String.string) : Prop :=
  toLowerCase s = lit literal.

Lemma length_toLowerCase s : length (toLowerCase s) = length s.
Proof. apply List.length_map. Qed.

Lemma stripPrefix_ci q k x :
  toLowerCase q = k -> stripPrefix (q ++ x) k = Some (trim x).
Proof.
  intros H. unfold stripPrefix. rewrite toLowerCase_app, H, startsWith_app.
  simpl. by rewrite <- H, length_toLowerCase, slice_app.
Qed.

Lemma stripPrefix_clash q k k' x :
  toLowerCase q = k -> clash k k' = true -> stripPrefix (q ++ x) k' = None.
Proof.
  intros H Hk. unfold stripPrefix.
  by rewrite toLowerCase_app, H, startsWith_clash.
Qed.

Lemma channelParts_nil : channelParts [] = [].
Proof. done. Qed.

Lemma parse_channel_raw input q x :
  caseVariant q "channel:" ∨ caseVariant q "guild:" ->
  normalizeRawTarget input = q ++ x ->
  parseOneBotTarget input = channelOf (channelParts (trim x)).
Proof.
  intros Hq Hraw. unfold parseOneBotTarget. rewrite Hraw.
  assert (truthy (q ++ x) = true) as ->.
  { destruct Hq as [Hq|Hq]; by destruct q. }
  simpl negb. cbv iota.
  unfold userPrefixes, channelPrefixes, firstRest.
  destruct Hq as [Hq|Hq].
  - rewrite (stripPrefix_clash q _ (lit "user:") x Hq),
      (stripPrefix_clash q _ (lit "private:") x Hq),
      (stripPrefix_clash q _ (lit "dm:") x Hq),
      (stripPrefix_clash q _ (lit "qq:") x Hq),
      (stripPrefix_clash q _ (lit "group:") x Hq),
      (stripPrefix_clash q _ (lit "guild:") x Hq) by done.
    rewrite (stripPrefix_ci q _ x Hq). simpl.
    destruct (truthy (trim x)) eqn:E; [done|].
    by destruct (trim x).
  - rewrite (stripPrefix_clash q _ (lit "user:") x Hq),
      (stripPrefix_clash q _ (lit "private:") x Hq),
      (stripPrefix_clash q _ (lit "dm:") x Hq),
      (stripPrefix_clash q _ (lit "qq:") x Hq),
      (stripPrefix_clash q _ (lit "group:") x Hq),
      (stripPrefix_clash q _ (lit "channel:") x Hq) by done.
    rewrite (stripPrefix_ci q _ x Hq). simpl.
    destruct (truthy (trim x)) eqn:E; [done|].
    by destruct (trim x).
Qed.

Lemma trim_prefixed a q r :
  (exists c a', a ++ q = c :: a' ∧ isWhiteSpace c = false) ->
  (exists q' c, q = q' ++ [c] ∧ isWhiteSpace c = false) ->
  trim (a ++ q ++ r) = a ++ q ++ trimEnd r.
Proof.
  intros (c & a' & Ha & Hc) (q' & d & Hq & Hd). unfold trim.
  assert (trimEnd (a ++ q ++ r) = a ++ q ++ trimEnd r) as ->.
  { subst q. rewrite !app_assoc. by rewrite trimEnd_app_solid. }
  rewrite (app_assoc a q), Ha. simpl. by rewrite Hc.
Qed.

Lemma channel_prefix_shape q :
  caseVariant q "channel:" ∨ caseVariant q "guild:" ->
  (exists c q', q = c :: q' ∧ isWhiteSpace c = false)
  ∧ (exists q' c, q = q' ++ [c] ∧ isWhiteSpace c = false).
Proof.
  unfold caseVariant. intros [Hq|Hq]; split.
  - by apply (toLowerCase_head q 99 (lit "hannel:")).
  - by apply (toLowerCase_last q 58 (lit "channel")).
  - by apply (toLowerCase_head q 103 (lit "uild:")).
  - by apply (toLowerCase_last q 58 (lit "guild")).
Qed.

Lemma normalizeRawTarget_scheme p q r :
  caseVariant p "onebot:" ->
  caseVariant q "channel:" ∨ caseVariant q "guild:" ->
  normalizeRawTarget (p ++ q ++ r) = q ++ trimEnd r.
Proof.
  intros Hp Hq. unfold normalizeRawTarget.
  destruct (channel_prefix_shape q Hq) as [_ Hlast].
  rewrite trim_prefixed; [|clear Hlast|done].
  - unfold matchesPREFIX_RE. rewrite toLowerCase_app, Hp, startsWith_app.
    replace 7%nat with (length p); [apply slice_app|].
    by rewrite <- length_toLowerCase, Hp.
  - destruct (toLowerCase_head p 111 (lit "nebot:") Hp) as (c & p' & -> & Hc); [done|].
    by exists c, (p' ++ q).
Qed.

Lemma normalizeRawTarget_plain q r :
  caseVariant q "channel:" ∨ caseVariant q "guild:" ->
  normalizeRawTarget (q ++ r) = q ++ trimEnd r.
Proof.
  intros Hq. unfold normalizeRawTarget.
  destruct (channel_prefix_shape q Hq) as [Hhead Hlast].
  pose proof (trim_prefixed [] q r Hhead Hlast) as Ht. simpl in Ht. rewrite Ht.
  unfold matchesPREFIX_RE. rewrite toLowerCase_app.
  by destruct Hq as [-> | ->]; rewrite startsWith_clash.
Qed.

(** C8. Channel addresses: an ASCII case variant of ["onebot:"] in
    front is removed; what follows a case variant of ["channel:"] or
    ["guild:"] is trimmed and split on ['/'] and [':'], the pieces are
    trimmed and the empty ones dropped; the first two pieces are the
    guild and the channel, and with fewer than two there is no target.
    So ["onebot:channel:g1/c1"] is the channel [g1], [c1], and
    ["channel:onlyone"] is no target. *)
Theorem channel_address_parsing (p q r : jsstring) :
  caseVariant p "onebot:" ->
  caseVariant q "channel:" ∨ caseVariant q "guild:" ->
  let parts := List.filter truthy (List.map trim (splitOn isSep (trim r))) in
  parseOneBotTarget (p ++ q ++ r) = parseOneBotTarget (q ++ r)
  ∧ (forall g c, parseOneBotTarget (q ++ r) = Some (Channel g c)
                 <-> exists rest, parts = g :: c :: rest)
  ∧ (parseOneBotTarget (q ++ r) = None <-> (length parts < 2)%nat)
  ∧ parseOneBotTarget (lit "onebot:channel:g1/c1")
    = Some (Channel (lit "g1") (lit "c1"))
  ∧ parseOneBotTarget (lit "channel:onlyone") = None.
Proof.
  intros Hp Hq parts.
  assert (parseOneBotTarget (q ++ r) = channelOf parts) as Hplain.
  { rewrite (parse_channel_raw _ q (trimEnd r) Hq (normalizeRawTarget_plain q r Hq)).
    by rewrite trim_trimEnd_l. }
  assert (parseOneBotTarget (p ++ q ++ r) = channelOf parts) as Hscheme.
  { rewrite (parse_channel_raw _ q (trimEnd r) Hq (normalizeRawTarget_scheme p q r Hp Hq)).
    by rewrite trim_trimEnd_l. }
  rewrite Hscheme, Hplain. split; [done|]. split; [|split; [|done]].
  - intros g c. destruct parts as [|g' [|c' rest]]; simpl.
    + split; [done|]. by intros [? ?].
    + split; [done|]. by intros [? ?].
    + split; [intros [= -> ->]; by eexists|]. by intros [? [= -> -> _]].
  - destruct parts as [|g' [|c' rest]]; simpl; split; try done; lia.
Qed.

Lemma channel_address_parsing_witness :
  parseOneBotTarget (lit "OneBot:" ++ lit "Guild:" ++ lit " g1 //c1:x ")
  = parseOneBotTarget (lit "Guild:" ++ lit " g1 //c1:x ")
  ∧ parseOneBotTarget (lit "Guild:" ++ lit " g1 //c1:x ")
    = Some (Channel (lit "g1") (lit "c1")).
Proof.
  assert (caseVariant (lit "OneBot:") "onebot:") as Hp by reflexivity.
  assert (caseVariant (lit "Guild:") "channel:" ∨ caseVariant (lit "Guild:") "guild:")
    as Hq by (right; reflexivity).
  destruct (channel_address_parsing (lit "OneBot:") (lit "Guild:") (lit " g1 //c1:x ")
              Hp Hq) as (H1 & H2 & _).
  split; [exact H1|].
  apply H2. exists [lit "x"]. vm_compute. reflexivity.
Defined.

(** *** Addresses from events *)

(** The detail type as [buildOneBotTargetFromEvent] compares it:
    trimmed and lower-cased. *)
Definition detailOf (params : TargetFromEventParams) : jsstring :=
  toLowerCase (trim (detailType params)).

(** C7, as the specification states it, fails: the detail type
    ["GROUP"] is none of ["private"], ["user"], ["dm"], ["group"],
    ["channel"], and still yields a group address, because the detail
    type is trimmed and lower-cased before it is compared. *)
Lemma fromEvent_other_detail_type_counterexample :
  ~ (forall params,
       detailType params ∉ [lit "private"; lit "user"; lit "dm"; lit "group";
                            lit "channel"] ->
       buildOneBotTargetFromEvent params = None).
Proof.
  intros H.
  specialize (H {| detailType := lit "GROUP"; userId := None;
                   groupId := Some (lit "42"); guildId := None;
                   channelId := None |}).
  simpl in H. discriminate H.
  rewrite !not_elem_of_cons. repeat split; try discriminate.
  apply not_elem_of_nil.
Qed.

(** C7, amended. With the detail type trimmed and lower-cased:
    ["private"], ["user"] and ["dm"] yield the user address exactly when
    [userId] is a non-empty string; ["group"] yields the group address
    exactly when [groupId] is a non-empty string; ["channel"] yields the
    channel address exactly when [guildId] and [channelId] both are
    non-empty strings; every other detail type yields none. *)
Theorem fromEvent_mapping (params : TargetFromEventParams) :
  (detailOf params ∈ [lit "private"; lit "user"; lit "dm"] ->
     forall address, buildOneBotTargetFromEvent params = Some address
       <-> exists u, userId params = Some u ∧ u ≠ [] ∧ address = lit "user:" ++ u)
  ∧ (detailOf params = lit "group" ->
     forall address, buildOneBotTargetFromEvent params = Some address
       <-> exists g, groupId params = Some g ∧ g ≠ [] ∧ address = lit "group:" ++ g)
  ∧ (detailOf params = lit "channel" ->
     forall address, buildOneBotTargetFromEvent params = Some address
       <-> exists g c, guildId params = Some g ∧ g ≠ []
                     ∧ channelId params = Some c ∧ c ≠ []
                     ∧ address = lit "channel:" ++ g ++ lit ":" ++ c)
  ∧ (detailOf params ∉ [lit "private"; lit "user"; lit "dm"; lit "group";
                        lit "channel"] ->
     buildOneBotTargetFromEvent params = None).
Proof.
  unfold buildOneBotTargetFromEvent, detailOf.
  set (detail := toLowerCase (trim (detailType params))).
  assert (forall v u, ifTruthy v = Some u <-> v = Some u ∧ u ≠ []) as Hpresent.
  { intros v u. destruct v as [[|c s]|]; simpl.
    - split; [done|]. by intros [[= <-] ?].
    - split; [by intros [= <-]|]. by intros [[= <-] _].
    - split; [done|]. by intros [? _]. }
  split; [|split; [|split]].
  - intros Hd address.
    assert (strictEq detail (lit "private") || strictEq detail (lit "user")
            || strictEq detail (lit "dm") = true) as ->.
    { rewrite !orb_true_iff, !strictEq_true.
      rewrite !elem_of_cons in Hd. destruct Hd as [?|[?|[?|Hd]]]; auto.
      by apply elem_of_nil in Hd. }
    split.
    + destruct (ifTruthy (userId params)) as [u|] eqn:E; [|done].
      intros [= <-]. exists u. by apply Hpresent in E as [-> ?].
    + intros (u & Hu & Hne & ->). by rewrite (proj2 (Hpresent _ u)).
  - intros Hd address. rewrite Hd. simpl. split.
    + destruct (ifTruthy (groupId params)) as [g|] eqn:E; [|done].
      intros [= <-]. exists g. by apply Hpresent in E as [-> ?].
    + intros (g & Hg & Hne & ->). by rewrite (proj2 (Hpresent _ g)).
  - intros Hd address. rewrite Hd. simpl. split.
    + destruct (ifTruthy (guildId params)) as [g|] eqn:Eg;
        destruct (ifTruthy (channelId params)) as [c|] eqn:Ec; try done.
      intros [= <-]. exists g, c.
      apply Hpresent in Eg as [-> ?]. by apply Hpresent in Ec as [-> ?].
    + intros (g & c & Hg & Hgne & Hc & Hcne & ->).
      by rewrite (proj2 (Hpresent _ g)), (proj2 (Hpresent _ c)).
  - intros Hd. rewrite !not_elem_of_cons in Hd.
    destruct Hd as (H1 & H2 & H3 & H4 & H5 & _).
    apply strictEq_false in H1, H2, H3, H4, H5.
    by rewrite H1, H2, H3, H4, H5.
Qed.

Lemma fromEvent_mapping_witness :
  buildOneBotTargetFromEvent
    {| detailType := lit " Group "; userId := Some (lit "7");
       groupId := Some (lit "42"); guildId := None; channelId := None |}
  = Some (lit "group:42")
  ∧ buildOneBotTargetFromEvent
      {| detailType := lit "notice"; userId := Some (lit "7");
         groupId := Some (lit "42"); guildId := None; channelId := None |}
    = None.
Proof.
  split.
  - apply (proj1 (proj2 (fromEvent_mapping _))); [reflexivity|].
    exists (lit "42"). repeat split. discriminate.
  - apply (proj2 (proj2 (proj2 (fromEvent_mapping _)))).
    rewrite !not_elem_of_cons.
    repeat split; try (intros H; vm_compute in H; discriminate H).
    apply not_elem_of_nil.
Defined.

End TargetsFacts.

(** ** Inbound gating *)

Module MonitorFacts.
Import Js Targets Normalize Types Monitor JsFacts TargetsFacts.

(** *** Allowlists *)

Section Engine.

Context `{engine : Engine}.

(** What an entry of a configured list contributes: the wildcard, an
    identifier, or nothing. *)
Definition isWildcardEntry (entry : jsstring) : Prop := trim entry = lit "*".

Definition identifierOf (entry : jsstring) : option jsstring :=
  if negb (truthy (trim entry)) then None
  else if strictEq (trim entry) (lit "*") then None
  else Some (toLowerCaseFull (normalizeOneBotUserId (trim entry))).

Lemma normalizeAllowlistStep_entries acc entry x :
  x ∈ entries (normalizeAllowlistStep acc entry)
  <-> x ∈ entries acc ∨ identifierOf entry = Some x.
Proof.
  unfold normalizeAllowlistStep, identifierOf.
  destruct (negb (truthy (trim entry))); [naive_solver|].
  destruct (strictEq (trim entry) (lit "*")); [naive_solver|].
  simpl. rewrite elem_of_union, elem_of_singleton. naive_solver.
Qed.

Lemma normalizeAllowlistStep_wildcard acc entry :
  hasWildcard (normalizeAllowlistStep acc entry) = true
  <-> hasWildcard acc = true ∨ isWildcardEntry entry.
Proof.
  unfold normalizeAllowlistStep, isWildcardEntry.
  destruct (truthy (trim entry)) eqn:Et; simpl.
  - destruct (strictEq (trim entry) (lit "*")) eqn:E; simpl.
    + apply strictEq_true in E. naive_solver.
    + apply strictEq_false in E. naive_solver.
  - destruct (trim entry); [|done]. naive_solver.
Qed.

Lemma foldl_normalize_entries l acc x :
  x ∈ entries (foldl normalizeAllowlistStep acc l)
  <-> x ∈ entries acc ∨ exists entry, entry ∈ l ∧ identifierOf entry = Some x.
Proof.
  revert acc. induction l as [|e l IH]; intros acc; simpl.
  - split; [by left|]. intros [?|(entry & Hin & _)]; [done|].
    by apply elem_of_nil in Hin.
  - rewrite IH, normalizeAllowlistStep_entries. split.
    + intros [[?|?]|(entry & Hin & ?)]; [by left| |].
      * right. exists e. split; [apply list_elem_of_here|done].
      * right. exists entry. split; [by apply list_elem_of_further|done].
    + intros [?|(entry & Hin & ?)]; [by left; left|].
      apply elem_of_cons in Hin as [->|Hin]; [by left; right|].
      right. by exists entry.
Qed.

Lemma foldl_normalize_wildcard l acc :
  hasWildcard (foldl normalizeAllowlistStep acc l) = true
  <-> hasWildcard acc = true ∨ exists entry, entry ∈ l ∧ isWildcardEntry entry.
Proof.
  revert acc. induction l as [|e l IH]; intros acc; simpl.
  - split; [by left|]. intros [?|(entry & Hin & _)]; [done|].
    by apply elem_of_nil in Hin.
  - rewrite IH, normalizeAllowlistStep_wildcard. split.
    + intros [[?|?]|(entry & Hin & ?)]; [by left| |].
      * right. exists e. split; [apply list_elem_of_here|done].
      * right. exists entry. split; [by apply list_elem_of_further|done].
    + intros [?|(entry & Hin & ?)]; [by left; left|].
      apply elem_of_cons in Hin as [->|Hin]; [by left; right|].
      right. by exists entry.
Qed.

(** The normalized list holds the identifiers of the entries, and is a
    wildcard list exactly when an entry is ["*"]. *)
Lemma normalizeAllowlist_entries list x :
  x ∈ entries (normalizeAllowlist list)
  <-> exists entry, entry ∈ default [] list ∧ identifierOf entry = Some x.
Proof.
  unfold normalizeAllowlist. rewrite foldl_normalize_entries. simpl.
  split; [intros [H|H]; [by apply not_elem_of_empty in H|done]|by right].
Qed.

Lemma normalizeAllowlist_wildcard list :
  hasWildcard (normalizeAllowlist list) = true
  <-> exists entry, entry ∈ default [] list ∧ isWildcardEntry entry.
Proof.
  unfold normalizeAllowlist. rewrite foldl_normalize_wildcard. simpl.
  split; [intros [H|H]; done|by right].
Qed.

Lemma mergeAllowlists_two a b :
  entries (mergeAllowlists [Some a; Some b]) = entries a ∪ entries b
  ∧ hasWildcard (mergeAllowlists [Some a; Some b]) = hasWildcard a || hasWildcard b.
Proof.
  unfold mergeAllowlists. simpl. split.
  - by rewrite (left_id_L ∅ (∪)).
  - by destruct (hasWildcard a), (hasWildcard b).
Qed.

Lemma isAllowed_wildcard list sender :
  hasWildcard list = true -> isAllowed list sender = true.
Proof. intros H. unfold isAllowed. by rewrite H. Qed.

(** The list the group allowlist starts from: the configured
    [groupAllowFrom] when it has entries, else the configured
    [allowFrom]. *)
Definition configuredGroupList (account : ResolvedOneBotAccount)
  : option (list jsstring) :=
  match groupAllowFrom (config account) with
  | Some (entry :: list) => Some (entry :: list)
  | _ => allowFrom (config account)
  end.

Lemma effectiveGroupAllowFrom_eq host account :
  effectiveGroupAllowFrom host account
  = mergeAllowlists [Some (normalizeAllowlist (configuredGroupList account));
                     Some (normalizeAllowlist (Some (readAllowFromStore host)))].
Proof.
  unfold effectiveGroupAllowFrom, configuredGroupList.
  by destruct (groupAllowFrom (config account)) as [[|e l]|].
Qed.

(** C6. The group allowlist is the union of the identifiers of the
    configured group list (of the direct-message list when the group
    list has no entries) with those of the pairing store; it is a
    wildcard list when one of the two has a ["*"] entry, and a wildcard
    list admits every sender.  It is the list the group policy
    ["allowlist"] checks the sender against. *)
Theorem merged_group_allowlist (host : Host) (account : ResolvedOneBotAccount) :
  let merged := effectiveGroupAllowFrom host account in
  let sources :=
    default [] (configuredGroupList account) ++ readAllowFromStore host in
  (forall x, x ∈ entries merged
             <-> exists entry, entry ∈ sources ∧ identifierOf entry = Some x)
  ∧ (hasWildcard merged = true
     <-> exists entry, entry ∈ sources ∧ isWildcardEntry entry)
  ∧ (hasWildcard merged = true -> forall sender, isAllowed merged sender = true)
  ∧ (forall inb groupState,
       groupConfig groupState ≫= enabled ≠ Some false ->
       default GroupAllowlist (groupPolicy (config account)) = GroupAllowlist ->
       (admitGroupPolicy host account inb groupState = Admit
        <-> isAllowed merged (Some (senderId inb)) = true)).
Proof.
  intros merged sources. subst merged sources.
  rewrite effectiveGroupAllowFrom_eq.
  destruct (mergeAllowlists_two
              (normalizeAllowlist (configuredGroupList account))
              (normalizeAllowlist (Some (readAllowFromStore host)))) as [He Hw].
  split; [|split; [|split]].
  - intros x. rewrite He, elem_of_union, !normalizeAllowlist_entries. simpl.
    setoid_rewrite elem_of_app. naive_solver.
  - rewrite Hw, orb_true_iff, !normalizeAllowlist_wildcard. simpl.
    setoid_rewrite elem_of_app. naive_solver.
  - intros H sender. by apply isAllowed_wildcard.
  - intros inb groupState Hen Hpol. unfold admitGroupPolicy.
    rewrite Hpol, effectiveGroupAllowFrom_eq.
    destruct (groupConfig groupState ≫= enabled) as [[|]|]; try done;
      by destruct (isAllowed _ _).
Qed.

End Engine.

(** *** Sample host, account and events *)

Section Samples.

#[local] Existing Instance sampleEngine.

Definition sampleHost (store : list jsstring) : Host :=
  {| shouldHandleTextCommands := true;
     useAccessGroups := true;
     readAllowFromStore := store;
     upsertPairingRequest := fun _ _ => {| code := lit "K7Q2"; created := true |};
     buildPairingReply := fun idLine code => idLine ++ lit " code " ++ code;
     hasControlCommand := fun _ => false;
     resolveControlCommandGate :=
       fun _ _ _ _ => {| commandAuthorized := false; shouldBlock := false |};
     resolveAgentRoute :=
       fun account _ id =>
         {| agentId := lit "main"; sessionKey := id; routeAccountId := account |};
     buildMentionRegexes := fun _ => [];
     matchesMentionPatterns := fun _ _ => false;
     resolveRequireMention := fun _ _ override => default true override;
     resolveMentionGatingWithBypass :=
       fun p => {| effectiveWasMentioned := mgWasMentioned p;
                   shouldSkip := mgRequireMention p && negb (mgWasMentioned p) |};
     formatAgentEnvelope := fun _ _ body => body;
     sendOneBotMessage := fun _ _ => None |}.

Definition sampleAccount (cfg : OneBotAccountConfig) : ResolvedOneBotAccount :=
  {| accountId := lit "default"; accountEnabled := true;
     accountWsUrl := Some (lit "ws://127.0.0.1:6700/"); accountAccessToken := None;
     platform := None; selfId := Some (lit "10000"); requireMention := None;
     configured := true; config := cfg |}.

Definition sampleConfig (dm : option DmPolicy) (allow : option (list jsstring))
    (groupAllow : option (list jsstring))
    (groupList : option (gmap jsstring OneBotGroupConfig)) : OneBotAccountConfig :=
  {| dmPolicy := dm; allowFrom := allow; groupAllowFrom := groupAllow;
     groupPolicy := Some GroupOpen; groups := groupList; blockStreaming := None |}.

Definition sampleEvent (detail : String.string) (user : String.string)
    (group : option jsstring) (body : String.string) : OneBotMessageEvent :=
  {| evType := Some (lit "message"); detail_type := Some (lit detail);
     self := None; time := Some 1700000000%Z; message_id := Some (lit "m1");
     message := Some [{| segType := lit "text";
                         data := Some {| text := Some (VString (lit body));
                                         user_id := None |} |}];
     alt_message := None; evUserId := Some (lit user); group_id := group;
     guild_id := None; channel_id := None; qq_nickname := None;
     user_name := None |}.

Lemma merged_group_allowlist_witness :
  let account :=
    sampleAccount (sampleConfig None (Some [lit " QQ:Alice "]) (Some []) None) in
  let merged := effectiveGroupAllowFrom (sampleHost [lit "*"]) account in
  lit "alice" ∈ entries merged ∧ isAllowed merged (Some (lit "bob")) = true.
Proof.
  intros account merged.
  destruct (merged_group_allowlist (sampleHost [lit "*"]) account)
    as (He & Hw & Hall & _).
  split.
  - apply He. exists (lit " QQ:Alice "). split; [|reflexivity].
    apply list_elem_of_here.
  - apply Hall, Hw. exists (lit "*"). split; [|reflexivity].
    apply list_elem_of_further, list_elem_of_here.
Defined.

End Samples.

(** *** What the handler resolves *)

Section Engine.

Context `{engine : Engine}.

Lemma ifTruthy_Some v s : ifTruthy v = Some s <-> v = Some s ∧ s ≠ [].
Proof.
  destruct v as [[|c t]|]; simpl.
  - split; [done|]. by intros [[= <-] ?].
  - split; [by intros [= <-]|]. by intros [[= <-] _].
  - split; [done|]. by intros [? _].
Qed.

Lemma ifTruthy_idem v : ifTruthy (ifTruthy v) = ifTruthy v.
Proof. by destruct v as [[|c t]|]. Qed.

(** The fields of a resolved event that the policy checks read, in
    terms of the event. *)
Lemma resolveInbound_fields event account inb :
  resolveInbound event account = Some inb ->
  let detail := toLowerCase (trim (default [] (detail_type event))) in
  detailType inb = detail
  ∧ senderId inb = default [] (trim <$> evUserId event)
  ∧ senderId inb ≠ []
  ∧ groupId inb = trimmedOrNull (group_id event)
  ∧ isGroup inb = strictEq detail (lit "group") || strictEq detail (lit "channel")
  ∧ buildOneBotTargetFromEvent
      {| Targets.detailType := detail;
         Targets.userId := Some (senderId inb);
         Targets.groupId := trimmedOrNull (group_id event);
         Targets.guildId := trimmedOrNull (guild_id event);
         Targets.channelId := trimmedOrNull (channel_id event) |}
    = Some (target inb)
  ∧ groupKey inb
    = (if strictEq detail (lit "channel") then Some (target inb)
       else if strictEq detail (lit "group") then trimmedOrNull (group_id event)
       else None).
Proof.
  intros H detail. unfold resolveInbound in H. fold detail in H.
  repeat case_match; try done; injection H as <-; simpl;
    (repeat split; try done);
    match goal with
    | E : negb (truthy (default [] (trim <$> evUserId event))) = false |- _ =>
        apply negb_false_iff in E; by apply truthy_ne
    end.
Qed.

(** The group key of a group-like chat: the raw group id of a group
    chat, the whole channel address of a channel chat. *)
Lemma resolveInbound_groupKey event account inb :
  resolveInbound event account = Some inb -> isGroup inb = true ->
  (detailType inb = lit "group"
   ∧ exists g, trimmedOrNull (group_id event) = Some g ∧ g ≠ []
               ∧ groupKey inb = Some g)
  ∨ (detailType inb = lit "channel"
     ∧ exists g c, trimmedOrNull (guild_id event) = Some g
                   ∧ trimmedOrNull (channel_id event) = Some c
                   ∧ groupKey inb = Some (lit "channel:" ++ g ++ lit ":" ++ c)).
Proof.
  intros H Hg.
  destruct (resolveInbound_fields _ _ _ H) as (Hd & _ & _ & _ & Hig & Hb & Hk).
  rewrite Hg in Hig. rewrite Hd, Hk.
  set (detail := toLowerCase (trim (default [] (detail_type event)))) in *.
  destruct (strictEq detail (lit "channel")) eqn:Ec.
  - right. apply strictEq_true in Ec. split; [done|].
    rewrite Ec in Hb. unfold buildOneBotTargetFromEvent in Hb. simpl in Hb.
    unfold trimmedOrNull in *. rewrite !ifTruthy_idem in Hb.
    destruct (ifTruthy (trim <$> guild_id event)) as [g|]; [|done].
    destruct (ifTruthy (trim <$> channel_id event)) as [c|]; [|done].
    injection Hb as <-. by exists g, c.
  - destruct (strictEq detail (lit "group")) eqn:Eg; [|done].
    left. apply strictEq_true in Eg. split; [done|].
    rewrite Eg in Hb. unfold buildOneBotTargetFromEvent in Hb. simpl in Hb.
    unfold trimmedOrNull in *. rewrite !ifTruthy_idem in Hb.
    destruct (ifTruthy (trim <$> group_id event)) as [g|] eqn:E; [|done].
    exists g. apply ifTruthy_Some in E as [_ ?]. done.
Qed.

(** *** Group admission *)

Lemma resolveGroupConfig_allowed groups key :
  key ≠ [] ->
  allowed (resolveGroupConfig groups (Some key)) = true
  <-> size (default ∅ groups) = 0%nat
      ∨ key ∈ dom (default ∅ groups) ∨ lit "*" ∈ dom (default ∅ groups).
Proof.
  intros Hkey. unfold resolveGroupConfig, hasOwn. simpl.
  assert (truthy key = true) as -> by by apply truthy_ne.
  rewrite !orb_true_iff, negb_true_iff, bool_decide_eq_false, andb_true_l,
    !bool_decide_eq_true.
  split; (intros [[?|?]|?]; [left; lia|by right; left|by right; right])
         || (intros [?|[?|?]]; [left; left; lia|by left; right|by right]).
Qed.

(** The checks that follow the allowlist of groups, and the rest of the
    handler when they pass. *)
Definition afterGroupAllowlist (host : Host) (event : OneBotMessageEvent)
    (account : ResolvedOneBotAccount) (inb : Inbound) : list Effect :=
  match admitGroupPolicy host account inb
          (resolveGroupConfig (groups (config account)) (groupKey inb)) with
  | Reject effects => effects
  | Admit => afterAdmission host event account inb
  end.

(** C3. For a group-like event the handler has resolved, the group key
    is the raw group id (group chat) or the whole channel address
    (channel chat).  With no group configured the event goes on to the
    policy checks whatever its key; once a group is configured it goes
    on when its key or ["*"] is a key of the configured groups, and is
    dropped with "not allowlisted" otherwise. *)
Theorem group_admission (host : Host) (event : OneBotMessageEvent)
    (account : ResolvedOneBotAccount) (inb : Inbound) :
  resolveInbound event account = Some inb -> isGroup inb = true ->
  let configuredGroups := default ∅ (groups (config account)) in
  exists key,
    groupKey inb = Some key
    ∧ (detailType inb = lit "group" -> trimmedOrNull (group_id event) = Some key)
    ∧ (detailType inb = lit "channel" ->
       exists g c, trimmedOrNull (guild_id event) = Some g
                   ∧ trimmedOrNull (channel_id event) = Some c
                   ∧ key = lit "channel:" ++ g ++ lit ":" ++ c)
    ∧ (size configuredGroups = 0%nat ->
       handleOneBotMessage host event account
       = StatusLastInboundAt :: afterGroupAllowlist host event account inb)
    ∧ ((0 < size configuredGroups)%nat ->
       key ∈ dom configuredGroups ∨ lit "*" ∈ dom configuredGroups ->
       handleOneBotMessage host event account
       = StatusLastInboundAt :: afterGroupAllowlist host event account inb)
    ∧ ((0 < size configuredGroups)%nat ->
       key ∉ dom configuredGroups -> lit "*" ∉ dom configuredGroups ->
       handleOneBotMessage host event account
       = [StatusLastInboundAt;
          RuntimeLog (lit "onebot: drop group " ++ key ++ lit " (not allowlisted)")]).
Proof.
  intros H Hg configuredGroups.
  assert (exists key, groupKey inb = Some key ∧ key ≠ []
      ∧ (detailType inb = lit "group" -> trimmedOrNull (group_id event) = Some key)
      ∧ (detailType inb = lit "channel" ->
         exists g c, trimmedOrNull (guild_id event) = Some g
                     ∧ trimmedOrNull (channel_id event) = Some c
                     ∧ key = lit "channel:" ++ g ++ lit ":" ++ c))
    as (key & Hk & Hne & Hgroup & Hchannel).
  { destruct (resolveInbound_groupKey _ _ _ H Hg)
      as [(Hd & g & Hgid & Hne & Hk)|(Hd & g & c & Hgid & Hcid & Hk)].
    - exists g. repeat split; try done. rewrite Hd. intros [=].
    - eexists. repeat split; try done.
      + rewrite Hd. intros [=].
      + intros _. by exists g, c. }
  exists key. split; [done|]. split; [done|]. split; [done|].
  pose proof (resolveGroupConfig_allowed (groups (config account)) key Hne) as Ha.
  fold configuredGroups in Ha.
  assert (forall b, allowed (resolveGroupConfig (groups (config account)) (Some key)) = b ->
            handleOneBotMessage host event account
            = StatusLastInboundAt ::
              (if b then afterGroupAllowlist host event account inb
               else [RuntimeLog (lit "onebot: drop group " ++ key
                                   ++ lit " (not allowlisted)")])) as Hh.
  { intros b Hb. unfold handleOneBotMessage, admitGroup, afterGroupAllowlist.
    rewrite H, Hg, Hk, Hb. destruct b; simpl; [done|].
    unfold dropGroupMessage. by rewrite Hk. }
  split; [|split].
  - intros Hs. apply (Hh true), Ha. by left.
  - intros Hs Hin. apply (Hh true), Ha. by right.
  - intros Hs Hn1 Hn2. apply (Hh false).
    apply not_true_is_false. rewrite Ha. intros [?|[?|?]]; [lia|done|done].
Qed.

End Engine.

Section Samples.

#[local] Existing Instance sampleEngine.

Lemma group_admission_witness :
  let account groupList :=
    sampleAccount (sampleConfig None None None groupList) in
  let five : gmap jsstring OneBotGroupConfig :=
    {[ lit "5" := {| enabled := None; groupRequireMention := None |} ]} in
  let event := sampleEvent "group" "123" (Some (lit "6")) "hi" in
  handleOneBotMessage (sampleHost []) event (account (Some five))
  = [StatusLastInboundAt;
     RuntimeLog (lit "onebot: drop group 6 (not allowlisted)")]
  ∧ exists inb,
      handleOneBotMessage (sampleHost []) event (account None)
      = StatusLastInboundAt
        :: afterGroupAllowlist (sampleHost []) event (account None) inb.
Proof.
  intros account five event. split.
  - destruct (resolveInbound event (account (Some five))) as [inb|] eqn:E;
      [|by vm_compute in E].
    assert (isGroup inb = true ∧ groupKey inb = Some (lit "6")) as [Hg Hk].
    { vm_compute in E. injection E as <-. by split. }
    destruct (group_admission (sampleHost []) event (account (Some five)) inb E Hg)
      as (key & Hkey & _ & _ & _ & _ & Hdrop).
    rewrite Hk in Hkey. injection Hkey as <-.
    apply Hdrop; subst account five; simpl.
    + rewrite map_size_singleton. lia.
    + rewrite dom_singleton_L, not_elem_of_singleton. discriminate.
    + rewrite dom_singleton_L, not_elem_of_singleton. discriminate.
  - destruct (resolveInbound event (account None)) as [inb|] eqn:E;
      [|by vm_compute in E].
    assert (isGroup inb = true) as Hg.
    { vm_compute in E. by injection E as <-. }
    destruct (group_admission (sampleHost []) event (account None) inb E Hg)
      as (key & _ & _ & _ & Hgo & _).
    exists inb. apply Hgo. subst account. simpl. apply map_size_empty.
Defined.

End Samples.

(** *** Direct messages *)

Section Engine.

Context `{engine : Engine}.

(** C2. For a direct-message event the handler has resolved: under
    [dmPolicy] ["open"] the sender is admitted, whatever the configured
    allowlist and the pairing store hold, and the event is recorded and
    dispatched; under ["disabled"] the event is dropped, whoever the
    sender is, also when the merged allowlist holds the sender. *)
Theorem dm_admission (host : Host) (event : OneBotMessageEvent)
    (account : ResolvedOneBotAccount) (inb : Inbound) :
  resolveInbound event account = Some inb -> isGroup inb = false ->
  (dmPolicy (config account) = Some DmOpen ->
     admitDirect host event account inb = Admit
     ∧ handleOneBotMessage host event account
       = StatusLastInboundAt :: afterAdmission host event account inb
     ∧ exists ctx streaming,
         afterAdmission host event account inb
         = [RecordInboundSession ctx; DispatchReply ctx streaming]
         ∧ SenderId ctx = senderId inb)
  ∧ (dmPolicy (config account) = Some DmDisabled ->
     handleOneBotMessage host event account
     = [StatusLastInboundAt;
        RuntimeLog (lit "onebot: drop DM sender " ++ senderId inb
                      ++ lit " (dmPolicy=disabled)")]).
Proof.
  intros H Hg. split; intros Hp.
  - assert (admitDirect host event account inb = Admit) as Ha.
    { unfold admitDirect. by rewrite Hp. }
    split; [done|]. split.
    + unfold handleOneBotMessage. by rewrite H, Hg, Ha.
    + unfold afterAdmission. rewrite Hg. simpl. by eexists _, _.
  - unfold handleOneBotMessage, admitDirect. by rewrite H, Hg, Hp.
Qed.

End Engine.

Section Samples.

#[local] Existing Instance sampleEngine.

Lemma dm_admission_witness :
  let event := sampleEvent "private" "123" None "hi" in
  let account policy :=
    sampleAccount (sampleConfig (Some policy) (Some [lit "123"]) None None) in
  (exists ctx streaming,
     handleOneBotMessage (sampleHost []) event
       (sampleAccount (sampleConfig (Some DmOpen) (Some []) None None))
     = [StatusLastInboundAt; RecordInboundSession ctx; DispatchReply ctx streaming]
     ∧ SenderId ctx = lit "123")
  ∧ isAllowed (effectiveAllowFrom (sampleHost []) (account DmDisabled))
      (Some (lit "123")) = true
  ∧ handleOneBotMessage (sampleHost []) event (account DmDisabled)
    = [StatusLastInboundAt;
       RuntimeLog (lit "onebot: drop DM sender 123 (dmPolicy=disabled)")].
Proof.
  intros event account. split; [|split].
  - set (open := sampleAccount (sampleConfig (Some DmOpen) (Some []) None None)).
    destruct (resolveInbound event open) as [inb|] eqn:E; [|by vm_compute in E].
    assert (isGroup inb = false ∧ senderId inb = lit "123") as [Hg Hs].
    { vm_compute in E. injection E as <-. by split. }
    destruct (proj1 (dm_admission (sampleHost []) event open inb E Hg) eq_refl)
      as (_ & Hh & ctx & streaming & Ha & Hctx).
    exists ctx, streaming. by rewrite Hh, Ha, Hctx, Hs.
  - vm_compute. reflexivity.
  - destruct (resolveInbound event (account DmDisabled)) as [inb|] eqn:E;
      [|by vm_compute in E].
    assert (isGroup inb = false ∧ senderId inb = lit "123") as [Hg Hs].
    { vm_compute in E. injection E as <-. by split. }
    rewrite (proj2 (dm_admission (sampleHost []) event (account DmDisabled) inb E Hg)
               eq_refl).
    by rewrite Hs.
Defined.

End Samples.

End MonitorFacts.

(** ** Outbound sending *)

Module OutboundFacts.
Import Js Types Targets ClientRegistry Outbound JsFacts.

Definition whitespaceOnly (s : jsstring) : Prop :=
  Forall (fun c => isWhiteSpace c = true) s.

Lemma trimStart_whitespaceOnly s : whitespaceOnly s -> trimStart s = [].
Proof. induction 1 as [|c s Hc Hs IH]; [done|]. simpl. by rewrite Hc. Qed.

Lemma trim_whitespaceOnly s : whitespaceOnly s -> trim s = [].
Proof.
  intros H. unfold trim, trimEnd.
  by rewrite (trimStart_whitespaceOnly (rev s)) by by apply List.Forall_rev.
Qed.

Definition sampleClient : WsClient.World :=
  WsClient.initial
    {| WsClient.optWsUrl := lit "ws://127.0.0.1:6700/";
       WsClient.optAccessToken := None;
       WsClient.optReconnectDelayMs := None;
       WsClient.optAbortSignal := false |} 0.

Definition sampleAccount : ResolvedOneBotAccount :=
  {| accountId := lit "default"; accountEnabled := true;
     accountWsUrl := Some (lit "ws://127.0.0.1:6700/"); accountAccessToken := None;
     platform := None; selfId := None; requireMention := None;
     configured := true;
     config := {| dmPolicy := None; allowFrom := None; groupAllowFrom := None;
                  groupPolicy := None; groups := None; blockStreaming := None |} |}.

(** C10. With a text that is empty or only white space,
    [sendOneBotMessage] returns [{channel: "onebot", to: target}] for a
    target that parses and an account with a registered client, and
    leaves the client as it is: no action is issued.  A target that does
    not parse, and a missing client, throw before that. *)
Theorem empty_text_send_is_noop (account : ResolvedOneBotAccount)
    (target text : jsstring) (sendThrows : option jsstring) (clients : Clients) :
  whitespaceOnly text ->
  (parseOneBotTarget target = None ->
     sendOneBotMessage account target text sendThrows clients
     = (Threw (lit "Invalid OneBot target. Use <user:ID|group:ID|channel:GUILD:CHANNEL>"),
        clients))
  ∧ (forall parsed, parseOneBotTarget target = Some parsed ->
       getOneBotClient (accountId account) clients = None ->
       sendOneBotMessage account target text sendThrows clients
       = (Threw (lit "OneBot client is not connected"), clients))
  ∧ (forall parsed client, parseOneBotTarget target = Some parsed ->
       getOneBotClient (accountId account) clients = Some client ->
       sendOneBotMessage account target text sendThrows clients
       = (Returned {| channel := lit "onebot"; to := target |}, clients)).
Proof.
  intros Hws. unfold sendOneBotMessage. split; [|split].
  - by intros ->.
  - by intros parsed -> ->.
  - intros parsed client -> ->. by rewrite (trim_whitespaceOnly text Hws).
Qed.

Lemma empty_text_send_is_noop_witness :
  let clients : Clients := {[ lit "default" := sampleClient ]} in
  sendOneBotMessage sampleAccount (lit "group:987") (lit "  ") None clients
  = (Returned {| channel := lit "onebot"; to := lit "group:987" |}, clients)
  ∧ sendOneBotMessage sampleAccount (lit "987") (lit "  ") None clients
    = (Threw (lit "Invalid OneBot target. Use <user:ID|group:ID|channel:GUILD:CHANNEL>"),
       clients)
  ∧ sendOneBotMessage sampleAccount (lit "group:987") (lit "  ") None ∅
    = (Threw (lit "OneBot client is not connected"), ∅).
Proof.
  intros clients.
  assert (whitespaceOnly (lit "  ")) as Hws by (repeat constructor).
  split; [|split].
  - apply (proj2 (proj2 (empty_text_send_is_noop sampleAccount (lit "group:987")
                           (lit "  ") None clients Hws))
             (Group (lit "987")) sampleClient); [reflexivity|].
    apply lookup_singleton_eq.
  - apply (proj1 (empty_text_send_is_noop sampleAccount (lit "987")
                    (lit "  ") None clients Hws)).
    reflexivity.
  - apply (proj1 (proj2 (empty_text_send_is_noop sampleAccount (lit "group:987")
                           (lit "  ") None ∅ Hws)) (Group (lit "987")));
      [reflexivity|].
    apply lookup_empty.
Defined.

End OutboundFacts.

(** ** The protocol client *)

Module WsClientFacts.
Import Js Types Url WsClient JsFacts.

(** *** The time a timer waits *)

Lemma timerDelay_bounds after : (1 <= timerDelay after <= TIMEOUT_MAX)%Z.
Proof.
  unfold timerDelay, TIMEOUT_MAX, ofZ, numLe, trunc.
  destruct after as [| | |q]; cbn [andb]; try lia.
  destruct (Qle_bool (inject_Z 1) q) eqn:H1; cbn [andb]; [|lia].
  destruct (Qle_bool q (inject_Z 2147483647)) eqn:H2; [|lia].
  apply Qle_bool_iff in H1, H2. unfold Qle in *. destruct q as [a b]. simpl in *.
  assert (0 < Z.pos b)%Z by lia.
  rewrite Z.quot_div_nonneg by lia. split.
  - apply Z.div_le_lower_bound; lia.
  - apply Z.div_le_upper_bound; lia.
Qed.

(** A whole number of milliseconds from 1 to [TIMEOUT_MAX] is waited
    for as it is. *)
Lemma timerDelay_ofZ z :
  (1 <= z <= TIMEOUT_MAX)%Z -> timerDelay (ofZ z) = z.
Proof.
  unfold timerDelay, TIMEOUT_MAX, ofZ, numLe, trunc. intros Hz.
  assert (Qle_bool (inject_Z 1) (inject_Z z) = true) as ->
    by (apply Qle_bool_iff; unfold Qle; simpl; lia).
  assert (Qle_bool (inject_Z z) (inject_Z 2147483647) = true) as ->
    by (apply Qle_bool_iff; unfold Qle; simpl; lia).
  simpl. apply Z.quot_1_r.
Qed.

(** A timer never waits longer than a delay of 1 ms or more. *)
Lemma timerDelay_le q : (1 <= q)%Q -> (inject_Z (timerDelay (Finite q)) <= q)%Q.
Proof.
  intros H1. unfold timerDelay, numLe, ofZ, trunc.
  assert (Qle_bool (inject_Z 1) q = true) as -> by by apply Qle_bool_iff.
  cbn [andb]. destruct (Qle_bool q (inject_Z TIMEOUT_MAX)); [|done].
  unfold Qle in *. destruct q as [a b]. simpl in *.
  assert (0 < Z.pos b)%Z by lia.
  rewrite Z.quot_div_nonneg by lia. rewrite Z.mul_1_r.
  rewrite Z.mul_comm. apply Z.mul_div_le. lia.
Qed.

(** How often the trace schedules a reconnect, and how often it settles
    a promise. *)
Definition isReconnectSet (e : Effect) : bool :=
  match e with SetTimeout _ Reconnect _ => true | _ => false end.

Definition scheduled (trace : list Effect) : nat :=
  length (List.filter isReconnectSet trace).

Definition settlesPromise (p : nat) (e : Effect) : bool :=
  match e with
  | Resolve q _ | Reject q _ => bool_decide (q = p)
  | _ => false
  end.

Definition settled (p : nat) (trace : list Effect) : nat :=
  length (List.filter (settlesPromise p) trace).

(** What [rejectAllPending] does for one entry. *)
Definition rejectionOf (error : jsstring) (entry : jsstring * PendingAction)
  : list Effect :=
  [ClearTimeout (timeout entry.2); Reject (promise entry.2) error].

Definition clearTimers (timers : gmap nat Timer)
    (entries : list (jsstring * PendingAction)) : gmap nat Timer :=
  foldl (fun t entry => delete (timeout entry.2) t) timers entries.

Lemma foldl_rejectEntry error entries w :
  foldl (rejectEntry error) w entries
  = {| client := client w; now := now w; sockets := sockets w;
       timers := clearTimers (timers w) entries; fresh := fresh w;
       aborted := aborted w; abortListeners := abortListeners w;
       trace := trace w ++ flat_map (rejectionOf error) entries |}.
Proof.
  revert w. induction entries as [|entry entries IH]; intros w; simpl.
  - destruct w. simpl. by rewrite app_nil_r.
  - rewrite IH. simpl. by rewrite <- !app_assoc.
Qed.

Lemma rejectAllPending_eq error w :
  rejectAllPending error w
  = {| client := setPending [] (client w); now := now w; sockets := sockets w;
       timers := clearTimers (timers w) (pending (client w)); fresh := fresh w;
       aborted := aborted w; abortListeners := abortListeners w;
       trace := trace w ++ flat_map (rejectionOf error) (pending (client w)) |}.
Proof. unfold rejectAllPending. by rewrite foldl_rejectEntry. Qed.

Lemma clearTimers_lookup timers entries id :
  clearTimers timers entries !! id
  = if bool_decide (id ∈ List.map (fun entry => timeout entry.2) entries)
    then None else timers !! id.
Proof.
  revert timers. induction entries as [|entry entries IH]; intros timers; [done|].
  change (clearTimers timers (entry :: entries))
    with (clearTimers (delete (timeout entry.2) timers) entries).
  rewrite IH. simpl List.map.
  destruct (decide (id = timeout entry.2)) as [->|Hne].
  - rewrite lookup_delete_eq.
    rewrite (bool_decide_eq_true_2 (_ ∈ _ :: _)) by apply list_elem_of_here.
    by case_bool_decide.
  - rewrite lookup_delete_ne by done.
    rewrite (bool_decide_ext (id ∈ _ :: _)
               (id ∈ List.map (fun entry => timeout entry.2) entries)); [done|].
    rewrite elem_of_cons. naive_solver.
Qed.

Lemma scheduled_app l l' : scheduled (l ++ l') = (scheduled l + scheduled l')%nat.
Proof. unfold scheduled. by rewrite List.filter_app, length_app. Qed.

Lemma settled_app p l l' : settled p (l ++ l') = (settled p l + settled p l')%nat.
Proof. unfold settled. by rewrite List.filter_app, length_app. Qed.

Lemma scheduled_rejections error entries :
  scheduled (flat_map (rejectionOf error) entries) = 0%nat.
Proof. induction entries as [|entry entries IH]; [done|]. simpl. apply IH. Qed.

(** Operations on the insertion-ordered map *)

Lemma mapGet_mapDelete {A} key (m : list (jsstring * A)) :
  mapGet key (mapDelete key m) = None.
Proof.
  induction m as [|[k v] m IH]; [done|]. simpl.
  destruct (strictEq k key) eqn:E; [done|]. simpl. by rewrite E.
Qed.

Lemma mapGet_mapDelete_ne {A} key key' (m : list (jsstring * A)) :
  key ≠ key' -> mapGet key' (mapDelete key m) = mapGet key' m.
Proof.
  intros Hne. induction m as [|[k v] m IH]; [done|]. simpl.
  destruct (strictEq k key) eqn:E; simpl.
  - apply bool_decide_eq_true in E as ->.
    assert (strictEq key key' = false) as -> by by apply bool_decide_eq_false_2.
    apply IH.
  - by rewrite IH.
Qed.

Lemma elem_of_mapDelete {A} key (m : list (jsstring * A)) k v :
  (k, v) ∈ mapDelete key m <-> (k, v) ∈ m ∧ k ≠ key.
Proof.
  induction m as [|[k' v'] m IH]; simpl.
  - split; [by intros ?%elem_of_nil|by intros [?%elem_of_nil _]].
  - destruct (strictEq k' key) eqn:E.
    + apply bool_decide_eq_true in E as ->. rewrite IH, elem_of_cons.
      split; [naive_solver|]. intros [[[= -> ->]|?] ?]; done.
    + apply bool_decide_eq_false in E. rewrite !elem_of_cons, IH.
      split; [|naive_solver]. intros [[= -> ->]|[? ?]]; naive_solver.
Qed.

(** *** The invariant of the timers

    Timer handles are below [fresh]; the only reconnect timer that can
    be set is the one the client holds, and the one it holds is set;
    every pending action has its own timeout timer set, and the promises
    of the pending actions differ. *)
Record Inv (w : World) : Prop := {
  inv_fresh : forall id t, timers w !! id = Some t -> (id < fresh w)%nat;
  inv_one : forall id t,
    timers w !! id = Some t -> callback t = Reconnect ->
    reconnectTimer (client w) = Some id;
  inv_held : forall id,
    reconnectTimer (client w) = Some id ->
    exists t, timers w !! id = Some t ∧ callback t = Reconnect;
  inv_pending : forall echo entry,
    (echo, entry) ∈ pending (client w) ->
    exists t act, timers w !! timeout entry = Some t
                  ∧ callback t = ActionTimeout echo act (promise entry);
  inv_promise : forall id t echo act p,
    timers w !! id = Some t -> callback t = ActionTimeout echo act p ->
    (p < fresh w)%nat;
  inv_nodup : NoDup (List.map (fun entry => promise entry.2) (pending (client w)));
}.

(** A change that leaves the timers, the held timer and the pending
    actions alone, and does not lower [fresh], keeps the invariant. *)
Lemma Inv_same w w' :
  timers w' = timers w -> (fresh w <= fresh w')%nat ->
  reconnectTimer (client w') = reconnectTimer (client w) ->
  pending (client w') = pending (client w) ->
  Inv w -> Inv w'.
Proof.
  intros Ht Hf Hr Hp [H1 H2 H3 H4 H5 H6].
  constructor; rewrite ?Ht, ?Hr, ?Hp; try done.
  - intros id t Hid. specialize (H1 id t Hid). lia.
  - intros id t echo act p Hid Hcb. specialize (H5 id t echo act p Hid Hcb). lia.
Qed.

Lemma timeout_not_held w echo entry id :
  Inv w -> (echo, entry) ∈ pending (client w) ->
  reconnectTimer (client w) = Some id -> timeout entry ≠ id.
Proof.
  intros [_ _ Hh Hp _ _] Hin Hr Heq.
  destruct (Hp _ _ Hin) as (t & act & Ht & Hcb).
  destruct (Hh _ Hr) as (t' & Ht' & Hcb'). congruence.
Qed.

Lemma Inv_rejectAllPending error w : Inv w -> Inv (rejectAllPending error w).
Proof.
  intros HI. pose proof HI as [H1 H2 H3 H4 H5 H6].
  rewrite rejectAllPending_eq. constructor; simpl.
  - intros id t. rewrite clearTimers_lookup. case_bool_decide; [done|]. apply H1.
  - intros id t. rewrite clearTimers_lookup. case_bool_decide; [done|]. apply H2.
  - intros id Hr. destruct (H3 id Hr) as (t & Ht & Hcb). exists t. split; [|done].
    rewrite clearTimers_lookup. case_bool_decide as Hin; [|done].
    apply list_elem_of_fmap in Hin as ([echo entry] & Heq & Hin). simpl in Heq.
    by destruct (timeout_not_held w echo entry id HI Hin Hr).
  - intros echo entry Hin. by apply elem_of_nil in Hin.
  - intros id t echo act p. rewrite clearTimers_lookup.
    case_bool_decide; [done|]. apply H5.
  - constructor.
Qed.

Lemma Inv_clearReconnectTimer w : Inv w -> Inv (clearReconnectTimer w).
Proof.
  intros HI. pose proof HI as [H1 H2 H3 H4 H5 H6].
  unfold clearReconnectTimer.
  destruct (reconnectTimer (client w)) as [id|] eqn:Hr; [|done].
  constructor; simpl.
  - intros id' t Hid. apply lookup_delete_Some in Hid as [_ Hid]. by eapply H1.
  - intros id' t Hid Hcb. apply lookup_delete_Some in Hid as [Hne Hid].
    specialize (H2 _ _ Hid Hcb). congruence.
  - done.
  - intros echo entry Hin. destruct (H4 _ _ Hin) as (t & act & Ht & Hcb).
    exists t, act. split; [|done]. rewrite lookup_delete_ne; [done|].
    intros Heq. by destruct (timeout_not_held w echo entry id HI Hin Hr).
  - intros id' t echo act p Hid. apply lookup_delete_Some in Hid as [_ Hid].
    by eapply H5.
  - done.
Qed.

Lemma Inv_scheduleReconnect w : Inv w -> Inv (scheduleReconnect w).
Proof.
  intros HI. pose proof HI as [H1 H2 H3 H4 H5 H6].
  unfold scheduleReconnect.
  destruct (bool_decide _ || _) eqn:E; [done|].
  apply orb_false_iff in E as [Hr%bool_decide_eq_false _].
  assert (reconnectTimer (client w) = None) as Hnone.
  { destruct (reconnectTimer (client w)); [|done]. by destruct Hr. }
  assert (timers w !! fresh w = None) as Hfresh.
  { destruct (timers w !! fresh w) as [t|] eqn:E; [|done].
    specialize (H1 _ _ E). lia. }
  constructor; simpl.
  - intros id t Hid. apply lookup_insert_Some in Hid as [[<- _]|[_ Hid]]; [lia|].
    specialize (H1 _ _ Hid). lia.
  - intros id t Hid Hcb. apply lookup_insert_Some in Hid as [[<- _]|[_ Hid]]; [done|].
    specialize (H2 _ _ Hid Hcb). congruence.
  - intros id [= <-]. eexists. split; [apply lookup_insert_eq|done].
  - intros echo entry Hin. destruct (H4 _ _ Hin) as (t & act & Ht & Hcb).
    exists t, act. split; [|done]. rewrite lookup_insert_ne; [done|]. congruence.
  - intros id t echo act p Hid Hcb.
    apply lookup_insert_Some in Hid as [[<- <-]|[_ Hid]]; [done|].
    specialize (H5 _ _ _ _ _ Hid Hcb). lia.
  - done.
Qed.

Lemma mapGet_elem {A} key (m : list (jsstring * A)) v :
  mapGet key m = Some v -> (key, v) ∈ m.
Proof.
  induction m as [|[k v'] m IH]; [done|]. simpl.
  destruct (strictEq k key) eqn:E.
  - apply bool_decide_eq_true in E as ->. intros [= ->]. apply list_elem_of_here.
  - intros H. by apply list_elem_of_further, IH.
Qed.

Lemma elem_of_mapSet {A} key (value : A) m k v :
  (k, v) ∈ mapSet key value m -> (k, v) = (key, value) ∨ (k, v) ∈ m.
Proof.
  induction m as [|[k' v'] m IH]; simpl.
  - intros [?|?%elem_of_nil]%elem_of_cons; [by left|done].
  - destruct (strictEq k' key) eqn:E.
    + apply bool_decide_eq_true in E as ->.
      intros [?|?]%elem_of_cons; [by left|]. right. by apply list_elem_of_further.
    + intros [?|?]%elem_of_cons.
      * right. rewrite H. apply list_elem_of_here.
      * destruct (IH H) as [?|?]; [by left|]. right. by apply list_elem_of_further.
Qed.

Lemma NoDup_mapDelete {A B} (f : jsstring * A -> B) key m :
  NoDup (List.map f m) -> NoDup (List.map f (mapDelete key m)).
Proof.
  induction m as [|[k v] m IH]; [done|]. simpl.
  intros [Hn Hm]%NoDup_cons. destruct (strictEq k key); [by apply IH|].
  simpl. apply NoDup_cons. split; [|by apply IH].
  intros ([k' v'] & Heq & [Hin _]%elem_of_mapDelete)%list_elem_of_fmap.
  apply Hn, list_elem_of_fmap. by exists (k', v').
Qed.

Lemma NoDup_mapSet {A B} (f : A -> B) key value (m : list (jsstring * A)) :
  NoDup (List.map (fun e => f e.2) m) ->
  f value ∉ List.map (fun e => f e.2) m ->
  NoDup (List.map (fun e => f e.2) (mapSet key value m)).
Proof.
  induction m as [|[k v] m IH]; simpl.
  - intros _ _. apply NoDup_singleton.
  - intros [Hn Hm]%NoDup_cons [Hne Hnin]%not_elem_of_cons.
    destruct (strictEq k key); simpl; apply NoDup_cons.
    + done.
    + split; [|by apply IH].
      intros ([k' v'] & Heq & Hin)%list_elem_of_fmap. simpl in Heq.
      apply elem_of_mapSet in Hin as [[= -> ->]|Hin]; [congruence|].
      apply Hn, list_elem_of_fmap. by exists (k', v').
Qed.

Lemma Inv_closeSocket w : Inv w -> Inv (closeSocket w).
Proof.
  unfold closeSocket. destruct (ws (client w)); [|done]. by apply Inv_same.
Qed.

Lemma Inv_stop w : Inv w -> Inv (stop w).
Proof.
  intros HI. unfold stop.
  apply Inv_rejectAllPending, Inv_closeSocket, Inv_clearReconnectTimer.
  by apply (Inv_same w).
Qed.

Lemma pending_promise_fresh w echo entry :
  Inv w -> (echo, entry) ∈ pending (client w) ->
  (promise entry < fresh w)%nat ∧ (timeout entry < fresh w)%nat.
Proof.
  intros [H1 _ _ H4 H5 _] Hin. destruct (H4 _ _ Hin) as (t & act & Ht & Hcb).
  split; [by eapply H5|by eapply H1].
Qed.

Lemma Inv_sendAction act params options sendThrows w :
  Inv w -> Inv (sendAction act params options sendThrows w).2.
Proof.
  intros HI. pose proof HI as [H1 H2 H3 H4 H5 H6]. unfold sendAction. simpl.
  destruct (ws (client w)) as [s|] eqn:Hws; simpl;
    [|apply (Inv_same w); simpl; try done; lia].
  destruct (isOpen _); simpl; [|apply (Inv_same w); simpl; try done; lia].
  set (echo := echoToken (now w) (actionCounter (client w))).
  set (entry := {| promise := fresh w; timeout := S (fresh w) |}).
  assert (forall k e, (k, e) ∈ pending (client w) ->
            (promise e < fresh w)%nat ∧ (timeout e < fresh w)%nat) as Hold.
  { intros k e. by apply pending_promise_fresh. }
  assert (NoDup (List.map (fun e => promise e.2)
                   (mapSet echo entry (pending (client w))))) as Hnodup.
  { apply (NoDup_mapSet promise); [done|]. simpl.
    intros ([k e] & Heq & Hin)%list_elem_of_fmap. simpl in Heq.
    destruct (Hold _ _ Hin). lia. }
  destruct sendThrows as [err|]; simpl.
  - constructor; simpl.
    + intros id t [Hne Hid]%lookup_delete_Some.
      apply lookup_insert_Some in Hid as [[? _]|[_ Hid]]; [done|].
      specialize (H1 _ _ Hid). lia.
    + intros id t [Hne Hid]%lookup_delete_Some Hcb.
      apply lookup_insert_Some in Hid as [[? _]|[_ Hid]]; [done|]. by eapply H2.
    + intros id Hr. destruct (H3 _ Hr) as (t & Ht & Hcb). exists t. split; [|done].
      specialize (H1 _ _ Ht).
      rewrite lookup_delete_ne, lookup_insert_ne by lia. done.
    + intros k e [Hin Hne]%elem_of_mapDelete.
      apply elem_of_mapSet in Hin as [[= -> ->]|Hin]; [done|].
      destruct (H4 _ _ Hin) as (t & a & Ht & Hcb). exists t, a. split; [|done].
      destruct (Hold _ _ Hin).
      rewrite lookup_delete_ne, lookup_insert_ne by lia. done.
    + intros id t k a p [Hne Hid]%lookup_delete_Some Hcb.
      apply lookup_insert_Some in Hid as [[? _]|[_ Hid]]; [done|].
      specialize (H5 _ _ _ _ _ Hid Hcb). lia.
    + by apply NoDup_mapDelete.
  - constructor; simpl.
    + intros id t Hid.
      apply lookup_insert_Some in Hid as [[<- _]|[_ Hid]]; [lia|].
      specialize (H1 _ _ Hid). lia.
    + intros id t Hid Hcb.
      apply lookup_insert_Some in Hid as [[_ <-]|[_ Hid]]; [done|]. by eapply H2.
    + intros id Hr. destruct (H3 _ Hr) as (t & Ht & Hcb). exists t. split; [|done].
      specialize (H1 _ _ Ht). rewrite lookup_insert_ne by lia. done.
    + intros k e Hin.
      apply elem_of_mapSet in Hin as [[= -> ->]|Hin].
      * eexists _, act. split; [apply lookup_insert_eq|done].
      * destruct (H4 _ _ Hin) as (t & a & Ht & Hcb). exists t, a. split; [|done].
        destruct (Hold _ _ Hin). rewrite lookup_insert_ne by lia. done.
    + intros id t k a p Hid Hcb.
      apply lookup_insert_Some in Hid as [[_ <-]|[_ Hid]].
      * simpl in Hcb. injection Hcb as _ _ <-. lia.
      * specialize (H5 _ _ _ _ _ Hid Hcb). lia.
    + done.
Qed.

Lemma Inv_remove w echo id :
  Inv w ->
  (exists t act p, timers w !! id = Some t ∧ callback t = ActionTimeout echo act p) ->
  Inv (updClient (fun c => setPending (mapDelete echo (pending c)) c)
         (setTimers (delete id (timers w)) w)).
Proof.
  intros HI (t0 & act0 & p0 & Ht0 & Hcb0). pose proof HI as [H1 H2 H3 H4 H5 H6].
  constructor; simpl.
  - intros id' t [_ Hid]%lookup_delete_Some. by eapply H1.
  - intros id' t [_ Hid]%lookup_delete_Some. by eapply H2.
  - intros id' Hr. destruct (H3 _ Hr) as (t & Ht & Hcb). exists t. split; [|done].
    rewrite lookup_delete_ne; [done|]. congruence.
  - intros k e [Hin Hne]%elem_of_mapDelete.
    destruct (H4 _ _ Hin) as (t & a & Ht & Hcb). exists t, a. split; [|done].
    rewrite lookup_delete_ne; [done|]. congruence.
  - intros id' t k a p [_ Hid]%lookup_delete_Some. by eapply H5.
  - by apply NoDup_mapDelete.
Qed.

Lemma Inv_handlePayload payload w : Inv w -> Inv (handlePayload payload w).
Proof.
  intros HI. unfold handlePayload.
  assert (Inv
    match stringProp payload "status", stringProp payload "echo" with
    | Some _, Some echo =>
        match mapGet echo (pending (client w)) with
        | Some entry =>
            emit (Resolve (promise entry) payload)
              (updClient (fun c => setPending (mapDelete echo (pending c)) c)
                 (clearTimeout (timeout entry) w))
        | None => w
        end
    | _, _ =>
        match stringProp payload "type", stringProp payload "detail_type" with
        | Some _, Some _ => emit (OnEvent payload) w
        | _, _ => w
        end
    end) as Hobj.
  { destruct (stringProp payload "status"), (stringProp payload "echo") as [echo|];
      try (repeat case_match; done || by apply (Inv_same w)).
    destruct (mapGet echo (pending (client w))) as [entry|] eqn:E; [|done].
    apply mapGet_elem in E. destruct (inv_pending w HI _ _ E) as (t & act & Ht & Hcb).
    apply (Inv_same (updClient (fun c => setPending (mapDelete echo (pending c)) c)
                       (setTimers (delete (timeout entry) (timers w)) w))); try done.
    apply Inv_remove; [done|]. by exists t, act, (promise entry). }
  by destruct payload.
Qed.

Lemma Inv_onMessage frame w : Inv w -> Inv (onMessage frame w).
Proof.
  destruct frame; simpl; [by apply Inv_same|apply Inv_handlePayload].
Qed.

Lemma settled_rejections_none error entries p :
  p ∉ List.map (fun entry => promise entry.2) entries ->
  settled p (flat_map (rejectionOf error) entries) = 0%nat.
Proof.
  induction entries as [|entry entries IH]; [done|].
  simpl List.map. intros [Hne Hnin]%not_elem_of_cons.
  unfold settled in *. simpl. rewrite bool_decide_eq_false_2 by done. by apply IH.
Qed.

(** Each pending action is rejected once by [rejectAllPending]. *)
Lemma settled_rejections error entries echo entry :
  NoDup (List.map (fun entry => promise entry.2) entries) ->
  (echo, entry) ∈ entries ->
  settled (promise entry) (flat_map (rejectionOf error) entries) = 1%nat
  ∧ ClearTimeout (timeout entry) ∈ flat_map (rejectionOf error) entries
  ∧ Reject (promise entry) error ∈ flat_map (rejectionOf error) entries.
Proof.
  induction entries as [|e entries IH]; [by intros _ ?%elem_of_nil|].
  simpl List.map. intros [Hn Hm]%NoDup_cons [<-|Hin]%elem_of_cons.
  - split; [|split].
    + change (flat_map (rejectionOf error) ((echo, entry) :: entries))
        with (rejectionOf error (echo, entry) ++ flat_map (rejectionOf error) entries).
      rewrite settled_app, settled_rejections_none by done.
      unfold settled. simpl. by rewrite bool_decide_eq_true_2.
    + simpl. apply list_elem_of_here.
    + simpl. apply list_elem_of_further, list_elem_of_here.
  - destruct (IH Hm Hin) as (H1 & H2 & H3). split; [|split].
    + change (flat_map (rejectionOf error) (e :: entries))
        with (rejectionOf error e ++ flat_map (rejectionOf error) entries).
      rewrite settled_app, H1. unfold settled. simpl.
      rewrite bool_decide_eq_false_2; [done|].
      intros Heq. apply Hn, list_elem_of_fmap. exists (echo, entry). by split.
    + simpl. by do 2 apply list_elem_of_further.
    + simpl. by do 2 apply list_elem_of_further.
Qed.

(** A change that keeps a stopped client stopped, does not give it a
    reconnect timer, and schedules no reconnect. *)
Definition quiet (w w' : World) : Prop :=
  stopped (client w') = true
  ∧ (reconnectTimer (client w) = None -> reconnectTimer (client w') = None)
  ∧ scheduled (trace w') = scheduled (trace w).

Lemma quiet_refl w : stopped (client w) = true -> quiet w w.
Proof. by intros H. Qed.

Lemma quiet_trans w1 w2 w3 : quiet w1 w2 -> quiet w2 w3 -> quiet w1 w3.
Proof.
  intros (H1 & H2 & H3) (H4 & H5 & H6). split; [done|]. split; [auto|congruence].
Qed.

Lemma scheduled_snoc l e :
  scheduled (l ++ [e]) = (scheduled l + if isReconnectSet e then 1 else 0)%nat.
Proof. rewrite scheduled_app. unfold scheduled. simpl. by destruct (isReconnectSet e). Qed.

Lemma quiet_rejectAllPending error w :
  stopped (client w) = true -> quiet w (rejectAllPending error w).
Proof.
  intros H. rewrite rejectAllPending_eq. repeat split; simpl; try done.
  rewrite scheduled_app, scheduled_rejections. lia.
Qed.

Lemma quiet_stop w : quiet w (stop w) ∧ reconnectTimer (client (stop w)) = None.
Proof.
  unfold stop. rewrite rejectAllPending_eq. unfold quiet. simpl.
  rewrite scheduled_app, scheduled_rejections, Nat.add_0_r.
  unfold closeSocket, clearReconnectTimer. simpl.
  destruct (reconnectTimer (client w)) eqn:Hr; simpl;
    destruct (ws (client w)) eqn:Hw; simpl; rewrite ?Hr, ?Hw; simpl;
    rewrite ?scheduled_snoc; simpl; repeat split; try done; lia.
Qed.

Lemma quiet_sendAction act params options sendThrows w :
  stopped (client w) = true ->
  quiet w (sendAction act params options sendThrows w).2.
Proof.
  intros H. unfold sendAction. simpl.
  destruct (ws (client w)); simpl.
  - destruct (isOpen _); simpl.
    + destruct sendThrows; unfold quiet; simpl; rewrite ?scheduled_snoc; simpl;
        repeat split; try done; lia.
    + unfold quiet; simpl; rewrite ?scheduled_snoc; simpl; repeat split; try done; lia.
  - unfold quiet; simpl; rewrite ?scheduled_snoc; simpl; repeat split; try done; lia.
Qed.

Lemma quiet_handlePayload payload w :
  stopped (client w) = true -> quiet w (handlePayload payload w).
Proof.
  intros H. unfold handlePayload.
  destruct payload; try done;
    repeat case_match; try done;
    unfold quiet; simpl; rewrite ?scheduled_snoc; simpl; repeat split; try done; lia.
Qed.

(** *** Echo tokens *)

Lemma uintDigits_inj d d' : uintDigits d = uintDigits d' -> d = d'.
Proof.
  revert d'. induction d; intros []; simpl; try done;
    intros [= H]; f_equal; by apply IHd.
Qed.

Lemma decimalN_inj n n' : decimalN n = decimalN n' -> n = n'.
Proof.
  intros H%uintDigits_inj. by apply DecimalN.Unsigned.to_uint_inj.
Qed.

Lemma uintDigits_without d : without 58 (uintDigits d) = true.
Proof. induction d; simpl; done. Qed.

Lemma decimal_without z : without 58 (decimal z) = true.
Proof. destruct z; simpl; first [done|apply uintDigits_without]. Qed.

(** The counter of a token determines it among the tokens. *)
Lemma echoToken_inj time counter time' counter' :
  echoToken time counter = echoToken time' counter' -> counter = counter'.
Proof.
  unfold echoToken. intros H%app_inv_head.
  apply (f_equal (splitFirst 58)) in H.
  change (lit ":" ++ ?x) with (58 :: x) in H.
  rewrite !splitFirst_app in H by apply decimal_without.
  injection H as _ H. by apply decimalN_inj.
Qed.

Lemma mapGet_mapSet_ne {A} key key' (value : A) m :
  key ≠ key' -> mapGet key' (mapSet key value m) = mapGet key' m.
Proof.
  intros Hne. induction m as [|[k v] m IH]; simpl.
  - by rewrite (proj2 (strictEq_false key key')).
  - destruct (strictEq k key) eqn:E; simpl; [|by rewrite IH].
    apply strictEq_true in E as ->. by rewrite (proj2 (strictEq_false key key')).
Qed.

Lemma mapGet_mapSet {A} key (value : A) m :
  mapGet key (mapSet key value m) = Some value.
Proof.
  induction m as [|[k v] m IH]; simpl.
  - by rewrite (proj2 (strictEq_true key key)).
  - destruct (strictEq k key) eqn:E; simpl; by rewrite E.
Qed.

Lemma mapGet_mapDelete_None {A} key key' (m : list (jsstring * A)) :
  mapGet key' m = None -> mapGet key' (mapDelete key m) = None.
Proof.
  induction m as [|[k v] m IH]; [done|]. simpl.
  destruct (strictEq k key') eqn:E; [done|]. intros H.
  destruct (strictEq k key); simpl; rewrite ?E; by apply IH.
Qed.

(** A token that is not pending, of a counter the client has passed. *)
Definition spent (echo : jsstring) (w : World) : Prop :=
  mapGet echo (pending (client w)) = None
  ∧ exists time counter,
      echo = echoToken time counter ∧ counter < actionCounter (client w).

Lemma spent_same echo w w' :
  pending (client w') = pending (client w) ->
  actionCounter (client w') = actionCounter (client w) ->
  spent echo w -> spent echo w'.
Proof. unfold spent. by intros -> ->. Qed.

Lemma spent_rejectAllPending echo error w :
  spent echo w -> spent echo (rejectAllPending error w).
Proof. intros [_ H]. rewrite rejectAllPending_eq. by split. Qed.

Lemma spent_stop echo w : spent echo w -> spent echo (stop w).
Proof.
  intros H. unfold stop. apply spent_rejectAllPending.
  unfold closeSocket, clearReconnectTimer. simpl.
  destruct (reconnectTimer (client w)); simpl;
    destruct (ws (client w)); by apply (spent_same echo w).
Qed.

Lemma spent_sendAction echo act params options sendThrows w :
  spent echo w -> spent echo (sendAction act params options sendThrows w).2.
Proof.
  intros [Hget (time & counter & -> & Hlt)]. unfold sendAction. simpl.
  assert (echoToken (now w) (actionCounter (client w)) ≠ echoToken time counter)
    as Hne by (intros Heq%echoToken_inj; lia).
  destruct (ws (client w)); simpl; [|by split; [|eexists _, _]].
  destruct (isOpen _); simpl; [|by split; [|eexists _, _]].
  destruct sendThrows; simpl; split.
  - apply mapGet_mapDelete_None. etrans; [by apply mapGet_mapSet_ne|done].
  - eexists _, _. split; [done|]. simpl. lia.
  - etrans; [by apply mapGet_mapSet_ne|done].
  - eexists _, _. split; [done|]. simpl. lia.
Qed.

Lemma spent_delete echo echo' w w0 :
  pending (client w) = mapDelete echo' (pending (client w0)) ->
  actionCounter (client w) = actionCounter (client w0) ->
  spent echo w0 -> spent echo w.
Proof.
  intros Hp Hc [Hget H]. unfold spent. rewrite Hp, Hc. split; [|done].
  by apply mapGet_mapDelete_None.
Qed.

Lemma spent_handlePayload echo payload w :
  spent echo w -> spent echo (handlePayload payload w).
Proof.
  intros H. unfold handlePayload.
  destruct payload; try done;
    repeat case_match; try done;
    (by apply (spent_same echo w)) || (by eapply (spent_delete echo _ _ w)).
Qed.

(** *** Timer handles are not used again

    From [w] to [w'] no timer is set under a handle that [w] has given
    out already. *)
Definition grows (w w' : World) : Prop :=
  (fresh w <= fresh w')%nat
  ∧ forall id t, (id < fresh w)%nat ->
      timers w' !! id = Some t -> timers w !! id = Some t.

Lemma grows_refl w : grows w w.
Proof. by split. Qed.

Lemma grows_trans w1 w2 w3 : grows w1 w2 -> grows w2 w3 -> grows w1 w3.
Proof.
  intros [H1 H2] [H3 H4]. split; [lia|].
  intros id t Hid Ht. apply H2; [done|]. apply H4; [lia|done].
Qed.

(** Go back from a timer that is set after a change to the timer before
    it. *)
Ltac timers_back H :=
  repeat first
    [ rewrite lookup_insert_ne in H by lia
    | apply lookup_delete_Some in H; apply proj2 in H
    | rewrite clearTimers_lookup in H;
      match type of H with
      | context [bool_decide ?P] => destruct (bool_decide P); [discriminate H|]
      end ];
  try exact H.

Lemma grows_rejectAllPending error w : grows w (rejectAllPending error w).
Proof.
  rewrite rejectAllPending_eq. split; simpl; [lia|].
  intros id t Hid Hback. timers_back Hback.
Qed.

Lemma grows_stop w : grows w (stop w).
Proof.
  unfold stop. eapply grows_trans; [|apply grows_rejectAllPending].
  unfold closeSocket, clearReconnectTimer. simpl.
  destruct (reconnectTimer (client w)); simpl; destruct (ws (client w));
    (split; simpl; [lia|]; intros id t Hid Hback; timers_back Hback).
Qed.

Lemma grows_sendAction act params options sendThrows w :
  grows w (sendAction act params options sendThrows w).2.
Proof.
  unfold sendAction. simpl.
  destruct (ws (client w)); simpl; [|by split; simpl; [lia|]].
  destruct (isOpen _); simpl; [|by split; simpl; [lia|]].
  destruct sendThrows; (split; simpl; [lia|]; intros id t Hid Hback; timers_back Hback).
Qed.

Lemma grows_handlePayload payload w : grows w (handlePayload payload w).
Proof.
  unfold handlePayload.
  destruct payload; try apply grows_refl;
    repeat case_match; try apply grows_refl;
    (split; simpl; [lia|]; intros id t Hid Hback; timers_back Hback).
Qed.

Lemma grows_scheduleReconnect w : grows w (scheduleReconnect w).
Proof.
  unfold scheduleReconnect. destruct (_ || _); [apply grows_refl|].
  split; simpl; [lia|]. intros id t Hid Hback. timers_back Hback.
Qed.

Section Platform.

Context (api : UrlApi) (webSocketThrows : jsstring -> option jsstring).

Lemma Inv_connect w : Inv w -> Inv (connect api webSocketThrows w).
Proof.
  intros HI. unfold connect. destruct (stopped (client w)); [done|].
  destruct (webSocketThrows _); [by apply (Inv_same w)|]. simpl.
  destruct (hasAbortSignal (client w) && negb (aborted w));
    apply (Inv_same w); simpl; try done; lia.
Qed.

Lemma Inv_start w : Inv w -> Inv (start api webSocketThrows w).
Proof.
  intros HI. unfold start. destruct (_ && _); [by apply (Inv_same w)|].
  by apply Inv_connect.
Qed.

Lemma Inv_onSocketClose code reason w : Inv w -> Inv (onSocketClose code reason w).
Proof.
  intros HI. unfold onSocketClose.
  set (w1 := rejectAllPending _ _).
  assert (Inv w1) as H1 by by apply Inv_rejectAllPending, (Inv_same w).
  destruct (negb (stopped (client w1))); [by apply Inv_scheduleReconnect|done].
Qed.

Lemma Inv_runTimer id t w :
  Inv w -> timers w !! id = Some t ->
  Inv (runTimer api webSocketThrows (callback t) (setTimers (delete id (timers w)) w)).
Proof.
  intros HI Ht. destruct (callback t) as [echo act p|] eqn:Hcb; simpl.
  - apply (Inv_same (updClient (fun c => setPending (mapDelete echo (pending c)) c)
                       (setTimers (delete id (timers w)) w))); try done.
    apply Inv_remove; [done|]. by exists t, act, p.
  - apply Inv_connect.
    pose proof (Inv_clearReconnectTimer w HI) as Hc. unfold clearReconnectTimer in Hc.
    rewrite (inv_one w HI id t Ht Hcb) in Hc.
    by apply (Inv_same (updClient (setReconnectTimer None) (clearTimeout id w))).
Qed.

Lemma Inv_step w i w' : Inv w -> step api webSocketThrows w i = Some w' -> Inv w'.
Proof.
  intros HI. destruct i; simpl.
  - intros [= <-]. by apply Inv_start.
  - intros [= <-]. by apply Inv_stop.
  - intros [= <-]. by apply (Inv_same w).
  - intros [= <-]. by apply Inv_sendAction.
  - destruct (_ && _); [|done]. intros [= <-].
    induction (abortListeners w) as [|n IH]; simpl.
    + by apply (Inv_same w).
    + by apply Inv_stop.
  - destruct (sockets w !! socket) as [[]|]; try done. intros [= <-].
    by apply (Inv_same w).
  - destruct (sockets w !! socket) as [[]|]; try done; intros [= <-];
      by apply Inv_onMessage.
  - destruct (sockets w !! socket) as [[]|]; try done; intros [= <-];
      by apply (Inv_same w).
  - destruct (sockets w !! socket) as [[]|]; try done; intros [= <-];
      by apply Inv_onSocketClose, (Inv_same w).
  - destruct (timers w !! timer) as [t|] eqn:Ht; [|done].
    destruct (due t <=? now w)%Z; [|done]. intros [= <-]. by apply Inv_runTimer.
  - destruct (0 <=? ms)%Z; [|done]. intros [= <-]. by apply (Inv_same w).
Qed.

Lemma Inv_initial options time : Inv (initial options time).
Proof.
  constructor; simpl; try done.
  - intros echo entry Hin. by apply elem_of_nil in Hin.
  - constructor.
Qed.

Lemma Inv_run w inputs w' :
  Inv w -> run api webSocketThrows w inputs = Some w' -> Inv w'.
Proof.
  revert w. induction inputs as [|i inputs IH]; intros w HI; simpl.
  - by intros [= <-].
  - destruct (step api webSocketThrows w i) as [w1|] eqn:E; [|done].
    apply IH. by eapply Inv_step.
Qed.

(** The worlds a client can be in: those a run of the event loop leads
    to from a new client. *)
Definition reachable (w : World) : Prop :=
  exists options time inputs,
    run api webSocketThrows (initial options time) inputs = Some w.

Lemma Inv_reachable w : reachable w -> Inv w.
Proof.
  intros (options & time & inputs & Hrun).
  eapply Inv_run; [apply Inv_initial|done].
Qed.

Lemma quiet_connect w :
  stopped (client w) = true -> quiet w (connect api webSocketThrows w).
Proof. intros H. unfold connect. by rewrite H. Qed.

Lemma quiet_onSocketClose code reason w :
  stopped (client w) = true -> quiet w (onSocketClose code reason w).
Proof.
  intros H. unfold onSocketClose. rewrite rejectAllPending_eq. simpl. rewrite H.
  simpl. unfold quiet. simpl.
  rewrite scheduled_app, scheduled_rejections, !scheduled_snoc. simpl.
  repeat split; try done; lia.
Qed.

Lemma quiet_step w i w' :
  stopped (client w) = true -> step api webSocketThrows w i = Some w' -> quiet w w'.
Proof.
  intros H. destruct i; simpl.
  - intros [= <-]. unfold start. destruct (_ && _); [done|]. by apply quiet_connect.
  - intros [= <-]. apply quiet_stop.
  - by intros [= <-].
  - intros [= <-]. by apply quiet_sendAction.
  - destruct (_ && _); [|done]. intros [= <-].
    induction (abortListeners w) as [|n IH]; simpl; [done|].
    eapply quiet_trans; [apply IH|apply quiet_stop].
  - destruct (sockets w !! socket) as [[]|]; try done. intros [= <-].
    unfold quiet. simpl. rewrite !scheduled_snoc. simpl. repeat split; try done; lia.
  - destruct (sockets w !! socket) as [[]|]; try done; intros [= <-];
      (destruct frame; simpl;
       [unfold quiet; simpl; rewrite !scheduled_snoc; simpl; repeat split; try done; lia
       |by apply quiet_handlePayload]).
  - destruct (sockets w !! socket) as [[]|]; try done; intros [= <-];
      unfold quiet; simpl; rewrite !scheduled_snoc; simpl; repeat split; try done; lia.
  - destruct (sockets w !! socket) as [[]|]; try done; intros [= <-];
      by apply (quiet_onSocketClose code reason
                  (setSockets (<[socket:=CLOSED]> (sockets w)) w)).
  - destruct (timers w !! timer) as [t|] eqn:Ht; [|done].
    destruct (due t <=? now w)%Z; [|done]. intros [= <-].
    destruct (callback t); simpl.
    + unfold quiet. simpl. rewrite !scheduled_snoc. simpl. repeat split; try done; lia.
    + unfold connect. simpl. by rewrite H.
  - destruct (0 <=? ms)%Z; [|done]. by intros [= <-].
Qed.

Lemma quiet_run w inputs w' :
  stopped (client w) = true -> run api webSocketThrows w inputs = Some w' ->
  quiet w w'.
Proof.
  revert w. induction inputs as [|i inputs IH]; intros w H; simpl.
  - by intros [= <-].
  - destruct (step api webSocketThrows w i) as [w1|] eqn:E; [|done]. intros Hrun.
    pose proof (quiet_step _ _ _ H E) as Hq.
    eapply quiet_trans; [done|]. apply IH; [apply Hq|done].
Qed.

Lemma grows_connect w : grows w (connect api webSocketThrows w).
Proof.
  unfold connect. destruct (stopped (client w)); [apply grows_refl|].
  destruct (webSocketThrows _); simpl; [by split|].
  destruct (_ && _); (split; simpl; [lia|done]).
Qed.

Lemma grows_step w i w' : step api webSocketThrows w i = Some w' -> grows w w'.
Proof.
  destruct i; simpl.
  - intros [= <-]. unfold start. destruct (_ && _); [by split|apply grows_connect].
  - intros [= <-]. apply grows_stop.
  - by intros [= <-].
  - intros [= <-]. apply grows_sendAction.
  - destruct (_ && _); [|done]. intros [= <-].
    induction (abortListeners w) as [|n IH]; simpl; [by split|].
    eapply grows_trans; [apply IH|apply grows_stop].
  - destruct (sockets w !! socket) as [[]|]; try done. by intros [= <-].
  - destruct (sockets w !! socket) as [[]|]; try done; intros [= <-];
      (destruct frame; simpl; [by split|apply grows_handlePayload]).
  - destruct (sockets w !! socket) as [[]|]; try done; by intros [= <-].
  - destruct (sockets w !! socket) as [[]|]; try done; intros [= <-];
      unfold onSocketClose;
      (eapply grows_trans;
       [|destruct (negb _); [apply grows_scheduleReconnect|apply grows_refl]]);
      (eapply grows_trans; [|apply grows_rejectAllPending]); by split.
  - destruct (timers w !! timer) as [t0|] eqn:Ht; [|done].
    destruct (due t0 <=? now w)%Z; [|done]. intros [= <-].
    destruct (callback t0); simpl.
    + split; simpl; [lia|]. intros id t Hid Hback. timers_back Hback.
    + eapply grows_trans; [|apply grows_connect].
      split; simpl; [lia|]. intros id t Hid Hback. timers_back Hback.
  - destruct (0 <=? ms)%Z; [|done]. by intros [= <-].
Qed.

Lemma grows_run w inputs w' :
  run api webSocketThrows w inputs = Some w' -> grows w w'.
Proof.
  revert w. induction inputs as [|i inputs IH]; intros w; simpl.
  - intros [= <-]. apply grows_refl.
  - destruct (step api webSocketThrows w i) as [w1|] eqn:E; [|done]. intros Hrun.
    eapply grows_trans; [by eapply grows_step|by apply IH].
Qed.

Lemma spent_step echo w i w' :
  spent echo w -> step api webSocketThrows w i = Some w' -> spent echo w'.
Proof.
  intros H. destruct i; simpl.
  - intros [= <-]. unfold start, connect.
    repeat case_match; by apply (spent_same echo w).
  - intros [= <-]. by apply spent_stop.
  - intros [= <-]. by apply (spent_same echo w).
  - intros [= <-]. by apply spent_sendAction.
  - destruct (_ && _); [|done]. intros [= <-].
    induction (abortListeners w) as [|n IH]; simpl;
      [by apply (spent_same echo w)|by apply spent_stop].
  - destruct (sockets w !! socket) as [[]|]; try done. intros [= <-].
    by apply (spent_same echo w).
  - destruct (sockets w !! socket) as [[]|]; try done; intros [= <-];
      (destruct frame; simpl;
       [by apply (spent_same echo w)|by apply spent_handlePayload]).
  - destruct (sockets w !! socket) as [[]|]; try done; intros [= <-];
      by apply (spent_same echo w).
  - destruct (sockets w !! socket) as [[]|]; try done; intros [= <-];
      unfold onSocketClose, scheduleReconnect; rewrite rejectAllPending_eq; simpl;
      repeat case_match; destruct H as [_ H]; by split.
  - destruct (timers w !! timer) as [t0|] eqn:Ht; [|done].
    destruct (due t0 <=? now w)%Z; [|done]. intros [= <-].
    destruct (callback t0); simpl.
    + by eapply (spent_delete echo _ _ w).
    + unfold connect. simpl. repeat case_match; by apply (spent_same echo w).
  - destruct (0 <=? ms)%Z; [|done]. intros [= <-]. by apply (spent_same echo w).
Qed.

Lemma spent_run echo w inputs w' :
  spent echo w -> run api webSocketThrows w inputs = Some w' -> spent echo w'.
Proof.
  revert w. induction inputs as [|i inputs IH]; intros w H; simpl.
  - by intros [= <-].
  - destruct (step api webSocketThrows w i) as [w1|] eqn:E; [|done].
    apply IH. by eapply spent_step.
Qed.

Lemma counter_stop w : actionCounter (client (stop w)) = actionCounter (client w).
Proof.
  unfold stop. rewrite rejectAllPending_eq. simpl.
  unfold closeSocket, clearReconnectTimer. simpl.
  destruct (reconnectTimer (client w)); simpl; by destruct (ws (client w)).
Qed.

(** The action counter never goes back. *)
Lemma counter_step w i w' :
  step api webSocketThrows w i = Some w' ->
  actionCounter (client w) <= actionCounter (client w').
Proof.
  destruct i; simpl.
  - intros [= <-]. unfold start, connect. repeat case_match; simpl; lia.
  - intros [= <-]. rewrite counter_stop. lia.
  - intros [= <-]. simpl. lia.
  - intros [= <-]. unfold sendAction. simpl.
    destruct (ws (client w)); simpl; [|lia].
    destruct (isOpen _); simpl; [|lia]. destruct sendThrows; simpl; lia.
  - destruct (_ && _); [|done]. intros [= <-].
    induction (abortListeners w) as [|n IH]; [simpl; lia|].
    rewrite Nat.iter_succ, counter_stop. apply IH.
  - destruct (sockets w !! socket) as [[]|]; try done. intros [= <-]. simpl. lia.
  - destruct (sockets w !! socket) as [[]|]; try done; intros [= <-];
      (destruct frame as [|payload]; simpl; [lia|]);
      unfold handlePayload; destruct payload; try lia;
      repeat case_match; simpl; lia.
  - destruct (sockets w !! socket) as [[]|]; try done; intros [= <-]; simpl; lia.
  - destruct (sockets w !! socket) as [[]|]; try done; intros [= <-];
      unfold onSocketClose, scheduleReconnect; rewrite rejectAllPending_eq; simpl;
      repeat case_match; simpl; lia.
  - destruct (timers w !! timer) as [t0|] eqn:Ht; [|done].
    destruct (due t0 <=? now w)%Z; [|done]. intros [= <-].
    destruct (callback t0); simpl; [lia|].
    unfold connect. simpl. repeat case_match; simpl; lia.
  - destruct (0 <=? ms)%Z; [|done]. intros [= <-]. simpl. lia.
Qed.

Lemma counter_run w inputs w' :
  run api webSocketThrows w inputs = Some w' ->
  actionCounter (client w) <= actionCounter (client w').
Proof.
  revert w. induction inputs as [|i inputs IH]; intros w; simpl.
  - intros [= <-]. lia.
  - destruct (step api webSocketThrows w i) as [w1|] eqn:E; [|done]. intros Hrun.
    etrans; [by eapply counter_step|by apply IH].
Qed.

Lemma run_app w inputs inputs' :
  run api webSocketThrows w (inputs ++ inputs')
  = run api webSocketThrows w inputs ≫= fun w' => run api webSocketThrows w' inputs'.
Proof.
  revert w. induction inputs as [|i inputs IH]; intros w; simpl; [done|].
  destruct (step api webSocketThrows w i); [apply IH|done].
Qed.

(** C4. When a socket of a client that is not stopped closes: every
    pending action is rejected with "OneBot connection closed", once,
    its timeout timer is cleared and no longer set, and no action is
    pending afterwards; exactly one reconnect timer is set afterwards,
    the one the client holds, and the close schedules none when one was
    already set.  After [stop()] no reconnect timer is scheduled or set,
    whatever happens. *)
Theorem close_rejects_pending_and_schedules_one_reconnect
    (w w' : World) (socket : nat) (code : Z) (reason : jsstring) :
  reachable w -> stopped (client w) = false ->
  step api webSocketThrows w (SocketClose socket code reason) = Some w' ->
  let closed := lit "OneBot connection closed" in
  let rejections := flat_map (rejectionOf closed) (pending (client w)) in
  pending (client w') = []
  ∧ trace w'
    = trace w
      ++ [LoggerWarn (lit "onebot: websocket closed (" ++ decimal code ++ lit ") "
                        ++ reason);
          OnClose code reason]
      ++ rejections
      ++ match reconnectTimer (client w) with
         | Some _ => []
         | None => [SetTimeout (fresh w) Reconnect (reconnectDelayMs (client w))]
         end
  ∧ (forall echo entry, (echo, entry) ∈ pending (client w) ->
       settled (promise entry) rejections = 1%nat
       ∧ ClearTimeout (timeout entry) ∈ rejections
       ∧ Reject (promise entry) closed ∈ rejections
       ∧ timers w' !! timeout entry = None)
  ∧ (exists id t,
       reconnectTimer (client w') = Some id
       ∧ timers w' !! id = Some t ∧ callback t = Reconnect
       ∧ forall id' t', timers w' !! id' = Some t' -> callback t' = Reconnect ->
                        id' = id)
  ∧ (is_Some (reconnectTimer (client w)) ->
       reconnectTimer (client w') = reconnectTimer (client w)
       ∧ scheduled (trace w') = scheduled (trace w))
  ∧ (reconnectTimer (client w) = None ->
       scheduled (trace w') = S (scheduled (trace w)))
  ∧ (forall v inputs v',
       reachable v -> run api webSocketThrows (stop v) inputs = Some v' ->
       stopped (client v') = true
       ∧ scheduled (trace v') = scheduled (trace v)
       ∧ forall id t, timers v' !! id = Some t -> callback t ≠ Reconnect).
Proof.
  intros Hreach Hstopped Hstep closed rejections.
  pose proof (Inv_reachable w Hreach) as HI.
  pose proof (Inv_step w _ w' HI Hstep) as HI'.
  simpl in Hstep.
  destruct (sockets w !! socket) as [st|]; [|done].
  assert (w' = onSocketClose code reason (setSockets (<[socket:=CLOSED]> (sockets w)) w))
    as Hw' by (destruct st; congruence).
  clear Hstep. unfold onSocketClose in Hw'. rewrite rejectAllPending_eq in Hw'.
  simpl in Hw'. rewrite Hstopped in Hw'. simpl in Hw'.
  unfold scheduleReconnect in Hw'. simpl in Hw'. rewrite Hstopped, orb_false_r in Hw'.
  fold closed in Hw'. fold rejections in Hw'.
  assert (forall echo entry, (echo, entry) ∈ pending (client w) ->
            timers w' !! timeout entry = None) as Hcleared.
  { intros echo entry Hin.
    destruct (pending_promise_fresh w echo entry HI Hin) as [_ Hlt].
    assert (clearTimers (timers w) (pending (client w)) !! timeout entry = None) as Hc.
    { rewrite clearTimers_lookup, bool_decide_eq_true_2; [done|].
      apply list_elem_of_fmap. by exists (echo, entry). }
    destruct (reconnectTimer (client w)); subst w'; simpl; [done|].
    rewrite lookup_insert_ne by lia. done. }
  split; [|split; [|split; [|split; [|split; [|split]]]]].
  - destruct (reconnectTimer (client w)); by subst w'.
  - destruct (reconnectTimer (client w)); subst w'; simpl;
      rewrite <- ?app_assoc; simpl; by rewrite ?app_nil_r.
  - intros echo entry Hin.
    destruct (settled_rejections closed _ echo entry (inv_nodup w HI) Hin)
      as (H1 & H2 & H3).
    repeat split; try done. by eapply Hcleared.
  - assert (is_Some (reconnectTimer (client w'))) as [id Hid].
    { destruct (reconnectTimer (client w)) eqn:E; subst w'; simpl; by rewrite ?E. }
    destruct (inv_held w' HI' id Hid) as (t & Ht & Hcb).
    exists id, t. repeat split; try done.
    intros id' t' Ht' Hcb'. pose proof (inv_one w' HI' id' t' Ht' Hcb'). congruence.
  - intros [id Hid]. rewrite Hid in Hw'. subst w'. simpl.
    rewrite Hid. split; [done|]. unfold rejections.
    rewrite scheduled_app, scheduled_rejections, !scheduled_snoc. simpl. lia.
  - intros Hnone. rewrite Hnone in Hw'. subst w'. simpl. unfold rejections.
    rewrite scheduled_snoc, scheduled_app, scheduled_rejections, !scheduled_snoc.
    simpl. lia.
  - intros v inputs v' Hv Hrun.
    destruct (quiet_stop v) as [(Hs & _ & Hsch) Hnone].
    destruct (quiet_run _ _ _ Hs Hrun) as (Hs' & Hnone' & Hsch').
    split; [done|]. split; [congruence|].
    intros id t Ht Hcb.
    assert (Inv v') as HIv.
    { eapply Inv_run; [|done]. by apply Inv_stop, Inv_reachable. }
    pose proof (inv_one v' HIv id t Ht Hcb) as Hheld.
    rewrite (Hnone' Hnone) in Hheld. done.
Qed.

(** C5. An action sent on an open socket is pending under its echo
    token, and its timeout is set with [timeoutMs], 10000 by default.
    The timer waits for that many milliseconds when they are a whole
    number from 1 to 2147483647, as the default is; for 1 ms when the
    delay is [NaN], below 1 or above 2147483647; and never longer than
    a delay of 1 ms or more.  Whatever happens next, once that time is up and the action
    is still pending its timer can fire; the timer does not fire before
    the time is up, and when it fires the action is rejected with
    "OneBot action timeout: " and its name, and is no longer pending.
    From then on a response frame with that echo token changes nothing:
    it settles no promise and is no event. *)
Theorem action_timeout (w0 : World) (act : jsstring) (params : option Json)
    (options : option SendActionOptions) :
  reachable w0 ->
  isOpen w0 = true ->
  let p := fresh w0 in
  let id := S (fresh w0) in
  let echo := echoToken (now w0) (actionCounter (client w0)) in
  let delay := default (ofZ 10000) (options ≫= timeoutMs) in
  let wait := timerDelay delay in
  let w1 := (sendAction act params options None w0).2 in
  (sendAction act params options None w0).1 = p
  ∧ mapGet echo (pending (client w1)) = Some {| promise := p; timeout := id |}
  ∧ SetTimeout id (ActionTimeout echo act p) delay ∈ trace w1
  ∧ timers w1 !! id
    = Some {| due := (now w0 + wait)%Z; callback := ActionTimeout echo act p |}
  ∧ (options ≫= timeoutMs = None -> wait = 10000%Z)
  ∧ (forall ms, delay = ofZ ms -> (1 <= ms <= TIMEOUT_MAX)%Z -> wait = ms)
  ∧ (numLe (ofZ 1) delay && numLe delay (ofZ TIMEOUT_MAX) = false -> wait = 1%Z)
  ∧ (forall q, delay = Finite q -> (1 <= q)%Q -> (inject_Z wait <= q)%Q)
  ∧ (forall inputs w2,
       run api webSocketThrows w1 inputs = Some w2 ->
       mapGet echo (pending (client w2)) = Some {| promise := p; timeout := id |} ->
       (now w0 + wait <= now w2)%Z ->
       is_Some (step api webSocketThrows w2 (TimerFires id)))
  ∧ forall inputs w2 w3,
      run api webSocketThrows w1 inputs = Some w2 ->
      step api webSocketThrows w2 (TimerFires id) = Some w3 ->
      (now w0 + wait <= now w2)%Z
      ∧ trace w3 = trace w2 ++ [Reject p (lit "OneBot action timeout: " ++ act)]
      ∧ mapGet echo (pending (client w3)) = None
      ∧ timers w3 !! id = None
      ∧ forall inputs' w4 socket payload status w5,
          run api webSocketThrows w3 inputs' = Some w4 ->
          stringProp payload "status" = Some status ->
          stringProp payload "echo" = Some echo ->
          step api webSocketThrows w4 (SocketMessage socket (GoodJson payload)) = Some w5 ->
          w5 = w4.
Proof.
  intros Hreach Hopen p id echo delay wait w1.
  assert (w1 = emit (WsSend (default 0%nat (ws (client w0)))
                       {| action := act; params := params; echo := echo;
                          requestSelf := match options ≫= selfOverride with
                                         | Some v => Some v
                                         | None => self (client w0)
                                         end |})
                 (updClient (fun c => setPending
                               (mapSet echo {| promise := p; timeout := id |}
                                  (pending c)) c)
                    (setTimeout (ActionTimeout echo act p) delay
                       (updClient (setActionCounter (actionCounter (client w0) + 1))
                          (setFresh (S p) w0))).2)
          ∧ (sendAction act params options None w0).1 = p) as [Hw1 Hp].
  { subst w1. unfold sendAction. simpl.
    assert (isOpen (setFresh (S (fresh w0)) w0) = true) as -> by done.
    unfold isOpen, readyState in Hopen.
    by destruct (ws (client w0)). }
  assert (timers w1 !! id
          = Some {| due := (now w0 + wait)%Z; callback := ActionTimeout echo act p |})
    as Htimer.
  { rewrite Hw1. simpl. apply lookup_insert_eq. }
  split; [done|]. split; [rewrite Hw1; apply mapGet_mapSet|].
  split.
  { rewrite Hw1. simpl. rewrite !elem_of_app, !list_elem_of_singleton. auto. }
  split; [done|].
  split.
  { intros Hnone. subst wait delay. rewrite Hnone. simpl.
    by apply (timerDelay_ofZ 10000). }
  split.
  { intros ms Hms Hrange. subst wait. rewrite Hms. by apply timerDelay_ofZ. }
  split.
  { intros Hout. subst wait. unfold timerDelay. by rewrite Hout. }
  split.
  { intros q Hq Hle. subst wait. rewrite Hq. by apply timerDelay_le. }
  assert (forall inputs w2 t, run api webSocketThrows w1 inputs = Some w2 ->
            timers w2 !! id = Some t ->
            t = {| due := (now w0 + wait)%Z; callback := ActionTimeout echo act p |})
    as Hsame.
  { intros inputs w2 t Hrun Ht. destruct (grows_run _ _ _ Hrun) as [_ Hback].
    apply Hback in Ht; [congruence|]. rewrite Hw1. simpl. lia. }
  split.
  { intros inputs w2 Hrun Hget Hdue.
    assert (Inv w2) as HI.
    { eapply Inv_run; [|done]. by apply Inv_sendAction, Inv_reachable. }
    destruct (inv_pending w2 HI _ _ (mapGet_elem _ _ _ Hget)) as (t & act' & Ht & _).
    simpl in Ht. pose proof (Hsame _ _ _ Hrun Ht) as ->.
    simpl. rewrite Ht. simpl.
    apply Z.leb_le in Hdue. by rewrite Hdue. }
  intros inputs w2 w3 Hrun Hfire.
  simpl in Hfire. destruct (timers w2 !! id) as [t|] eqn:Ht; [|done].
  pose proof (Hsame _ _ _ Hrun Ht) as ->.
  simpl in Hfire. destruct (now w0 + wait <=? now w2)%Z eqn:Hdue; [|done].
  injection Hfire as <-. simpl.
  split; [lia|]. split; [done|].
  split; [apply mapGet_mapDelete|]. split; [apply lookup_delete_eq|].
  intros inputs' w4 socket payload status w5 Hrun' Hstatus Hecho Hstep.
  pose proof (counter_run _ _ _ Hrun) as Hcounter.
  rewrite Hw1 in Hcounter. simpl in Hcounter.
  assert (spent echo w4) as [Hnone _].
  { eapply spent_run; [|done]. split; simpl; [apply mapGet_mapDelete|].
    exists (now w0), (actionCounter (client w0)). split; [done|lia]. }
  simpl in Hstep. destruct (sockets w4 !! socket) as [[]|]; try done;
    injection Hstep as <-; unfold onMessage, handlePayload;
    destruct payload; try done; rewrite Hstatus, Hecho; simpl; by rewrite Hnone.
Qed.

End Platform.

(** *** A session

    A client with the default options is started at time 0 on a
    platform whose [WebSocket] constructor does not throw; its first
    socket opens, and it sends one action. *)

Definition sessionOptions : OneBotClientOptions :=
  {| optWsUrl := lit "ws://127.0.0.1:6700"; optAccessToken := None;
     optReconnectDelayMs := None; optAbortSignal := false |}.

Definition noThrow (url : jsstring) : option jsstring := None.

Definition after (inputs : list Input) : World :=
  default (initial sessionOptions 0)
          (run SimpleUrl.api noThrow (initial sessionOptions 0) inputs).

Definition openWorld : World := after [CallStart; SocketOpen 0].

Definition busyWorld : World :=
  after [CallStart; SocketOpen 0; CallSendAction (lit "send_message") None None None].

Definition closedWorld : World :=
  after [CallStart; SocketOpen 0; CallSendAction (lit "send_message") None None None;
         SocketClose 0 1006 []].

Definition dueWorld : World :=
  after [CallStart; SocketOpen 0; CallSendAction (lit "send_message") None None None;
         Elapse 10000].

Lemma reachable_after inputs :
  is_Some (run SimpleUrl.api noThrow (initial sessionOptions 0) inputs) ->
  reachable SimpleUrl.api noThrow (after inputs).
Proof.
  intros [w H]. exists sessionOptions, 0%Z, inputs. unfold after. by rewrite H.
Defined.

Lemma close_rejects_pending_and_schedules_one_reconnect_witness :
  reachable SimpleUrl.api noThrow busyWorld
  ∧ stopped (client busyWorld) = false
  ∧ step SimpleUrl.api noThrow busyWorld (SocketClose 0 1006 []) = Some closedWorld
  ∧ pending (client closedWorld) = []
  ∧ scheduled (trace closedWorld) = S (scheduled (trace busyWorld)).
Proof.
  assert (reachable SimpleUrl.api noThrow busyWorld) as Hreach
    by (apply reachable_after; vm_compute; eauto).
  assert (stopped (client busyWorld) = false) as Hstopped by (vm_compute; reflexivity).
  assert (step SimpleUrl.api noThrow busyWorld (SocketClose 0 1006 [])
          = Some closedWorld) as Hstep by (vm_compute; reflexivity).
  destruct (close_rejects_pending_and_schedules_one_reconnect
              SimpleUrl.api noThrow busyWorld closedWorld 0%nat 1006%Z []
              Hreach Hstopped Hstep) as (Hpending & _ & _ & _ & _ & Hone & _).
  split; [exact Hreach|]. split; [exact Hstopped|]. split; [exact Hstep|].
  split; [exact Hpending|]. apply Hone. vm_compute. reflexivity.
Defined.

Lemma action_timeout_witness :
  reachable SimpleUrl.api noThrow openWorld
  ∧ isOpen openWorld = true
  ∧ is_Some (step SimpleUrl.api noThrow dueWorld (TimerFires (S (fresh openWorld))))
  ∧ timerDelay (ofZ 2147483648) = 1%Z.
Proof.
  assert (reachable SimpleUrl.api noThrow openWorld) as Hreach
    by (apply reachable_after; vm_compute; eauto).
  assert (isOpen openWorld = true) as Hopen by (vm_compute; reflexivity).
  destruct (action_timeout SimpleUrl.api noThrow openWorld
              (lit "send_message") None None Hreach Hopen)
    as (_ & _ & _ & _ & _ & _ & _ & _ & Hfires & _).
  destruct (action_timeout SimpleUrl.api noThrow openWorld
              (lit "send_message") None
              (Some {| timeoutMs := Some (ofZ 2147483648); selfOverride := None |})
              Hreach Hopen)
    as (_ & _ & _ & _ & _ & _ & Hover & _).
  split; [exact Hreach|]. split; [exact Hopen|]. split.
  - apply (Hfires [Elapse 10000%Z]).
    + vm_compute. reflexivity.
    + vm_compute. reflexivity.
    + vm_compute. discriminate.
  - apply Hover. vm_compute. reflexivity.
Defined.

End WsClientFacts.

(** ** The small URL class is lawful *)

Module SimpleUrlFacts.
Import Js SimpleUrl JsFacts TargetsFacts.

Lemma schemeRest_app s x : schemeRest s = true -> schemeRest (s ++ x) = true.
Proof.
  induction s as [|c s IH]; [done|]. simpl. destruct (c =? 58); [done|].
  intros [-> Hs]%andb_true_iff. by apply IH.
Qed.

Lemma hasScheme_app s x : hasScheme s = true -> hasScheme (s ++ x) = true.
Proof.
  destruct s as [|c s]; [done|]. simpl. intros [-> Hs]%andb_true_iff.
  by apply schemeRest_app.
Qed.

Lemma isSchemeChar_not_query c : isSchemeChar c = true -> (c =? 63) = false.
Proof. destruct (c =? 63) eqn:E; [|done]. by apply N.eqb_eq in E as ->. Qed.

Lemma schemeRest_before s :
  schemeRest s = true -> schemeRest (splitFirst 63 s).1 = true.
Proof.
  induction s as [|c s IH]; [done|]. simpl.
  destruct (c =? 58) eqn:E58.
  - apply N.eqb_eq in E58 as ->. simpl.
    by destruct (splitFirst 63 s).
  - intros [Hc Hs]%andb_true_iff. rewrite (isSchemeChar_not_query c Hc).
    specialize (IH Hs). destruct (splitFirst 63 s) as [b a]. simpl in *.
    by rewrite E58, Hc.
Qed.

Lemma hasScheme_before s :
  hasScheme s = true -> hasScheme (splitFirst 63 s).1 = true.
Proof.
  destruct s as [|c s]; [done|]. simpl. intros [Hc Hs]%andb_true_iff.
  assert ((c =? 63) = false) as ->.
  { apply isSchemeChar_not_query. unfold isSchemeChar. by rewrite Hc. }
  pose proof (schemeRest_before s Hs). destruct (splitFirst 63 s). simpl in *.
  by rewrite Hc.
Qed.

(** A parameter that serializes without ['&'] and ['#'], with a name
    free of ['=']: it parses back from its serialization. *)
Definition WfParam (param : jsstring * jsstring) : Prop :=
  without 38 (serializeParam param) = true
  ∧ without 35 (serializeParam param) = true
  ∧ without 61 param.1 = true.

Record Wf (u : T) : Prop := {
  wf_scheme : hasScheme (base u) = true;
  wf_query : without 63 (base u) = true;
  wf_hash : without 35 (base u) = true;
  wf_params : Forall WfParam (params u);
}.

Lemma parseParam_serializeParam param :
  WfParam param -> parseParam (serializeParam param) = param.
Proof.
  destruct param as [k v]. intros (_ & _ & Hk). unfold parseParam, serializeParam.
  simpl in *. by rewrite splitFirst_app.
Qed.

Lemma splitOn_join (pieces : list jsstring) :
  pieces ≠ [] -> Forall (fun piece => without 38 piece = true) pieces ->
  splitOn (fun c => c =? 38) (join [38] pieces) = pieces.
Proof.
  induction pieces as [|piece pieces IH]; [done|]. intros _ [Hp Hps]%Forall_cons.
  apply without_Forall in Hp. destruct pieces as [|piece' pieces].
  - simpl. by apply splitOn_single.
  - change (join [38] (piece :: piece' :: pieces))
      with (piece ++ 38 :: join [38] (piece' :: pieces)).
    rewrite splitOn_app by done. by rewrite IH.
Qed.

Lemma parseQuery_serialize ps :
  ps ≠ [] -> Forall WfParam ps ->
  parseQuery (join [38] (List.map serializeParam ps)) = ps.
Proof.
  intros Hne Hwf. unfold parseQuery. rewrite splitOn_join.
  - assert (List.filter truthy (List.map serializeParam ps) = List.map serializeParam ps)
      as ->.
    { clear. induction ps as [|[k v] ps IH]; [done|]. simpl.
      destruct k; simpl; by rewrite IH. }
    rewrite List.map_map. induction Hwf as [|param ps Hp Hps IH]; [done|].
    simpl. rewrite parseParam_serializeParam by done.
    destruct ps; [done|]. by rewrite IH.
  - by destruct ps.
  - apply Forall_fmap. eapply Forall_impl; [done|]. by intros param (? & _).
Qed.

Lemma parse_toString_wf u : Wf u -> parse (toString u) = Some u.
Proof.
  intros [Hs Hq Hh Hp]. destruct u as [b ps]. simpl in *.
  unfold parse, toString. cbn [base params]. destruct ps as [|param ps].
  - rewrite app_nil_r, Hs, Hh. simpl. by rewrite splitFirst_none.
  - set (q := join [38] (List.map serializeParam (param :: ps))).
    assert (without 35 q = true) as Hq35.
    { subst q. clear -Hp. induction Hp as [|p ps' (_ & Hp & _) Hps IH]; [done|].
      destruct ps' as [|p' ps']; [done|].
      change (join [38] (List.map serializeParam (p :: p' :: ps')))
        with (serializeParam p ++ 38 :: join [38] (List.map serializeParam (p' :: ps'))).
      rewrite without_app, Hp. apply IH. }
    rewrite hasScheme_app by done. rewrite without_app, Hh.
    change (without 35 (63 :: q)) with (without 35 q). rewrite Hq35.
    cbn [andb]. rewrite splitFirst_app by done. subst q.
    by rewrite parseQuery_serialize.
Qed.

Lemma splitOn_Forall (P : N -> Prop) sep s :
  Forall P s -> Forall (Forall P) (splitOn sep s).
Proof.
  induction 1 as [|c s Hc Hs IH]; simpl.
  - repeat constructor.
  - destruct (sep c); [by repeat constructor|].
    destruct (splitOn sep s) as [|piece pieces]; [by repeat constructor|].
    inversion IH; subst. by repeat constructor.
Qed.

Lemma WfParam_parseParam piece :
  without 38 piece = true -> without 35 piece = true -> WfParam (parseParam piece).
Proof.
  intros H38 H35. unfold parseParam.
  destruct (splitFirst_spec 61 piece) as [Hk Heq].
  destruct (splitFirst 61 piece) as [k [v|]]; simpl in *.
  - unfold WfParam, serializeParam. simpl. by rewrite <- Heq.
  - rewrite app_nil_r in Heq. subst k.
    unfold WfParam, serializeParam. simpl. by rewrite !without_app, H38, H35.
Qed.

Lemma Wf_parse s u : parse s = Some u -> Wf u.
Proof.
  unfold parse. destruct (hasScheme s && without 35 s) eqn:E; [|done].
  apply andb_true_iff in E as [Hs Hh].
  pose proof (hasScheme_before s Hs) as Hb.
  destruct (splitFirst_spec 63 s) as [Hq Heq].
  destruct (splitFirst 63 s) as [b q]. simpl in *. intros [= <-].
  rewrite Heq, without_app in Hh. apply andb_true_iff in Hh as [Hhb Hhq].
  constructor; simpl; try done.
  destruct q as [q|]; [|constructor].
  unfold parseQuery. apply Forall_fmap.
  assert (Forall (fun c => (c =? 35) = false) q) as Hq35.
  { apply without_Forall. simpl in Hhq. done. }
  pose proof (splitOn_pieces (fun c => c =? 38) q) as H38.
  pose proof (splitOn_Forall _ (fun c => c =? 38) q Hq35) as H35.
  rewrite List.Forall_forall in *. intros piece [Hin _]%filter_In.
  apply WfParam_parseParam; apply without_Forall, List.Forall_forall; auto.
  - intros c Hc. by eapply (List.Forall_forall (fun c => (c =? 38) = false)), Hc; auto.
  - intros c Hc. by eapply (List.Forall_forall (fun c => (c =? 35) = false)), Hc; auto.
Qed.

Lemma encode_without sep s :
  sep = 38 ∨ sep = 61 ∨ sep = 35 -> without sep (encode s) = true.
Proof.
  intros Hsep. induction s as [|c s IH]; [done|].
  unfold encode in *. simpl. rewrite without_app, IH, andb_true_r.
  unfold encodeUnit.
  destruct (c =? 38) eqn:E38; [by destruct Hsep as [->|[->| ->]]|].
  destruct (c =? 61) eqn:E61; [by destruct Hsep as [->|[->| ->]]|].
  destruct (c =? 35) eqn:E35; [by destruct Hsep as [->|[->| ->]]|].
  simpl. by destruct Hsep as [->|[->| ->]]; rewrite ?E38, ?E61, ?E35.
Qed.

Lemma Forall_setParam (P : jsstring * jsstring -> Prop) name value ps :
  P (name, value) -> Forall P ps -> Forall P (setParam name value ps).
Proof.
  intros Hnew. induction 1 as [|[n v] ps Hp Hps IH]; simpl.
  - by repeat constructor.
  - destruct (strictEq n name).
    + constructor; [done|]. apply List.Forall_forall. intros x [Hx _]%filter_In.
      rewrite List.Forall_forall in Hps. auto.
    + by constructor.
Qed.

Lemma Wf_set u name value : Wf u -> Wf (set u name value).
Proof.
  intros [Hs Hq Hh Hp]. constructor; simpl; try done.
  apply Forall_setParam; [|done].
  unfold WfParam, serializeParam. simpl.
  rewrite !without_app. simpl. by rewrite !encode_without by auto.
Qed.

Lemma has_setParam name value ps :
  existsb (fun param => strictEq param.1 name) (setParam name value ps) = true.
Proof.
  induction ps as [|[n v] ps IH]; simpl.
  - by rewrite (proj2 (strictEq_true name name)).
  - destruct (strictEq n name) eqn:E; simpl.
    + by rewrite (proj2 (strictEq_true name name)).
    + by rewrite E.
Qed.

Lemma filter_setParam_idem name (ps : list (jsstring * jsstring)) :
  List.filter (fun param => negb (strictEq param.1 name))
    (List.filter (fun param => negb (strictEq param.1 name)) ps)
  = List.filter (fun param => negb (strictEq param.1 name)) ps.
Proof.
  induction ps as [|[n v] ps IH]; [done|]. simpl.
  destruct (strictEq n name) eqn:E; simpl; [done|]. by rewrite E, IH.
Qed.

Lemma setParam_setParam name value value' ps :
  setParam name value' (setParam name value ps) = setParam name value' ps.
Proof.
  induction ps as [|[n v] ps IH]; simpl.
  - by rewrite (proj2 (strictEq_true name name)).
  - destruct (strictEq n name) eqn:E; simpl.
    + by rewrite (proj2 (strictEq_true name name)), filter_setParam_idem.
    + by rewrite E, IH.
Qed.

(** The small URL class obeys the laws. *)
Lemma lawful : Url.Lawful api.
Proof.
  constructor; simpl.
  - intros s u Hs. by apply parse_toString_wf, (Wf_parse s).
  - intros s u k v Hs. by apply parse_toString_wf, Wf_set, (Wf_parse s).
  - intros u k v. apply has_setParam.
  - intros u k v v'. unfold set. simpl. by rewrite setParam_setParam.
Qed.

End SimpleUrlFacts.

(** ** What the client logs of its address *)

Module RedactionFacts.
Import Js Types Url WsClient JsFacts TargetsFacts.

















End RedactionFacts.

(** ** Addresses: more of targets.ts and normalize.ts *)

Module AddressingFacts.
Import Js Targets Normalize Types Monitor JsFacts TargetsFacts MonitorFacts.

Lemma startsWith_inv s p : startsWith s p = true -> s = p ++ drop (length p) s.
Proof.
  revert s. induction p as [|c p IH]; intros s; [done|].
  destruct s as [|d s]; [done|]. simpl.
  intros [Hc Hs]%andb_true_iff. apply N.eqb_eq in Hc as ->. f_equal. by apply IH.
Qed.

Lemma startsWith_exclusive s p p' :
  clash p p' = true -> startsWith s p = true -> startsWith s p' = false.
Proof.
  intros Hc Hs. rewrite (startsWith_inv s p Hs). by apply startsWith_clash.
Qed.

(** X1. [normalizeOneBotMessagingTarget] is idempotent: normalizing a
    normalized address changes nothing, whether the address parses or
    not. *)
Theorem normalize_idempotent (target : jsstring) :
  normalizeOneBotMessagingTarget (normalizeOneBotMessagingTarget target)
  = normalizeOneBotMessagingTarget target.
Proof.
  unfold normalizeOneBotMessagingTarget at 2 3.
  destruct (parseOneBotTarget target) as [t|] eqn:Ht.
  - pose proof (parseOneBotTarget_wf _ _ Ht) as Hwf.
    unfold normalizeOneBotMessagingTarget.
    destruct t as [u|g|g c]; simpl in Hwf.
    + by rewrite parse_canonical_user.
    + by rewrite parse_canonical_group.
    + destruct Hwf. by rewrite parse_canonical_channel.
  - unfold normalizeOneBotMessagingTarget.
    assert (parseOneBotTarget (trim target) = None) as ->.
    { unfold parseOneBotTarget, normalizeRawTarget in *. by rewrite trim_idem. }
    apply trim_idem.
Qed.

(** The user prefix that [firstRest] finds is the one that
    [USER_PREFIX_RE] removes. *)
Lemma firstRest_user raw u :
  firstRest raw userPrefixes = Some u ->
  trim (dropFirstPrefixCI [lit "user:"; lit "private:"; lit "dm:"; lit "qq:"] raw) = u.
Proof.
  unfold userPrefixes, firstRest, dropFirstPrefixCI, dropPrefixCI, stripPrefix, slice.
  destruct (startsWith (toLowerCase raw) (lit "user:")) eqn:E1.
  { rewrite (startsWith_exclusive _ (lit "user:") (lit "private:") eq_refl E1),
      (startsWith_exclusive _ (lit "user:") (lit "dm:") eq_refl E1),
      (startsWith_exclusive _ (lit "user:") (lit "qq:") eq_refl E1). simpl.
    destruct (truthy _); [by intros [= <-]|done]. }
  destruct (startsWith (toLowerCase raw) (lit "private:")) eqn:E2.
  { rewrite (startsWith_exclusive _ (lit "private:") (lit "dm:") eq_refl E2),
      (startsWith_exclusive _ (lit "private:") (lit "qq:") eq_refl E2). simpl.
    destruct (truthy _); [by intros [= <-]|done]. }
  destruct (startsWith (toLowerCase raw) (lit "dm:")) eqn:E3.
  { rewrite (startsWith_exclusive _ (lit "dm:") (lit "qq:") eq_refl E3). simpl.
    destruct (truthy _); [by intros [= <-]|done]. }
  destruct (startsWith (toLowerCase raw) (lit "qq:")) eqn:E4; simpl; [|done].
  destruct (truthy _); [by intros [= <-]|done].
Qed.

Lemma normalizeRawTarget_drop input :
  normalizeRawTarget input = dropFirstPrefixCI [lit "onebot:"] (trim input).
Proof.
  unfold normalizeRawTarget, matchesPREFIX_RE, dropFirstPrefixCI, dropPrefixCI.
  by destruct (startsWith _ _).
Qed.

(** X2. An address that parses as a user names the user that
    [normalizeOneBotUserId] finds in it: the user id of the target is
    the normalized id, trimmed. *)
Theorem user_target_is_normalized_id (input u : jsstring) :
  parseOneBotTarget input = Some (User u) ->
  trim (normalizeOneBotUserId input) = u.
Proof.
  unfold parseOneBotTarget, normalizeOneBotUserId, replaceUSER_PREFIX_RE.
  rewrite normalizeRawTarget_drop.
  destruct (negb _); [done|].
  destruct (firstRest _ userPrefixes) as [rest|] eqn:E.
  - intros [= <-]. by apply firstRest_user.
  - destruct (ifTruthy _); [done|].
    destruct (firstRest _ channelPrefixes); [|done].
    by destruct (channelParts _) as [|? [|? ?]].
Qed.

Lemma user_target_is_normalized_id_witness :
  trim (normalizeOneBotUserId (lit " OneBot:QQ: 10001 ")) = lit "10001".
Proof.
  apply user_target_is_normalized_id. vm_compute. reflexivity.
Defined.

(** *** Prefixes of user ids *)

(** An ASCII case variant of one of the four user prefixes. *)
Definition userPrefix (q : jsstring) : Prop :=
  caseVariant q "user:" ∨ caseVariant q "private:" ∨ caseVariant q "dm:"
  ∨ caseVariant q "qq:".

Lemma userPrefix_shape q :
  userPrefix q ->
  (exists c q', q = c :: q' ∧ isWhiteSpace c = false)
  ∧ (exists q' c, q = q' ++ [c] ∧ isWhiteSpace c = false).
Proof.
  unfold userPrefix, caseVariant. intros [Hq|[Hq|[Hq|Hq]]]; split.
  - by apply (toLowerCase_head q 117 (lit "ser:")).
  - by apply (toLowerCase_last q 58 (lit "user")).
  - by apply (toLowerCase_head q 112 (lit "rivate:")).
  - by apply (toLowerCase_last q 58 (lit "private")).
  - by apply (toLowerCase_head q 100 (lit "m:")).
  - by apply (toLowerCase_last q 58 (lit "dm")).
  - by apply (toLowerCase_head q 113 (lit "q:")).
  - by apply (toLowerCase_last q 58 (lit "qq")).
Qed.

Lemma dropPrefixCI_ci q k x :
  toLowerCase q = k -> dropPrefixCI k (q ++ x) = Some x.
Proof.
  intros H. unfold dropPrefixCI. rewrite toLowerCase_app, H, startsWith_app.
  by rewrite <- H, length_toLowerCase, slice_app.
Qed.

Lemma dropPrefixCI_clash q k k' x :
  toLowerCase q = k -> clash k k' = true -> dropPrefixCI k' (q ++ x) = None.
Proof.
  intros H Hk. unfold dropPrefixCI. by rewrite toLowerCase_app, H, startsWith_clash.
Qed.

Lemma dropFirstPrefixCI_user q x :
  userPrefix q ->
  dropFirstPrefixCI [lit "user:"; lit "private:"; lit "dm:"; lit "qq:"] (q ++ x) = x
  ∧ dropFirstPrefixCI [lit "onebot:"] (q ++ x) = q ++ x.
Proof.
  unfold userPrefix, caseVariant, dropFirstPrefixCI.
  intros [Hq|[Hq|[Hq|Hq]]].
  - by rewrite (dropPrefixCI_ci q _ x Hq),
      (dropPrefixCI_clash q _ (lit "onebot:") x Hq).
  - by rewrite (dropPrefixCI_clash q _ (lit "user:") x Hq),
      (dropPrefixCI_ci q _ x Hq), (dropPrefixCI_clash q _ (lit "onebot:") x Hq).
  - by rewrite (dropPrefixCI_clash q _ (lit "user:") x Hq),
      (dropPrefixCI_clash q _ (lit "private:") x Hq),
      (dropPrefixCI_ci q _ x Hq), (dropPrefixCI_clash q _ (lit "onebot:") x Hq).
  - by rewrite (dropPrefixCI_clash q _ (lit "user:") x Hq),
      (dropPrefixCI_clash q _ (lit "private:") x Hq),
      (dropPrefixCI_clash q _ (lit "dm:") x Hq),
      (dropPrefixCI_ci q _ x Hq), (dropPrefixCI_clash q _ (lit "onebot:") x Hq).
Qed.

Lemma trim_userPrefix q x : userPrefix q -> trim (q ++ x) = q ++ trimEnd x.
Proof.
  intros Hq. destruct (userPrefix_shape q Hq) as [Hhead Hlast].
  exact (trim_prefixed [] q x Hhead Hlast).
Qed.

Lemma normalizeOneBotUserId_prefixed q x :
  userPrefix q -> normalizeOneBotUserId (q ++ x) = trimEnd x.
Proof.
  intros Hq. unfold normalizeOneBotUserId, replaceUSER_PREFIX_RE.
  rewrite trim_userPrefix by done.
  destruct (dropFirstPrefixCI_user q (trimEnd x) Hq) as [H1 H2]. by rewrite H2, H1.
Qed.

(** X3. [normalizeOneBotUserId] trims, then removes ["onebot:"] and one
    of ["user:"], ["private:"], ["dm:"], ["qq:"] from the front, each in
    any ASCII case; what follows the prefix keeps its leading white
    space, and a second user prefix stays, so the function is not
    idempotent. *)
Theorem user_id_prefixes_removed (p q q' x : jsstring) :
  caseVariant p "onebot:" -> userPrefix q -> userPrefix q' ->
  normalizeOneBotUserId (p ++ q ++ x) = trimEnd x
  ∧ normalizeOneBotUserId (q ++ x) = trimEnd x
  ∧ normalizeOneBotUserId (q ++ q' ++ x) = q' ++ trimEnd x.
Proof.
  intros Hp Hq Hq'.
  destruct (userPrefix_shape q Hq) as [Hhead Hlast].
  split; [|split; [by apply normalizeOneBotUserId_prefixed|]].
  - unfold normalizeOneBotUserId, replaceUSER_PREFIX_RE.
    rewrite trim_prefixed; [| |done].
    + unfold dropFirstPrefixCI at 2.
      rewrite (dropPrefixCI_ci p _ _ Hp).
      by destruct (dropFirstPrefixCI_user q (trimEnd x) Hq) as [-> _].
    + destruct (toLowerCase_head p 111 (lit "nebot:") Hp) as (c & p' & -> & Hc); [done|].
      by exists c, (p' ++ q).
  - unfold normalizeOneBotUserId, replaceUSER_PREFIX_RE.
    destruct (userPrefix_shape q' Hq') as [Hhead' Hlast'].
    assert (trim (q ++ q' ++ x) = q ++ q' ++ trimEnd x) as ->.
    { destruct Hlast' as (q0 & c & -> & Hc). unfold trim.
      assert (trimEnd (q ++ (q0 ++ [c]) ++ x) = q ++ (q0 ++ [c]) ++ trimEnd x) as ->.
      { rewrite !app_assoc. by rewrite trimEnd_app_solid. }
      destruct Hhead as (d & q1 & -> & Hd). simpl. by rewrite Hd. }
    destruct (dropFirstPrefixCI_user q (q' ++ trimEnd x) Hq) as [H1 H2].
    by rewrite H2, H1.
Qed.

Lemma user_id_prefixes_removed_witness :
  normalizeOneBotUserId (lit "OneBot:" ++ lit "QQ:" ++ lit " 10001 ") = lit " 10001"
  ∧ normalizeOneBotUserId (lit "QQ:" ++ lit "user:" ++ lit "10001") = lit "user:10001".
Proof.
  assert (caseVariant (lit "OneBot:") "onebot:") as Hp by reflexivity.
  assert (userPrefix (lit "QQ:")) as Hq by (do 3 right; reflexivity).
  assert (userPrefix (lit "user:")) as Hq' by (left; reflexivity).
  split.
  - exact (proj1 (user_id_prefixes_removed _ _ _ (lit " 10001 ") Hp Hq Hq')).
  - exact (proj2 (proj2 (user_id_prefixes_removed _ _ _ (lit "10001") Hp Hq Hq'))).
Defined.

Lemma toLowerCaseUnit_idem c : toLowerCaseUnit (toLowerCaseUnit c) = toLowerCaseUnit c.
Proof.
  unfold toLowerCaseUnit.
  destruct ((65 <=? c) && (c <=? 90)) eqn:E; [|by rewrite E].
  apply andb_true_iff in E as [H1%N.leb_le H2%N.leb_le].
  assert ((c + 32 <=? 90) = false) as -> by (apply N.leb_gt; lia).
  by rewrite andb_false_r.
Qed.

Lemma toLowerCase_idem s : toLowerCase (toLowerCase s) = toLowerCase s.
Proof.
  unfold toLowerCase. rewrite List.map_map. apply List.map_ext.
  intros c. apply toLowerCaseUnit_idem.
Qed.

Lemma trimStart_lower s : trimStart (toLowerCase s) = toLowerCase (trimStart s).
Proof.
  induction s as [|c s IH]; [done|]. simpl.
  rewrite isWhiteSpace_lower. by destruct (isWhiteSpace c).
Qed.

Lemma trimEnd_lower s : trimEnd (toLowerCase s) = toLowerCase (trimEnd s).
Proof.
  unfold trimEnd. unfold toLowerCase at 1. rewrite <- List.map_rev.
  change (List.map toLowerCaseUnit (rev s)) with (toLowerCase (rev s)).
  rewrite trimStart_lower. unfold toLowerCase. by rewrite List.map_rev.
Qed.

Lemma trim_lower s : trim (toLowerCase s) = toLowerCase (trim s).
Proof. unfold trim. by rewrite trimEnd_lower, trimStart_lower. Qed.

(** The detail type as the handler computes it is a fixed point of the
    normalization that [buildOneBotTargetFromEvent] applies again. *)
Lemma detail_fixed x :
  toLowerCase (trim (toLowerCase (trim x))) = toLowerCase (trim x).
Proof. by rewrite trim_lower, trim_idem, toLowerCase_idem. Qed.

(** *** The address the handler replies to *)

Lemma trimmedOrNull_Trimmed v s : trimmedOrNull v = Some s -> Trimmed s.
Proof.
  unfold trimmedOrNull. intros [Hv Hne]%ifTruthy_Some.
  destruct v as [x|]; [|done]. injection Hv as <-. by apply Trimmed_trim.
Qed.

Lemma Trimmed_pair g c : Trimmed g -> Trimmed c -> Trimmed (g ++ lit ":" ++ c).
Proof.
  intros [Hne Hgt] Hc. destruct g as [|c0 g']; [done|].
  split; [done|]. rewrite app_assoc.
  apply (trim_canonical c0 (g' ++ lit ":")); [|done].
  by apply (trim_head (c0 :: g') c0 g').
Qed.

Lemma parse_channel_address g c :
  Trimmed g -> Trimmed c ->
  parseOneBotTarget (lit "channel:" ++ g ++ lit ":" ++ c)
  = channelOf (channelParts (g ++ lit ":" ++ c)).
Proof.
  intros Hg Hc.
  assert (caseVariant (lit "channel:") "channel:" ∨ caseVariant (lit "channel:") "guild:")
    as Hq by (by left).
  rewrite (parse_channel_raw _ (lit "channel:") (trimEnd (g ++ lit ":" ++ c)) Hq
             (normalizeRawTarget_plain _ _ Hq)).
  rewrite trim_trimEnd_l. by destruct (Trimmed_pair g c Hg Hc) as [_ ->].
Qed.

(** What the handler resolves about the chat, in terms of the event. *)
Lemma resolveInbound_chat event account inb :
  resolveInbound event account = Some inb ->
  let detail := toLowerCase (trim (default [] (detail_type event))) in
  guildId inb = trimmedOrNull (guild_id event)
  ∧ channelId inb = trimmedOrNull (channel_id event)
  ∧ chatType inb
    = (if strictEq detail (lit "channel") then ChatChannel
       else if strictEq detail (lit "group") then ChatGroup else ChatDirect)
  ∧ Trimmed (senderId inb).
Proof.
  intros H detail. unfold resolveInbound in H. fold detail in H.
  repeat case_match; try done; injection H as <-; simpl;
    (repeat split; try done);
    match goal with
    | E : negb (truthy (default [] (trim <$> evUserId event))) = false |- _ =>
        apply negb_false_iff, truthy_ne in E;
        destruct (evUserId event); [by apply Trimmed_trim|done]
    | |- _ => idtac
    end.
Qed.

(** X4. The address the handler derives from an event, which replies
    are sent to, parses back to the chat of the event: to the sender of
    a direct message and to the group of a group message.  For a channel
    message it parses to the first two pieces of guild id and channel
    id split on ['/'] and [':'], which are the guild and the channel of
    the event when neither id holds a ['/'] or [':']. *)
Theorem reply_address_parses_back (event : OneBotMessageEvent)
    (account : ResolvedOneBotAccount) (inb : Inbound) :
  resolveInbound event account = Some inb ->
  match chatType inb with
  | ChatDirect => parseOneBotTarget (target inb) = Some (User (senderId inb))
  | ChatGroup =>
      exists g, groupId inb = Some g
                ∧ parseOneBotTarget (target inb) = Some (Group g)
  | ChatChannel =>
      exists g c, guildId inb = Some g ∧ channelId inb = Some c
                  ∧ parseOneBotTarget (target inb)
                    = channelOf (channelParts (g ++ lit ":" ++ c))
                  ∧ (noSep g -> noSep c ->
                     parseOneBotTarget (target inb) = Some (Channel g c))
  end.
Proof.
  intros H.
  destruct (resolveInbound_fields _ _ _ H) as (_ & _ & _ & Hgid & _ & Hb & _).
  destruct (resolveInbound_chat _ _ _ H) as (Hguild & Hchannel & Hchat & Hsender).
  rewrite Hchat, Hgid, Hguild, Hchannel. clear Hchat.
  set (detail := toLowerCase (trim (default [] (detail_type event)))) in *.
  assert (toLowerCase (trim detail) = detail) as Hfix by apply detail_fixed.
  unfold buildOneBotTargetFromEvent in Hb.
  cbn [Targets.detailType Targets.userId Targets.groupId Targets.guildId
       Targets.channelId] in Hb.
  rewrite Hfix in Hb. unfold trimmedOrNull in Hb. rewrite !ifTruthy_idem in Hb.
  fold (trimmedOrNull (group_id event)) in Hb.
  fold (trimmedOrNull (guild_id event)) in Hb.
  fold (trimmedOrNull (channel_id event)) in Hb.
  destruct (strictEq detail (lit "channel")) eqn:Ec.
  - apply strictEq_true in Ec. rewrite Ec in Hb.
    change (strictEq (lit "channel") (lit "private")) with false in Hb.
    change (strictEq (lit "channel") (lit "user")) with false in Hb.
    change (strictEq (lit "channel") (lit "dm")) with false in Hb.
    change (strictEq (lit "channel") (lit "group")) with false in Hb.
    change (strictEq (lit "channel") (lit "channel")) with true in Hb.
    cbn [orb] in Hb.
    destruct (trimmedOrNull (guild_id event)) as [g|] eqn:Eg; [|done].
    destruct (trimmedOrNull (channel_id event)) as [c|] eqn:Ech; [|done].
    injection Hb as <-. exists g, c. split; [done|]. split; [done|].
    pose proof (trimmedOrNull_Trimmed _ _ Eg) as Hg.
    pose proof (trimmedOrNull_Trimmed _ _ Ech) as Hc.
    split; [by apply parse_channel_address|].
    intros Hgs Hcs. by apply parse_canonical_channel.
  - destruct (strictEq detail (lit "group")) eqn:Eg.
    + apply strictEq_true in Eg. rewrite Eg in Hb.
      change (strictEq (lit "group") (lit "private")) with false in Hb.
      change (strictEq (lit "group") (lit "user")) with false in Hb.
      change (strictEq (lit "group") (lit "dm")) with false in Hb.
      change (strictEq (lit "group") (lit "group")) with true in Hb.
      cbn [orb] in Hb.
      destruct (trimmedOrNull (group_id event)) as [g|] eqn:E; [|done].
      injection Hb as <-. exists g. split; [done|].
      apply parse_canonical_group. by eapply trimmedOrNull_Trimmed.
    + destruct (_ || _); [|done].
      destruct (ifTruthy (Some (senderId inb))) as [u|] eqn:Eu; [|done].
      apply ifTruthy_Some in Eu as [[= <-] _].
      injection Hb as <-. by apply parse_canonical_user.
Qed.

Definition channelEvent (guild channel : String.string) : OneBotMessageEvent :=
  {| evType := Some (lit "message"); detail_type := Some (lit "channel");
     self := None; time := None; message_id := None; message := None;
     alt_message := Some (lit "hi"); evUserId := Some (lit "123");
     group_id := None; guild_id := Some (lit guild);
     channel_id := Some (lit channel); qq_nickname := None; user_name := None |}.

Lemma reply_address_parses_back_witness :
  let account := sampleAccount (sampleConfig None None None None) in
  (exists inb,
     resolveInbound (channelEvent "g1" "c1") account = Some inb
     ∧ parseOneBotTarget (target inb) = Some (Channel (lit "g1") (lit "c1")))
  ∧ (exists inb,
       resolveInbound (channelEvent "a:b" "c") account = Some inb
       ∧ parseOneBotTarget (target inb) = Some (Channel (lit "a") (lit "b"))).
Proof.
  intros account. split.
  - destruct (resolveInbound (channelEvent "g1" "c1") account) as [inb|] eqn:E;
      [|by vm_compute in E].
    exists inb. split; [done|].
    pose proof (reply_address_parses_back _ _ _ E) as H.
    assert (chatType inb = ChatChannel ∧ guildId inb = Some (lit "g1")
            ∧ channelId inb = Some (lit "c1")) as (Hchat & Hg & Hc).
    { vm_compute in E. injection E as <-. by repeat split. }
    rewrite Hchat, Hg, Hc in H. destruct H as (g & c & [= <-] & [= <-] & _ & H).
    apply H; by repeat constructor.
  - destruct (resolveInbound (channelEvent "a:b" "c") account) as [inb|] eqn:E;
      [|by vm_compute in E].
    exists inb. split; [done|].
    pose proof (reply_address_parses_back _ _ _ E) as H.
    assert (chatType inb = ChatChannel ∧ guildId inb = Some (lit "a:b")
            ∧ channelId inb = Some (lit "c")) as (Hchat & Hg & Hc).
    { vm_compute in E. injection E as <-. by repeat split. }
    rewrite Hchat, Hg, Hc in H. destruct H as (g & c & [= <-] & [= <-] & H & _).
    rewrite H. vm_compute. reflexivity.
Defined.

End AddressingFacts.

(** ** The inbound handler: more of monitor.ts *)

Module HandlerFacts.
Import Js Targets Normalize Types Monitor Reply JsFacts TargetsFacts MonitorFacts.
Import AddressingFacts.

(** Membership in a list that is written out. *)
Ltac in_list :=
  intros; cbn [app]; rewrite ?elem_of_app, ?elem_of_cons, ?elem_of_nil;
  repeat match goal with
    | H : _ ∈ _ |- _ =>
        rewrite ?elem_of_app, ?elem_of_cons, ?elem_of_nil in H; revert H
    end;
  naive_solver.

Section Engine.

Context `{engine : Engine}.

Lemma handle_nil host event account :
  handleOneBotMessage host event account = [] <-> resolveInbound event account = None.
Proof. unfold handleOneBotMessage. by destruct (resolveInbound event account). Qed.

Lemma negb_truthy s : negb (truthy s) = true <-> s = [].
Proof. by destruct s. Qed.

Lemma negb_truthy_false s : negb (truthy s) = false <-> s ≠ [].
Proof. by destruct s. Qed.

Lemma buildOneBotTargetFromEvent_truthy params address :
  buildOneBotTargetFromEvent params = Some address -> truthy address = true.
Proof.
  unfold buildOneBotTargetFromEvent. repeat case_match; try done; by intros [= <-].
Qed.

Lemma trimmedOrNull_ne v s : trimmedOrNull v = Some s -> s ≠ [].
Proof. unfold trimmedOrNull. by intros [_ ?]%ifTruthy_Some. Qed.

(** The sender and the bot itself, as the handler resolves them. *)
Definition senderOf (event : OneBotMessageEvent) : jsstring :=
  default [] (trim <$> evUserId event).

Definition selfOf (event : OneBotMessageEvent) (account : ResolvedOneBotAccount)
  : option jsstring :=
  match trimmedOrNull (self event ≫= selfUserId) with
  | Some s => Some s
  | None => trimmedOrNull (selfId account)
  end.

Definition addressOf (event : OneBotMessageEvent) : option jsstring :=
  buildOneBotTargetFromEvent
    {| Targets.detailType := toLowerCase (trim (default [] (detail_type event)));
       Targets.userId := Some (senderOf event);
       Targets.groupId := trimmedOrNull (group_id event);
       Targets.guildId := trimmedOrNull (guild_id event);
       Targets.channelId := trimmedOrNull (channel_id event) |}.

(** X5. The handler ignores an event without any effect exactly when the
    detail type is blank, the sender id is blank, the sender is the bot
    itself (the [self.user_id] of the event, else the [selfId] of the
    account), the event has no address (another detail type, or a
    group, guild or channel id that is missing), or the message has no
    text.  Every other event is first reported as inbound. *)
Theorem silently_ignored_events (host : Host) (event : OneBotMessageEvent)
    (account : ResolvedOneBotAccount) :
  (handleOneBotMessage host event account = []
   <-> trim (default [] (detail_type event)) = []
       ∨ senderOf event = []
       ∨ selfOf event account = Some (senderOf event)
       ∨ addressOf event = None
       ∨ (resolveMessageText event).1 = [])
  ∧ (handleOneBotMessage host event account ≠ [] ->
     exists rest, handleOneBotMessage host event account = StatusLastInboundAt :: rest).
Proof.
  split.
  2:{ unfold handleOneBotMessage. destruct (resolveInbound event account); [|done].
      intros _. by eexists. }
  rewrite handle_nil. unfold resolveInbound.
  fold (senderOf event). fold (selfOf event account). fold (addressOf event).
  set (detail := toLowerCase (trim (default [] (detail_type event)))).
  assert (detail = [] <-> trim (default [] (detail_type event)) = []) as Hdetail.
  { subst detail. by destruct (trim _). }
  destruct (negb (truthy detail)) eqn:Ed.
  { apply negb_truthy in Ed. split; [intros _; left; by apply Hdetail|done]. }
  apply negb_truthy_false in Ed.
  destruct (negb (truthy (senderOf event))) eqn:Es.
  { apply negb_truthy in Es. split; [by right; left|done]. }
  apply negb_truthy_false in Es.
  destruct (match selfOf event account with
            | Some s => strictEq (senderOf event) s
            | None => false
            end) eqn:Eself.
  { split; [intros _|done]. right; right; left.
    destruct (selfOf event account) as [s|]; [|done].
    by apply strictEq_true in Eself as <-. }
  assert (selfOf event account ≠ Some (senderOf event)) as Hself.
  { intros Heq. rewrite Heq in Eself. by apply strictEq_false in Eself. }
  destruct (addressOf event) as [address|] eqn:Ea.
  2:{ split; [by intros _; do 3 right; left|done]. }
  rewrite (buildOneBotTargetFromEvent_truthy _ _ Ea). cbn [negb].
  assert (truthy (if strictEq detail (lit "channel")
                  then interpolate (trimmedOrNull (guild_id event)) ++ lit ":"
                       ++ interpolate (trimmedOrNull (channel_id event))
                  else default (senderOf event) (trimmedOrNull (group_id event)))
          = true) as ->.
  { destruct (strictEq detail (lit "channel")).
    - by destruct (interpolate (trimmedOrNull (guild_id event))).
    - apply truthy_ne. destruct (trimmedOrNull (group_id event)) as [g|] eqn:Eg; [|done].
      simpl. by apply trimmedOrNull_ne in Eg. }
  cbn [negb]. destruct (resolveMessageText event) as [rawText segments]. simpl.
  destruct (negb (truthy rawText)) eqn:Et.
  { apply negb_truthy in Et. split; [by intros _; do 4 right|done]. }
  apply negb_truthy_false in Et.
  split; [done|]. intros [?|[?|[?|[?|?]]]]; try done. by apply Hdetail in H.
Qed.

(** *** Direct messages of senders that are not listed *)

(** X6. Under [dmPolicy] ["pairing"] (the default) and ["allowlist"] a
    direct message goes on to the agent only when the merged allowlist
    admits the sender.  The message of any other sender is never
    recorded or dispatched; the last thing the handler does is to log
    the drop with the policy.  Only under ["pairing"] a pairing request
    is made for the sender, and a pairing reply is sent only when the
    request is new, to the address ["user:"] with the sender id, which
    parses to the sender; a failure of that send is logged and does not
    stop the handler. *)
Theorem unlisted_dm_sender (host : Host) (event : OneBotMessageEvent)
    (account : ResolvedOneBotAccount) (inb : Inbound) :
  resolveInbound event account = Some inb -> isGroup inb = false ->
  let policy := default DmPairing (dmPolicy (config account)) in
  let effects := handleOneBotMessage host event account in
  let request := upsertPairingRequest host (senderId inb) (resolveSenderName event) in
  let address := lit "user:" ++ senderId inb in
  let reply :=
    buildPairingReply host (lit "Your QQ user id: " ++ senderId inb) (code request) in
  policy = DmPairing ∨ policy = DmAllowlist ->
  (isAllowed (effectiveAllowFrom host account) (Some (senderId inb)) = true ->
     effects = StatusLastInboundAt :: afterAdmission host event account inb)
  ∧ (isAllowed (effectiveAllowFrom host account) (Some (senderId inb)) = false ->
     (forall ctx, RecordInboundSession ctx ∉ effects)
     ∧ (forall ctx streaming, DispatchReply ctx streaming ∉ effects)
     ∧ last effects
       = Some (RuntimeLog (lit "onebot: drop DM sender " ++ senderId inb
                             ++ lit " (dmPolicy=" ++ dmPolicyName policy ++ lit ")"))
     ∧ (forall id name, UpsertPairingRequest id name ∈ effects
          <-> policy = DmPairing ∧ id = senderId inb ∧ name = resolveSenderName event)
     ∧ (forall to text, SendOneBotMessage to text ∈ effects
          <-> policy = DmPairing ∧ created request = true
              ∧ to = address ∧ text = reply)
     ∧ (forall message, RuntimeError message ∈ effects
          <-> policy = DmPairing ∧ created request = true
              ∧ exists err, sendOneBotMessage host address reply = Some err
                            ∧ message = lit "onebot: pairing reply failed for "
                                          ++ senderId inb ++ lit ": " ++ err)
     ∧ parseOneBotTarget address = Some (User (senderId inb))).
Proof.
  intros H Hg policy effects request address reply Hpolicy.
  subst effects. unfold handleOneBotMessage. rewrite H, Hg. unfold admitDirect.
  fold policy. fold request. fold address. fold reply.
  split.
  { intros ->. by destruct Hpolicy as [-> | ->]. }
  intros ->.
  assert (parseOneBotTarget address = Some (User (senderId inb))) as Hparse.
  { apply parse_canonical_user. by destruct (resolveInbound_chat _ _ _ H) as (_ & _ & _ & ?). }
  destruct Hpolicy as [-> | ->]; cbn [dmPolicyName].
  - destruct (created request) eqn:Ec;
      [destruct (sendOneBotMessage host address reply) as [err|] eqn:Es|];
      cbn [app]; (split; [|split; [|split; [|split; [|split; [|split]]]]]);
      try done; in_list.
  - cbn [app]. (split; [|split; [|split; [|split; [|split; [|split]]]]]);
      try done; in_list.
Qed.

End Engine.

Section Samples.

#[local] Existing Instance sampleEngine.

Lemma unlisted_dm_sender_witness :
  let event := sampleEvent "private" "123" None "hi" in
  let account := sampleAccount (sampleConfig None (Some [lit "456"]) None None) in
  let effects := handleOneBotMessage (sampleHost []) event account in
  (forall ctx streaming, DispatchReply ctx streaming ∉ effects)
  ∧ SendOneBotMessage (lit "user:123") (lit "Your QQ user id: 123 code K7Q2")
    ∈ effects.
Proof.
  intros event account effects.
  destruct (resolveInbound event account) as [inb|] eqn:E; [|by vm_compute in E].
  assert (isGroup inb = false ∧ senderId inb = lit "123") as [Hg Hs].
  { vm_compute in E. injection E as <-. by split. }
  destruct (unlisted_dm_sender (sampleHost []) event account inb E Hg
              (or_introl eq_refl)) as [_ Hn].
  destruct Hn as (_ & Hd & _ & _ & Hsend & _).
  { rewrite Hs. vm_compute. reflexivity. }
  split; [exact Hd|]. apply Hsend. rewrite Hs.
  split; [reflexivity|]. split; [reflexivity|]. split; reflexivity.
Defined.

End Samples.

(** *** Switches of a group *)

Section Engine.

Context `{engine : Engine}.

Lemma getGroup_wildcard (configured : gmap jsstring OneBotGroupConfig) :
  getGroup configured (lit "*") = configured !! lit "*".
Proof.
  unfold getGroup. destruct (configured !! lit "*"); [done|].
  rewrite bool_decide_eq_false_2; [done|]. unfold objectPrototypeKeys.
  intros H. repeat (apply elem_of_cons in H as [H|H]; [by vm_compute in H|]).
  by apply elem_of_nil in H.
Qed.

(** X7. For a group-like message whose group passes the allowlist of
    groups: the entry of the group is the one under its key; when there
    is none and the key is the name of a member of [Object.prototype],
    such as ["constructor"], it is that member, which switches nothing
    off; else it is the entry under ["*"].  An entry with
    [enabled: false] drops the message whatever the group policy is;
    otherwise the policy ["disabled"] drops it, and the policy ["open"]
    lets it go on without looking at any sender allowlist.  So the
    entry under ["*"] does not switch off a group that has no entry and
    is named like a member of [Object.prototype]. *)
Theorem group_switches (host : Host) (event : OneBotMessageEvent)
    (account : ResolvedOneBotAccount) (inb : Inbound) :
  resolveInbound event account = Some inb -> isGroup inb = true ->
  let configured := default ∅ (groups (config account)) in
  let policy := default GroupAllowlist (groupPolicy (config account)) in
  let effects := handleOneBotMessage host event account in
  exists key,
    groupKey inb = Some key
    ∧ let entry :=
        match configured !! key with
        | Some c => Some c
        | None =>
            if bool_decide (key ∈ objectPrototypeKeys) then Some inheritedMember
            else configured !! lit "*"
        end in
      (size configured = 0%nat ∨ key ∈ dom configured ∨ lit "*" ∈ dom configured ->
       (entry ≫= enabled = Some false ->
          effects = [StatusLastInboundAt;
                     RuntimeLog (lit "onebot: drop group " ++ key ++ lit " (disabled)")])
       ∧ (entry ≫= enabled ≠ Some false -> policy = GroupDisabled ->
          effects = [StatusLastInboundAt;
                     RuntimeLog (lit "onebot: drop group " ++ key
                                   ++ lit " (groupPolicy=disabled)")])
       ∧ (entry ≫= enabled ≠ Some false -> policy = GroupOpen ->
          effects = StatusLastInboundAt :: afterAdmission host event account inb)
       ∧ (configured !! key = None -> key ∈ objectPrototypeKeys ->
          policy = GroupOpen ->
          effects = StatusLastInboundAt :: afterAdmission host event account inb)).
Proof.
  intros H Hg configured policy effects.
  assert (exists key, groupKey inb = Some key ∧ key ≠ []) as (key & Hk & Hne).
  { destruct (resolveInbound_groupKey _ _ _ H Hg)
      as [(_ & g & _ & Hne & Hk)|(_ & g & c & _ & _ & Hk)]; by eexists. }
  exists key. split; [done|]. intros entry Hallowed.
  apply (resolveGroupConfig_allowed (groups (config account)) key Hne) in Hallowed.
  subst effects. unfold handleOneBotMessage, admitGroup. rewrite H, Hg, Hk, Hallowed.
  cbn [negb]. unfold admitGroupPolicy, dropGroupMessage. rewrite Hk.
  assert (groupConfig (resolveGroupConfig (groups (config account)) (Some key)) = entry)
    as ->.
  { unfold resolveGroupConfig. simpl.
    rewrite (proj2 (truthy_ne key) Hne), getGroup_wildcard. fold configured.
    subst entry. unfold getGroup.
    destruct (configured !! key); [done|]. by destruct (bool_decide _). }
  fold policy. split; [|split; [|split]].
  - by intros ->.
  - intros He ->. by destruct (entry ≫= enabled) as [[|]|].
  - intros He ->. by destruct (entry ≫= enabled) as [[|]|].
  - intros Hnone Hin ->.
    assert (entry ≫= enabled = None) as ->; [|done].
    subst entry. rewrite Hnone. by rewrite bool_decide_eq_true_2.
Qed.

End Engine.

Section Samples.

#[local] Existing Instance sampleEngine.

Lemma group_switches_witness :
  let closed : gmap jsstring OneBotGroupConfig :=
    {[ lit "*" := {| enabled := Some false; groupRequireMention := None |} ]} in
  let account := sampleAccount (sampleConfig None None None (Some closed)) in
  handleOneBotMessage (sampleHost []) (sampleEvent "group" "123" (Some (lit "6")) "hi")
    account
  = [StatusLastInboundAt; RuntimeLog (lit "onebot: drop group 6 (disabled)")].
Proof.
  intros closed account.
  set (event := sampleEvent "group" "123" (Some (lit "6")) "hi").
  destruct (resolveInbound event account) as [inb|] eqn:E; [|by vm_compute in E].
  assert (isGroup inb = true ∧ groupKey inb = Some (lit "6")) as [Hg Hk].
  { vm_compute in E. injection E as <-. by split. }
  destruct (group_switches (sampleHost []) event account inb E Hg)
    as (key & Hkey & Hs).
  rewrite Hk in Hkey. injection Hkey as <-.
  apply Hs.
  - right; right. subst account closed. simpl.
    rewrite dom_singleton_L. by apply elem_of_singleton.
  - subst account closed. vm_compute. reflexivity.
Defined.

End Samples.

(** *** Allowlist entries with a prefix *)

Section Engine.

Context `{engine : Engine}.

Lemma caseVariant_length q k : caseVariant q k -> length q = length (lit k).
Proof. unfold caseVariant. intros <-. by rewrite length_toLowerCase. Qed.

Lemma userPrefix_long q : userPrefix q -> (3 <= length q)%nat.
Proof.
  intros [H|[H|[H|H]]]; apply caseVariant_length in H; rewrite H; simpl; lia.
Qed.

Lemma trimEnd_head c s : trimEnd (c :: s) = [] ∨ exists t, trimEnd (c :: s) = c :: t.
Proof.
  destruct (trimEnd s) as [|d t] eqn:E.
  - change (c :: s) with ([c] ++ s). rewrite trimEnd_app_nil by done.
    destruct (isWhiteSpace c) eqn:Ec.
    + left. exact (trimEnd_snoc_ws [] c Ec).
    + right. exists []. exact (trimEnd_snoc [] c Ec).
  - right. exists (d :: t). change (c :: s) with ([c] ++ s).
    rewrite trimEnd_app by by rewrite E. by rewrite E.
Qed.

(** X8. With the case mappings of Unicode: an allowlist entry written
    with a user prefix, in any ASCII case, admits exactly the senders
    whose trimmed id is not empty and is, in lower case, what follows
    the prefix without its trailing white space, in lower case.  White
    space right after the prefix is kept, so such an entry admits
    nobody. *)
Theorem prefixed_allowlist_entry (q id sender : jsstring) :
  LawfulLowerCase -> userPrefix q ->
  (isAllowed (normalizeAllowlist (Some [q ++ id])) (Some sender) = true
   <-> trim sender ≠ []
       ∧ toLowerCaseFull (trimEnd id) = toLowerCaseFull (trim sender))
  ∧ (forall c id', id = c :: id' -> isWhiteSpace c = true ->
       isAllowed (normalizeAllowlist (Some [q ++ id])) (Some sender) = false).
Proof.
  intros [Hnil Hspace Hsolid] Hq.
  assert (isAllowed (normalizeAllowlist (Some [q ++ id])) (Some sender) = true
          <-> trim sender ≠ []
              ∧ toLowerCaseFull (trimEnd id) = toLowerCaseFull (trim sender))
    as Hiff.
  { unfold normalizeAllowlist, normalizeAllowlistStep. simpl.
    rewrite trim_userPrefix by done.
    pose proof (userPrefix_long q Hq) as Hlen.
    assert (truthy (q ++ trimEnd id) = true) as ->
      by (destruct q; [simpl in Hlen; lia|done]).
    assert (strictEq (q ++ trimEnd id) (lit "*") = false) as ->.
    { apply strictEq_false. intros Heq. apply (f_equal length) in Heq.
      rewrite length_app in Heq. simpl in Heq. lia. }
    simpl. rewrite normalizeOneBotUserId_prefixed by done.
    rewrite trimEnd_idem. unfold isAllowed. simpl.
    destruct (trim sender) as [|c s] eqn:Es.
    - rewrite Hnil. simpl. split; [done|]. by intros [? _].
    - destruct (Hsolid c s (trim_head sender c s Es)) as (c' & s' & -> & _). simpl.
      rewrite bool_decide_eq_true, elem_of_union, elem_of_singleton.
      split.
      + intros [Heq|Hin]; [|by apply not_elem_of_empty in Hin]. by split.
      + intros [_ Heq]. by left. }
  split; [done|].
  intros c id' -> Hc. apply not_true_is_false. rewrite Hiff. intros [Hne Heq].
  destruct (trim sender) as [|d s] eqn:Es; [done|].
  destruct (Hsolid d s (trim_head sender d s Es)) as (d' & s' & Hd & Hsolid').
  rewrite Hd in Heq.
  destruct (trimEnd_head c id') as [E|[t E]]; rewrite E in Heq.
  - by rewrite Hnil in Heq.
  - rewrite (Hspace c t Hc) in Heq. injection Heq as -> _. congruence.
Qed.

End Engine.

Section Samples.

#[local] Existing Instance sampleEngine.

Lemma sampleEngine_lawful : LawfulLowerCase.
Proof.
  constructor; simpl.
  - done.
  - intros c s Hc. f_equal. unfold toLowerCaseUnit.
    destruct ((65 <=? c) && (c <=? 90)) eqn:E; [|done].
    rewrite <- (isWhiteSpace_lower c) in Hc. unfold toLowerCaseUnit in Hc.
    rewrite E in Hc. apply andb_true_iff in E as [E1 E2].
    apply N.leb_le in E1, E2. unfold isWhiteSpace in Hc.
    apply orb_true_iff in Hc as [Hc|Hc].
    + apply existsb_exists in Hc as (x & Hx & Heq). apply N.eqb_eq in Heq.
      simpl in Hx. lia.
    + apply andb_true_iff in Hc as [Hc _]. apply N.leb_le in Hc. lia.
  - intros c s Hc. exists (toLowerCaseUnit c), (toLowerCase s). split; [done|].
    by rewrite isWhiteSpace_lower.
Qed.

Lemma prefixed_allowlist_entry_witness :
  isAllowed (normalizeAllowlist (Some [lit "QQ:" ++ lit "Alice "])) (Some (lit " ALICE"))
  = true
  ∧ isAllowed (normalizeAllowlist (Some [lit "QQ:" ++ lit " alice"])) (Some (lit "alice"))
    = false.
Proof.
  assert (userPrefix (lit "QQ:")) as Hq by (do 3 right; reflexivity).
  split.
  - apply (proj1 (prefixed_allowlist_entry (lit "QQ:") (lit "Alice ") (lit " ALICE")
                    sampleEngine_lawful Hq)).
    split; [discriminate|reflexivity].
  - apply (proj2 (prefixed_allowlist_entry (lit "QQ:") (lit " alice") (lit "alice")
                    sampleEngine_lawful Hq)
             32 (lit "alice")); reflexivity.
Defined.

End Samples.

(** *** Mentions *)

Section Engine.

Context `{engine : Engine}.

Lemma mention_fold selfId segments acc :
  let signals := foldl (mentionSignalsStep selfId) acc segments in
  (hasAnyMention signals = true
   <-> hasAnyMention acc = true
       ∨ exists seg, seg ∈ segments
           ∧ (segType seg = lit "mention" ∨ segType seg = lit "mention_all"))
  ∧ (mentionedSelf signals = true
     <-> mentionedSelf acc = true
         ∨ exists seg, seg ∈ segments
             ∧ (segType seg = lit "mention_all"
                ∨ (segType seg = lit "mention"
                   ∧ exists s, selfId = Some s ∧ s ≠ []
                       ∧ (fun v => trim (String_ v)) <$> (data seg ≫= user_id)
                         = Some s))).
Proof.
  revert acc. induction segments as [|seg segments IH]; intros acc; simpl.
  - split; (split; [by left|]); intros [?|(seg & Hin & _)]; try done;
      by apply elem_of_nil in Hin.
  - destruct (IH (mentionSignalsStep selfId acc seg)) as [IH1 IH2].
    rewrite IH1, IH2. clear IH IH1 IH2.
    setoid_rewrite elem_of_cons. unfold mentionSignalsStep.
    destruct (strictEq (segType seg) (lit "mention_all")) eqn:Ea.
    { apply strictEq_true in Ea. simpl. split; split; try naive_solver. }
    apply strictEq_false in Ea.
    destruct (strictEq (segType seg) (lit "mention")) eqn:Em.
    2:{ apply strictEq_false in Em. split; split; naive_solver. }
    apply strictEq_true in Em.
    destruct (ifTruthy selfId) as [s|] eqn:Es.
    + apply ifTruthy_Some in Es as [-> Hs].
      destruct (ifTruthy _) as [u|] eqn:Eu.
      * apply ifTruthy_Some in Eu as [Eu Hu]. simpl.
        destruct (strictEq u s) eqn:Eq.
        -- apply strictEq_true in Eq as ->. split; split; naive_solver.
        -- apply strictEq_false in Eq. split; split; naive_solver.
      * simpl. split; split; try naive_solver.
        intros [?|(seg' & [->|Hin] & Hseg)]; [by left| |naive_solver].
        destruct Hseg as [?|(_ & s' & [= <-] & _ & Hu)]; [done|].
        rewrite Hu in Eu. simpl in Eu. by destruct s.
    + simpl. split; split; try naive_solver.
      intros [?|(seg' & [->|Hin] & Hseg)]; [by left| |naive_solver].
      destruct Hseg as [?|(_ & s' & -> & Hs' & _)]; [done|].
      simpl in Es. by destruct s'.
Qed.

(** X9. What [resolveMentionSignals] reports: a mention was seen exactly
    when the message has a ["mention"] or ["mention_all"] segment; the
    bot was mentioned exactly when there is a ["mention_all"] segment,
    or a ["mention"] segment whose user id, as a string and trimmed, is
    the trimmed id of the bot, provided that id is not empty.  A bot
    that was mentioned has seen a mention. *)
Theorem mention_signals (segments : list OneBotMessageSegment)
    (selfId : option jsstring) :
  let signals := resolveMentionSignals segments selfId in
  (hasAnyMention signals = true
   <-> exists seg, seg ∈ segments
         ∧ (segType seg = lit "mention" ∨ segType seg = lit "mention_all"))
  ∧ (mentionedSelf signals = true
     <-> exists seg, seg ∈ segments
           ∧ (segType seg = lit "mention_all"
              ∨ (segType seg = lit "mention"
                 ∧ exists s, trim <$> selfId = Some s ∧ s ≠ []
                     ∧ (fun v => trim (String_ v)) <$> (data seg ≫= user_id)
                       = Some s)))
  ∧ (mentionedSelf signals = true -> hasAnyMention signals = true).
Proof.
  intros signals. subst signals. unfold resolveMentionSignals.
  destruct (mention_fold (trim <$> selfId) segments
              {| hasAnyMention := false; mentionedSelf := false |}) as [H1 H2].
  simpl in H1, H2. rewrite H1, H2. clear H1 H2.
  split; [naive_solver|]. split; [naive_solver|].
  intros [[=]|(seg & Hin & Hseg)]. right. exists seg. naive_solver.
Qed.

(** *** What reaches the agent *)

Lemma admitDirect_Reject host event account inb effects :
  admitDirect host event account inb = Reject effects ->
  forall ctx streaming, DispatchReply ctx streaming ∉ effects.
Proof.
  unfold admitDirect. intros H ctx streaming.
  repeat case_match; try done; injection H as <-; in_list.
Qed.

Lemma admitGroup_Reject host account inb effects :
  admitGroup host account inb = Reject effects ->
  forall ctx streaming, DispatchReply ctx streaming ∉ effects.
Proof.
  unfold admitGroup, admitGroupPolicy. intros H ctx streaming.
  repeat case_match; try done; injection H as <-; in_list.
Qed.

Lemma afterAdmission_dispatch host event account inb ctx streaming :
  DispatchReply ctx streaming ∈ afterAdmission host event account inb ->
  afterAdmission host event account inb
  = [RecordInboundSession ctx; DispatchReply ctx streaming]
  ∧ streaming = negb <$> blockStreaming (config account)
  ∧ From ctx = lit "onebot:" ++ target inb
  ∧ To ctx = From ctx ∧ OriginatingTo ctx = From ctx
  ∧ SenderId ctx = senderId inb
  ∧ RawBody ctx = rawText inb ∧ CommandBody ctx = rawText inb
  ∧ ctxChatType ctx = chatType inb
  ∧ (is_Some (WasMentioned ctx) <-> isGroup inb = true).
Proof.
  unfold afterAdmission.
  destruct (isGroup inb && shouldBlock _); [in_list|].
  destruct (isGroup inb && shouldSkip _); [in_list|].
  rewrite !elem_of_cons, elem_of_nil. intros [[=]|[Heq|[]]].
  injection Heq as -> ->.
  cbn [From To OriginatingTo SenderId RawBody CommandBody ctxChatType WasMentioned].
  repeat split; try done; destruct (isGroup inb); try done;
    intros H; try done; by apply is_Some_None in H.
Qed.

(** X10. The handler hands a message to the agent at most once, right
    after recording its session with the same context and as the last
    thing it does.  That context names the address of the event as
    sender, receiver and origin, carries the sender id, the chat type
    and the text of the message, which is never empty, and says whether
    the bot was mentioned exactly for group-like chats. *)
Theorem dispatch_follows_record (host : Host) (event : OneBotMessageEvent)
    (account : ResolvedOneBotAccount) (ctx : InboundContext)
    (streaming : option bool) :
  DispatchReply ctx streaming ∈ handleOneBotMessage host event account ->
  handleOneBotMessage host event account
  = [StatusLastInboundAt; RecordInboundSession ctx; DispatchReply ctx streaming]
  ∧ streaming = negb <$> blockStreaming (config account)
  ∧ exists inb,
      resolveInbound event account = Some inb
      ∧ From ctx = lit "onebot:" ++ target inb
      ∧ To ctx = From ctx ∧ OriginatingTo ctx = From ctx
      ∧ SenderId ctx = senderId inb
      ∧ RawBody ctx = rawText inb ∧ CommandBody ctx = rawText inb
      ∧ RawBody ctx ≠ []
      ∧ ctxChatType ctx = chatType inb
      ∧ (is_Some (WasMentioned ctx) <-> isGroup inb = true).
Proof.
  unfold handleOneBotMessage.
  destruct (resolveInbound event account) as [inb|] eqn:E; [|in_list].
  assert (rawText inb ≠ []) as Htext.
  { unfold resolveInbound in E.
    repeat case_match; try done; injection E as <-; simpl;
      by apply negb_truthy_false. }
  intros [[=]|Hin]%elem_of_cons.
  assert (DispatchReply ctx streaming ∈ afterAdmission host event account inb
          ∧ (if isGroup inb then admitGroup host account inb
             else admitDirect host event account inb) = Admit) as [Hafter Hadmit].
  { destruct (isGroup inb).
    - destruct (admitGroup host account inb) as [|effects] eqn:Ea; [done|].
      by apply (admitGroup_Reject _ _ _ _ Ea) in Hin.
    - destruct (admitDirect host event account inb) as [|effects] eqn:Ea; [done|].
      by apply (admitDirect_Reject _ _ _ _ _ Ea) in Hin. }
  rewrite Hadmit.
  destruct (afterAdmission_dispatch _ _ _ _ _ _ Hafter)
    as (-> & Hs & H1 & H2 & H3 & H4 & H5 & H6 & H7 & H8).
  split; [done|]. split; [done|]. exists inb.
  repeat split; try done; try apply H8. by rewrite H5.
Qed.

End Engine.

Section Samples.

#[local] Existing Instance sampleEngine.

Lemma dispatch_follows_record_witness :
  let event := sampleEvent "private" "123" None "hi" in
  let account := sampleAccount (sampleConfig (Some DmOpen) (Some []) None None) in
  exists ctx,
    handleOneBotMessage (sampleHost []) event account
    = [StatusLastInboundAt; RecordInboundSession ctx; DispatchReply ctx None]
    ∧ From ctx = lit "onebot:user:123".
Proof.
  intros event account.
  destruct (handleOneBotMessage (sampleHost []) event account)
    as [|e1 [|e2 [|e3 rest]]] eqn:E; try (by vm_compute in E).
  destruct e3 as [| | | | | | | |ctx streaming]; try (by vm_compute in E).
  assert (streaming = None ∧ From ctx = lit "onebot:user:123") as [-> Hfrom].
  { vm_compute in E. injection E as _ _ <- <- _. by split. }
  exists ctx. split; [|done].
  rewrite <- E.
  apply (dispatch_follows_record (sampleHost []) event account ctx None).
  rewrite E. do 2 apply list_elem_of_further. apply list_elem_of_here.
Defined.

End Samples.

(** *** Delivering a reply *)

Lemma trimStart_split s :
  exists p, s = p ++ trimStart s ∧ Forall (fun c => isWhiteSpace c = true) p.
Proof.
  induction s as [|c s (p & Hs & Hp)]; [by exists []|]. simpl.
  destruct (isWhiteSpace c) eqn:Ec.
  - exists (c :: p). split; [by rewrite Hs at 1|by constructor].
  - by exists [].
Qed.

Lemma trimStart_nil_inv s :
  trimStart s = [] -> Forall (fun c => isWhiteSpace c = true) s.
Proof.
  intros H. destruct (trimStart_split s) as (p & Hs & Hp).
  rewrite H, app_nil_r in Hs. by subst.
Qed.

Lemma trim_nil_inv s : trim s = [] -> Forall (fun c => isWhiteSpace c = true) s.
Proof.
  unfold trim, trimEnd. intros H%trimStart_nil_inv.
  apply List.Forall_rev in H. rewrite rev_involutive in H.
  destruct (trimStart_split (rev s)) as (p & Hs & Hp).
  assert (Forall (fun c => isWhiteSpace c = true) (rev s)) as Hr
    by (rewrite Hs; apply Forall_app; by split).
  apply List.Forall_rev in Hr. by rewrite rev_involutive in Hr.
Qed.

(** A string that holds a code unit that is not white space is not
    blank. *)
Lemma trim_solid a c b : isWhiteSpace c = false -> trim (a ++ c :: b) ≠ [].
Proof.
  intros Hc H%trim_nil_inv. apply Forall_app in H as [_ H].
  inversion H; subst. congruence.
Qed.

Lemma mediaBlock_solid url urls :
  exists rest, mediaBlock (url :: urls) = 65 :: rest.
Proof.
  unfold mediaBlock. simpl. destruct urls; simpl; by eexists.
Qed.

Lemma combinedText_nonblank payload :
  trim (default [] (payloadText payload)) ≠ [] ∨ replyMediaUrls payload ≠ [] ->
  trim (combinedText payload) ≠ [].
Proof.
  unfold combinedText.
  destruct (trim (default [] (payloadText payload))) as [|c text] eqn:Et; simpl.
  - intros [?|Hm]; [done|].
    destruct (replyMediaUrls payload) as [|url urls]; [done|].
    destruct (mediaBlock_solid url urls) as [rest ->].
    by apply (trim_solid [] 65 rest).
  - intros _. pose proof (trim_head _ c text Et) as Hc.
    destruct (truthy (mediaBlock _)).
    + by apply (trim_solid [] c).
    + rewrite <- Et, trim_idem, Et. done.
Qed.

(** X11. [deliverOneBotReply] sends a reply exactly when it has text
    that is not blank or a media URL, where the list [mediaUrls], when
    it has entries, replaces the single [mediaUrl].  What it sends goes
    to the given address and is never blank, so that
    [sendOneBotMessage] does not skip it; text without media is sent
    trimmed.  The outbound time is reported exactly when the send did
    not throw, and an error of the send is passed on. *)
Theorem reply_delivery (host : Host) (payload : ReplyPayload) (target : jsstring) :
  let result := deliverOneBotReply host payload target in
  let text := trim (default [] (payloadText payload)) in
  (result.1 = [] <-> text = [] ∧ replyMediaUrls payload = [])
  ∧ (forall to sent, SendOneBotMessage to sent ∈ result.1 ->
       to = target ∧ sent = combinedText payload ∧ trim sent ≠ [])
  ∧ (forall url urls, mediaUrls payload = Some (url :: urls) ->
       replyMediaUrls payload = url :: urls)
  ∧ (text ≠ [] -> replyMediaUrls payload = [] -> combinedText payload = text)
  ∧ (StatusLastOutboundAt ∈ result.1 <-> result.1 ≠ [] ∧ result.2 = None)
  ∧ (forall err, result.2 = Some err ->
       sendOneBotMessage host target (combinedText payload) = Some err).
Proof.
  intros result text. subst result. unfold deliverOneBotReply.
  destruct (negb (truthy (trim (combinedText payload)))) eqn:Eb.
  - apply negb_truthy in Eb.
    assert (text = [] ∧ replyMediaUrls payload = []) as [Ht Hm].
    { destruct (decide (text = [])) as [Ht|Ht];
        [destruct (decide (replyMediaUrls payload = [])) as [Hm|Hm]; [done|]|];
        exfalso; apply (combinedText_nonblank payload); auto. }
    simpl. split; [done|]. split; [in_list|]. split.
    { intros url urls Hu. unfold replyMediaUrls in *. by rewrite Hu in *. }
    split; [done|]. split; [|done]. split; [in_list|]. by intros [? _].
  - apply negb_truthy_false in Eb.
    assert (~ (text = [] ∧ replyMediaUrls payload = [])) as Hsome.
    { intros [Ht Hm]. apply Eb. unfold combinedText. fold text. rewrite Ht, Hm. done. }
    assert (text ≠ [] -> replyMediaUrls payload = [] -> combinedText payload = text)
      as Htext.
    { intros Ht Hm. unfold combinedText. fold text. rewrite Hm.
      by destruct text. }
    assert (forall url urls, mediaUrls payload = Some (url :: urls) ->
              replyMediaUrls payload = url :: urls) as Hurls.
    { intros url urls Hu. unfold replyMediaUrls. by rewrite Hu. }
    destruct (sendOneBotMessage host target (combinedText payload)) as [err|] eqn:Es;
      simpl.
    + split; [done|]. split; [in_list|]. split; [done|]. split; [done|].
      split; [|by intros ? [= <-]]. split; [in_list|]. by intros [_ ?].
    + split; [done|]. split; [in_list|]. split; [done|]. split; [done|].
      split; [|done]. split; [done|]. intros _. in_list.
Qed.

(** *** The text of a message *)

Lemma segmentText_blank segment :
  Forall (fun c => isWhiteSpace c = true) (segmentText segment) ->
  segType segment = lit "text".
Proof.
  unfold segmentText.
  destruct (strictEq (segType segment) (lit "text")) eqn:Et;
    [intros _; by apply bool_decide_eq_true in Et|].
  destruct (strictEq (segType segment) (lit "mention")).
  { destruct (truthy _); intros H; inversion H; subst; discriminate. }
  destruct (strictEq (segType segment) (lit "mention_all"));
    intros H; inversion H; subst; discriminate.
Qed.

Lemma pieces_blank segments :
  Forall (fun c => isWhiteSpace c = true) (concat (List.map segmentText segments)) ->
  Forall (fun segment => segType segment = lit "text") segments.
Proof.
  induction segments as [|segment segments IH]; [constructor|].
  simpl. intros [H1 H2]%Forall_app. constructor; [by apply segmentText_blank|auto].
Qed.

(** X12. The text of a message never begins or ends with white space.
    It is the trimmed [alt_message] when that is not blank, whatever
    the segments are. Otherwise it is empty only when every segment is
    a text segment: a segment of any other kind gives a text that is
    not empty. *)
Theorem message_text (event : OneBotMessageEvent) :
  let rawText := (resolveMessageText event).1 in
  let alt := default [] (trim <$> alt_message event) in
  trim rawText = rawText
  ∧ (resolveMessageText event).2 = default [] (message event)
  ∧ (alt ≠ [] -> rawText = alt)
  ∧ (rawText = [] ->
     alt = []
     ∧ Forall (fun segment => segType segment = lit "text")
         (default [] (message event))).
Proof.
  intros rawText alt. subst rawText. unfold resolveMessageText. fold alt.
  assert (trim alt = alt) as Halt.
  { subst alt. destruct (alt_message event); simpl; [apply trim_idem|done]. }
  destruct alt as [|c alt'] eqn:Ea; simpl.
  - split; [apply trim_idem|]. split; [done|]. split; [done|].
    intros H%trim_nil_inv. split; [done|]. by apply pieces_blank.
  - done.
Qed.

End HandlerFacts.

(** ** Outbound sending: more of outbound.ts *)

Module SendFacts.
Import Js Types Targets ClientRegistry Outbound JsFacts TargetsFacts MonitorFacts.
Import OutboundFacts.

(** *** The response to [send_message] *)

Section Engine.

Context `{engine : Engine}.

(** [response.status] does not report a failure: it is missing, falsy,
    or the string ["ok"]. *)
Definition statusOk (response : Json) : Prop :=
  forall status, prop response "status" = Some status ->
    jsonTruthy status = false ∨ status = JString (lit "ok").

(** [response.retcode] does not report a failure: it is no number, or 0. *)
Definition retcodeOk (response : Json) : Prop :=
  forall n, prop response "retcode" = Some (JNumber n) -> isZero n = true.

(** [response.message || fallback], as the text of the error *)
Definition errorText (response : Json) (fallback : jsstring) : jsstring :=
  match prop response "message" with
  | Some m => if jsonTruthy m then toStr m else fallback
  | None => fallback
  end.

(** The status as the error names it, when it reports a failure. *)
Definition failedStatus (status : Json) : option jsstring :=
  match status with
  | JString s => if truthy s && negb (strictEq s (lit "ok")) then Some s else None
  | _ => if jsonTruthy status then Some (toStr status) else None
  end.

Lemma failedStatus_spec status :
  (failedStatus status = None
   <-> jsonTruthy status = false ∨ status = JString (lit "ok"))
  ∧ (forall rendering, failedStatus status = Some rendering -> rendering = toStr status).
Proof.
  destruct status as [|b|n|s|items|members]; simpl.
  - split; [naive_solver|done].
  - destruct b; split; naive_solver.
  - destruct n as [| | |q]; simpl; try (split; naive_solver).
    destruct (Qeq_bool q 0); split; naive_solver.
  - destruct (truthy s) eqn:Et; simpl.
    + destruct (strictEq s (lit "ok")) eqn:Eo; simpl.
      * apply strictEq_true in Eo as ->. split; naive_solver.
      * apply strictEq_false in Eo. split; [|naive_solver].
        split; [done|]. intros [?|[= ?]]; done.
    + split; naive_solver.
  - split; [|naive_solver]. split; [done|]. by intros [?|?].
  - split; [|naive_solver]. split; [done|]. by intros [?|?].
Qed.

Lemma statusOk_spec response :
  statusOk response <-> prop response "status" ≫= failedStatus = None.
Proof.
  unfold statusOk. destruct (prop response "status") as [status|]; simpl.
  - destruct (failedStatus_spec status) as [-> _].
    split; [intros H; by apply H|by intros H ? [= <-]].
  - split; done.
Qed.

(** What the check of [response.retcode] comes to. *)
Definition retcodeResult (target : jsstring) (response : Json) : SendOutcome :=
  match prop response "retcode" with
  | Some (JNumber n) =>
      if negb (isZero n)
      then Threw (errorText response
                    (lit "OneBot send_message retcode " ++ numberToString n))
      else Returned {| channel := CHANNEL_ID; to := target |}
  | _ => Returned {| channel := CHANNEL_ID; to := target |}
  end.

Lemma retcode_spec target response :
  (retcodeOk response
   ∧ retcodeResult target response = Returned {| channel := lit "onebot"; to := target |})
  ∨ (~ retcodeOk response
     ∧ exists n, prop response "retcode" = Some (JNumber n)
         ∧ retcodeResult target response
           = Threw (errorText response
                      (lit "OneBot send_message retcode " ++ numberToString n))).
Proof.
  unfold retcodeOk, retcodeResult.
  destruct (prop response "retcode") as [[| |n| | |]|]; try (by left).
  destruct (isZero n) eqn:En; simpl.
  - left. split; [by intros ? [= <-]|done].
  - right. split; [|by exists n].
    intros H. specialize (H n eq_refl). congruence.
Qed.

Lemma afterSendAction_eq target response :
  afterSendAction target (inr response)
  = match prop response "status" ≫= failedStatus with
    | Some rendering =>
        Threw (errorText response
                 (lit "OneBot send_message failed (" ++ rendering ++ lit ")"))
    | None => retcodeResult target response
    end.
Proof.
  unfold afterSendAction, retcodeResult. fold (errorText response).
  by destruct (prop response "status") as [[]|].
Qed.

(** X13. Once [sendAction] has settled, [sendOneBotMessage] returns
    [{channel: "onebot", to: target}] exactly when the status of the
    response is missing, falsy or ["ok"] and its [retcode] is no number
    or 0.  A failing status is reported before a failing [retcode]; the
    error carries the [message] of the response when it has one, and
    else names the status or the [retcode] as the engine prints them.
    A rejection of [sendAction] is thrown as it is. *)
Theorem send_result_of_response (target : jsstring) (response : Json) :
  (afterSendAction target (inr response)
   = Returned {| channel := lit "onebot"; to := target |}
   <-> statusOk response ∧ retcodeOk response)
  ∧ (~ statusOk response ->
     exists status rendering,
       prop response "status" = Some status ∧ rendering = toStr status
       ∧ afterSendAction target (inr response)
         = Threw (errorText response
                    (lit "OneBot send_message failed (" ++ rendering ++ lit ")")))
  ∧ (statusOk response -> ~ retcodeOk response ->
     exists n,
       prop response "retcode" = Some (JNumber n)
       ∧ afterSendAction target (inr response)
         = Threw (errorText response
                    (lit "OneBot send_message retcode " ++ numberToString n)))
  ∧ (forall err, afterSendAction target (inl err) = Threw err).
Proof.
  rewrite afterSendAction_eq, statusOk_spec.
  destruct (prop response "status") as [status|] eqn:Es; simpl.
  - destruct (failedStatus status) as [rendering|] eqn:Ef.
    + destruct (failedStatus_spec status) as [_ Hr].
      specialize (Hr rendering Ef) as ->.
      split; [split; [done|by intros [? _]]|].
      split; [intros _; by exists status, (toStr status)|]. by split.
    + split; [|split; [done|split; [|done]]].
      * destruct (retcode_spec target response) as [[Hok ->]|(Hbad & n & _ & ->)];
          [done|]. split; [done|]. by intros [_ ?].
      * intros _ Hbad.
        destruct (retcode_spec target response) as [[Hok _]|(_ & n & Hn & ->)];
          [done|by exists n].
  - split; [|split; [done|split; [|done]]].
    + destruct (retcode_spec target response) as [[Hok ->]|(Hbad & n & _ & ->)];
        [done|]. split; [done|]. by intros [_ ?].
    + intros _ Hbad.
      destruct (retcode_spec target response) as [[Hok _]|(_ & n & Hn & ->)];
        [done|by exists n].
Qed.

End Engine.

(** *** Sending a text *)

(** The address that an outbound request names, read the way
    [buildOneBotTargetFromEvent] reads an inbound event. *)
Definition requestAddress (request : Json) : option jsstring :=
  buildOneBotTargetFromEvent
    {| detailType := default [] (stringProp request "detail_type");
       userId := stringProp request "user_id";
       groupId := stringProp request "group_id";
       guildId := stringProp request "guild_id";
       channelId := stringProp request "channel_id" |}.

Lemma Trimmed_truthy s : Trimmed s -> ifTruthy (Some s) = Some s.
Proof. intros [Hne _]. by destruct s. Qed.

(** X14. With a text that is not blank, an address that parses and a
    registered client whose socket is open, [sendOneBotMessage] issues
    exactly one action: it sets the timeout of 10000 ms and sends
    ["send_message"] on the socket, with the trimmed text as the one
    text segment of the message and with the [self] that [resolveSelf]
    gives, else the one of the client.  The request names the chat in
    the fields an inbound event has: read back with
    [buildOneBotTargetFromEvent] it gives the normalized address.  The
    changed client is put back under the account id. *)
Theorem send_issues_one_action (account : ResolvedOneBotAccount)
    (target text : jsstring) (clients : Clients) (client : WsClient.World)
    (parsed : OneBotTarget) :
  parseOneBotTarget target = Some parsed ->
  getOneBotClient (accountId account) clients = Some client ->
  trim text ≠ [] ->
  WsClient.isOpen client = true ->
  exists request socket client',
    sendOneBotMessage account target text None clients
    = (Awaiting (WsClient.fresh client),
       setOneBotClient (accountId account) client' clients)
    ∧ WsClient.ws (WsClient.client client) = Some socket
    ∧ WsClient.trace client'
      = WsClient.trace client
        ++ [WsClient.SetTimeout (S (WsClient.fresh client))
              (WsClient.ActionTimeout
                 (WsClient.echoToken (WsClient.now client)
                    (WsClient.actionCounter (WsClient.client client)))
                 (lit "send_message") (WsClient.fresh client))
              (ofZ 10000);
            WsClient.WsSend socket
              {| WsClient.action := lit "send_message";
                 WsClient.params := Some request;
                 WsClient.echo :=
                   WsClient.echoToken (WsClient.now client)
                     (WsClient.actionCounter (WsClient.client client));
                 WsClient.requestSelf :=
                   match resolveSelf account (WsClient.getSelf client) with
                   | Some v => Some v
                   | None => WsClient.self (WsClient.client client)
                   end |}]
    ∧ prop request "message" = Some (buildTextSegments (trim text))
    ∧ requestAddress request = Some (normalizeOneBotMessagingTarget target).
Proof.
  intros Hparse Hclient Htext Hopen.
  unfold sendOneBotMessage. rewrite Hparse, Hclient.
  rewrite (proj2 (truthy_ne (trim text)) Htext). cbn [negb].
  unfold WsClient.sendAction.
  assert (exists socket, WsClient.ws (WsClient.client client) = Some socket)
    as [socket Hws].
  { unfold WsClient.isOpen, WsClient.readyState in Hopen.
    destruct (WsClient.ws (WsClient.client client)); [by eexists|done]. }
  cbn [WsClient.client WsClient.setFresh WsClient.ws]. rewrite Hws.
  assert (WsClient.isOpen (WsClient.setFresh (S (WsClient.fresh client)) client) = true)
    as -> by done.
  cbn [negb]. eexists _, socket, _. split; [reflexivity|]. split; [done|].
  split; [simpl; by rewrite <- app_assoc|].
  pose proof (parseOneBotTarget_wf _ _ Hparse) as Hwf.
  unfold normalizeOneBotMessagingTarget, requestAddress. rewrite Hparse.
  destruct parsed as [u|g|g c]; simpl in Hwf.
  - split; [done|]. unfold buildOneBotTargetFromEvent, stringProp, prop. simpl.
    destruct Hwf as [Hne _]. by destruct u.
  - split; [done|]. unfold buildOneBotTargetFromEvent, stringProp, prop. simpl.
    destruct Hwf as [Hne _]. by destruct g.
  - split; [done|]. unfold buildOneBotTargetFromEvent, stringProp, prop. simpl.
    destruct Hwf as [[[Hg _] _] [[Hc _] _]]. by destruct g, c.
Qed.

Lemma send_issues_one_action_witness :
  let clients : Clients := {[ lit "default" := WsClientFacts.openWorld ]} in
  exists request socket client',
    sendOneBotMessage sampleAccount (lit "group:42") (lit " hi ") None clients
    = (Awaiting (WsClient.fresh WsClientFacts.openWorld),
       setOneBotClient (lit "default") client' clients)
    ∧ WsClient.ws (WsClient.client WsClientFacts.openWorld) = Some socket
    ∧ prop request "message" = Some (buildTextSegments (lit "hi"))
    ∧ requestAddress request = Some (lit "group:42").
Proof.
  intros clients.
  assert (parseOneBotTarget (lit "group:42") = Some (Group (lit "42"))) as Hparse
    by (vm_compute; reflexivity).
  assert (getOneBotClient (accountId sampleAccount) clients
          = Some WsClientFacts.openWorld) as Hclient
    by apply lookup_singleton_eq.
  assert (trim (lit " hi ") ≠ []) as Htext by (vm_compute; discriminate).
  assert (WsClient.isOpen WsClientFacts.openWorld = true) as Hopen
    by (vm_compute; reflexivity).
  destruct (send_issues_one_action sampleAccount (lit "group:42") (lit " hi ") clients
              WsClientFacts.openWorld (Group (lit "42")) Hparse Hclient Htext Hopen)
    as (request & socket & client' & H1 & H2 & _ & H4 & H5).
  exists request, socket, client'.
  split; [exact H1|]. split; [exact H2|]. split; [exact H4|exact H5].
Defined.

Section Engine.

Context `{engine : Engine}.

(** X15. On a registered client whose socket is not open, or that has
    no socket, [sendOneBotMessage] with a text that is not blank sends
    nothing: the promise of [sendAction] is rejected with
    "OneBot is not connected", which [sendOneBotMessage] throws, and the
    client keeps its pending actions, its timers and its action
    counter. *)
Theorem send_without_connection (account : ResolvedOneBotAccount)
    (target text : jsstring) (sendThrows : option jsstring) (clients : Clients)
    (client : WsClient.World) (parsed : OneBotTarget) :
  parseOneBotTarget target = Some parsed ->
  getOneBotClient (accountId account) clients = Some client ->
  trim text ≠ [] ->
  WsClient.isOpen client = false ->
  exists client',
    sendOneBotMessage account target text sendThrows clients
    = (Awaiting (WsClient.fresh client),
       setOneBotClient (accountId account) client' clients)
    ∧ WsClient.trace client'
      = WsClient.trace client
        ++ [WsClient.Reject (WsClient.fresh client) (lit "OneBot is not connected")]
    ∧ afterSendAction target (inl (lit "OneBot is not connected"))
      = Threw (lit "OneBot is not connected")
    ∧ WsClient.pending (WsClient.client client')
      = WsClient.pending (WsClient.client client)
    ∧ WsClient.timers client' = WsClient.timers client
    ∧ WsClient.actionCounter (WsClient.client client')
      = WsClient.actionCounter (WsClient.client client).
Proof.
  intros Hparse Hclient Htext Hopen.
  unfold sendOneBotMessage. rewrite Hparse, Hclient.
  rewrite (proj2 (truthy_ne (trim text)) Htext). cbn [negb].
  unfold WsClient.sendAction.
  cbn [WsClient.client WsClient.setFresh WsClient.ws].
  assert (WsClient.isOpen (WsClient.setFresh (S (WsClient.fresh client)) client) = false)
    as -> by done.
  destruct (WsClient.ws (WsClient.client client)); cbn [negb];
    eexists; (split; [reflexivity|]); by repeat split.
Qed.

End Engine.

Section Samples.

#[local] Existing Instance sampleEngine.

Lemma send_without_connection_witness :
  let clients : Clients := {[ lit "default" := sampleClient ]} in
  exists client',
    sendOneBotMessage sampleAccount (lit "user:7") (lit "hi") None clients
    = (Awaiting (WsClient.fresh sampleClient),
       setOneBotClient (lit "default") client' clients)
    ∧ WsClient.trace client'
      = [WsClient.Reject 0%nat (lit "OneBot is not connected")].
Proof.
  intros clients.
  assert (parseOneBotTarget (lit "user:7") = Some (User (lit "7"))) as Hparse
    by (vm_compute; reflexivity).
  assert (getOneBotClient (accountId sampleAccount) clients = Some sampleClient)
    as Hclient by apply lookup_singleton_eq.
  assert (trim (lit "hi") ≠ []) as Htext by (vm_compute; discriminate).
  assert (WsClient.isOpen sampleClient = false) as Hopen by (vm_compute; reflexivity).
  destruct (send_without_connection sampleAccount (lit "user:7") (lit "hi") None clients
              sampleClient (User (lit "7")) Hparse Hclient Htext Hopen)
    as (client' & H1 & H2 & _).
  exists client'. split; [exact H1|exact H2].
Defined.

End Samples.

(** *** The bot a request is sent as *)

Lemma ifTruthy_solid v : ifTruthy v ≠ Some [].
Proof. by destruct v as [[|]|]. Qed.

Lemma ifTruthy_orElse a b :
  ifTruthy (orElse a b)
  = match ifTruthy a with Some v => Some v | None => ifTruthy b end.
Proof.
  unfold orElse. destruct (ifTruthy a) as [v|] eqn:E; [|done].
  apply ifTruthy_Some in E as [_ Hne]. by destruct v.
Qed.

Lemma pick_solid (a b : option jsstring) :
  a ≠ Some [] -> b ≠ Some [] ->
  match a with Some v => Some v | None => b end ≠ Some []
  ∧ (match a with Some v => Some v | None => b end = None <-> a = None ∧ b = None).
Proof. destruct a, b; naive_solver. Qed.

(** X16. [resolveSelf] takes the platform and the user id of the account
    when they are not blank, trimmed, and else those of the fallback.
    It gives no [self] exactly when neither has a value for either
    field, and a [self] it gives never holds an empty string. *)
Theorem self_of_account (account : ResolvedOneBotAccount)
    (fallback : option OneBotSelf) :
  let own field := ifTruthy (trim <$> field) in
  let other field := ifTruthy (fallback ≫= field) in
  let pick a b := match a with Some v => Some v | None => b end in
  (resolveSelf account fallback = None
   <-> own (platform account) = None ∧ other selfPlatform = None
       ∧ own (selfId account) = None ∧ other selfUserId = None)
  ∧ (forall self, resolveSelf account fallback = Some self ->
       selfPlatform self = pick (own (platform account)) (other selfPlatform)
       ∧ selfUserId self = pick (own (selfId account)) (other selfUserId)
       ∧ selfPlatform self ≠ Some [] ∧ selfUserId self ≠ Some []).
Proof.
  intros own other pick. subst own other pick. unfold resolveSelf.
  rewrite !ifTruthy_orElse. fold (ifTruthy (fallback ≫= selfPlatform)).
  destruct (pick_solid (ifTruthy (trim <$> platform account))
              (ifTruthy (fallback ≫= selfPlatform))) as [Hp Hp'];
    [apply ifTruthy_solid..|].
  destruct (pick_solid (ifTruthy (trim <$> selfId account))
              (ifTruthy (fallback ≫= selfUserId))) as [Hu Hu'];
    [apply ifTruthy_solid..|].
  destruct (match ifTruthy (trim <$> platform account) with
            | Some v => Some v
            | None => ifTruthy (fallback ≫= selfPlatform)
            end) as [p|] eqn:Ep;
    destruct (match ifTruthy (trim <$> selfId account) with
              | Some v => Some v
              | None => ifTruthy (fallback ≫= selfUserId)
              end) as [u|] eqn:Eu;
    (split; [split|]); try (intros self [= <-]; by repeat split); try done.
  - intros (H1 & H2 & _). discriminate (proj2 Hp' (conj H1 H2)).
  - intros (H1 & H2 & _). discriminate (proj2 Hp' (conj H1 H2)).
  - intros (_ & _ & H1 & H2). discriminate (proj2 Hu' (conj H1 H2)).
  - intros _. destruct (proj1 Hp' eq_refl) as [-> ->].
    by destruct (proj1 Hu' eq_refl) as [-> ->].
Qed.

End SendFacts.

(** ** The protocol client: more of ws-client.ts *)

Module ClientFacts.
Import Js Types Url WsClient JsFacts WsClientFacts.

(** *** Stopping *)

Lemma updClient_eta w : updClient (fun c => c) w = w.
Proof. by destruct w. Qed.

Lemma stop_state w :
  stopped (client (stop w)) = true
  ∧ ws (client (stop w)) = None
  ∧ reconnectTimer (client (stop w)) = None
  ∧ pending (client (stop w)) = [].
Proof.
  unfold stop. rewrite rejectAllPending_eq. simpl.
  unfold closeSocket, clearReconnectTimer. simpl.
  destruct (reconnectTimer (client w)) eqn:Hr; simpl;
    destruct (ws (client w)) eqn:Hw; simpl; by rewrite ?Hr, ?Hw.
Qed.

(** What [stop()] does, in order. *)
Definition stopEffects (w : World) : list Effect :=
  match reconnectTimer (client w) with Some id => [ClearTimeout id] | None => [] end
  ++ match ws (client w) with Some s => [WsClose s] | None => [] end
  ++ flat_map (rejectionOf (lit "OneBot connection stopped")) (pending (client w)).

Lemma stop_trace w : trace (stop w) = trace w ++ stopEffects w.
Proof.
  unfold stop, stopEffects. rewrite rejectAllPending_eq. simpl.
  unfold closeSocket, clearReconnectTimer. simpl.
  destruct (reconnectTimer (client w)) eqn:Hr; simpl;
    destruct (ws (client w)) eqn:Hw; simpl; rewrite ?Hr, ?Hw; simpl;
    by rewrite <- ?app_assoc.
Qed.

Lemma stop_stopped w :
  stopped (client w) = true -> ws (client w) = None ->
  reconnectTimer (client w) = None -> pending (client w) = [] ->
  stop w = w.
Proof.
  intros H1 H2 H3 H4. unfold stop, rejectAllPending, closeSocket, clearReconnectTimer.
  simpl. rewrite H3. simpl. rewrite H2. simpl. rewrite H4. simpl.
  destruct w as [[] ? ? ? ? ? ? ?]. simpl in *. by subst.
Qed.

(** X17. [stop()] clears the reconnect timer when one is set, closes
    the socket when there is one, and rejects every pending action with
    "OneBot connection stopped", in this order; afterwards the client is
    stopped, has no socket, no reconnect timer and no pending action.
    A second [stop()] does nothing. *)
Theorem stop_is_idempotent (w : World) :
  stop (stop w) = stop w
  ∧ trace (stop w) = trace w ++ stopEffects w
  ∧ stopped (client (stop w)) = true
  ∧ ws (client (stop w)) = None
  ∧ reconnectTimer (client (stop w)) = None
  ∧ pending (client (stop w)) = [].
Proof.
  destruct (stop_state w) as (H1 & H2 & H3 & H4).
  split; [by apply stop_stopped|]. split; [apply stop_trace|done].
Qed.

(** *** What a turn of the event loop may do *)

Section Platform.

Context (api : UrlApi) (webSocketThrows : jsstring -> option jsstring).

(** The effects a turn may have, given the client it starts from: a
    socket is created only by a client that is not stopped, at the
    address of the client with its token and with the bearer header; a
    frame is sent only on the socket of the client, which is open; a
    reconnect timer is set only by a client that is not stopped, with
    the delay of the client. *)
Definition turnAllows (w : World) (e : Effect) : Prop :=
  match e with
  | NewWebSocket _ url authorization =>
      stopped (client w) = false
      ∧ url = withAccessToken api (wsUrl (client w)) (accessToken (client w))
      ∧ authorization
        = (fun token => lit "Bearer " ++ token) <$> ifTruthy (accessToken (client w))
  | WsSend s _ => ws (client w) = Some s ∧ isOpen w = true
  | WsClose s => ws (client w) = Some s
  | SetTimeout _ Reconnect delay =>
      stopped (client w) = false ∧ delay = reconnectDelayMs (client w)
  | SetTimeout _ (ActionTimeout _ _ _) _ => isOpen w = true
  | Throw _ => stopped (client w) = false
  | _ => True
  end.

(** [w'] continues [w] by effects that a turn from [w] may have. *)
Definition turn (w w' : World) : Prop :=
  exists effects, trace w' = trace w ++ effects ∧ Forall (turnAllows w) effects.

Lemma turn_refl w : turn w w.
Proof. exists []. by rewrite app_nil_r. Qed.

Lemma turn_same w w' : trace w' = trace w -> turn w w'.
Proof. intros H. exists []. by rewrite app_nil_r. Qed.

Lemma Forall_rejections w error entries :
  Forall (turnAllows w) (flat_map (rejectionOf error) entries).
Proof.
  induction entries as [|entry entries IH]; [constructor|].
  simpl. by repeat constructor.
Qed.

Lemma turn_connect w : turn w (connect api webSocketThrows w).
Proof.
  unfold connect. destruct (stopped (client w)) eqn:Hs; [apply turn_refl|].
  destruct (webSocketThrows _).
  - eexists. split; [simpl; by rewrite <- app_assoc|]. by repeat constructor.
  - destruct (_ && _); (eexists; split; [simpl; by rewrite <- app_assoc|]);
      by repeat constructor.
Qed.

Lemma turn_stop w : turn w (stop w).
Proof.
  exists (stopEffects w). split; [apply stop_trace|].
  unfold stopEffects. rewrite !Forall_app. split; [|split].
  - destruct (reconnectTimer (client w)); by repeat constructor.
  - destruct (ws (client w)) eqn:Hw; by repeat constructor.
  - apply Forall_rejections.
Qed.

Lemma turn_sendAction act params options sendThrows w :
  turn w (sendAction act params options sendThrows w).2.
Proof.
  unfold sendAction. simpl.
  destruct (ws (client w)) as [s|] eqn:Hw; simpl.
  2:{ eexists. split; [simpl; reflexivity|]. by repeat constructor. }
  assert (isOpen (setFresh (S (fresh w)) w) = isOpen w) as -> by done.
  destruct (isOpen w) eqn:Ho; simpl.
  2:{ eexists. split; [simpl; reflexivity|]. by repeat constructor. }
  destruct sendThrows; simpl;
    (eexists; split; [simpl; by rewrite <- ?app_assoc|]); by repeat constructor.
Qed.

Lemma turn_handlePayload payload w : turn w (handlePayload payload w).
Proof.
  unfold handlePayload.
  destruct payload; try apply turn_refl;
    repeat case_match; try apply turn_refl;
    (eexists; split; [simpl; by rewrite <- ?app_assoc|]); by repeat constructor.
Qed.

Lemma iter_stop_ws n w s :
  ws (client (Nat.iter n stop w)) = Some s -> ws (client w) = Some s.
Proof.
  destruct n as [|n]; [done|]. rewrite Nat.iter_succ.
  destruct (stop_state (Nat.iter n stop w)) as (_ & -> & _). done.
Qed.

(** The effects of the abort listeners of [connect], each a [stop()]. *)
Definition stopAllows (w : World) (e : Effect) : Prop :=
  match e with
  | WsClose s => ws (client w) = Some s
  | ClearTimeout _ | Reject _ _ => True
  | _ => False
  end.

Lemma stopAllows_turn w e : stopAllows w e -> turnAllows w e.
Proof. by destruct e. Qed.

Lemma stopEffects_allowed w w0 :
  (forall s, ws (client w) = Some s -> ws (client w0) = Some s) ->
  Forall (stopAllows w0) (stopEffects w).
Proof.
  intros Hw. unfold stopEffects. rewrite !Forall_app. split; [|split].
  - destruct (reconnectTimer (client w)); by repeat constructor.
  - destruct (ws (client w)) as [s|]; repeat constructor. by apply Hw.
  - induction (pending (client w)) as [|entry entries IH]; [constructor|].
    simpl. by repeat constructor.
Qed.

Lemma iter_stop_effects n w :
  exists effects,
    trace (Nat.iter n stop w) = trace w ++ effects ∧ Forall (stopAllows w) effects.
Proof.
  induction n as [|n (effects & Ht & Hall)].
  - exists []. by rewrite app_nil_r.
  - rewrite Nat.iter_succ, stop_trace, Ht, <- app_assoc. eexists. split; [done|].
    apply Forall_app. split; [done|].
    apply stopEffects_allowed. intros s. apply iter_stop_ws.
Qed.

Lemma turn_step w i w' : step api webSocketThrows w i = Some w' -> turn w w'.
Proof.
  destruct i; simpl.
  - intros [= <-]. unfold start. destruct (_ && _); [by apply turn_same|].
    apply turn_connect.
  - intros [= <-]. apply turn_stop.
  - intros [= <-]. by apply turn_same.
  - intros [= <-]. apply turn_sendAction.
  - destruct (_ && _); [|done]. intros [= <-].
    destruct (iter_stop_effects (abortListeners w) (setAbort true 0 w))
      as (effects & Ht & Hall).
    exists effects. split; [done|].
    eapply Forall_impl; [done|]. intros e He. by apply stopAllows_turn in He.
  - destruct (sockets w !! socket) as [[]|]; try done. intros [= <-].
    eexists. split; [simpl; by rewrite <- app_assoc|]. by repeat constructor.
  - destruct (sockets w !! socket) as [[]|]; try done; intros [= <-];
      (destruct frame; simpl;
       [eexists; split; [reflexivity|]; by repeat constructor
       |apply turn_handlePayload]).
  - destruct (sockets w !! socket) as [[]|]; try done; intros [= <-];
      (eexists; split; [simpl; by rewrite <- app_assoc|]); by repeat constructor.
  - destruct (sockets w !! socket) as [[]|]; try done; intros [= <-];
      unfold onSocketClose, scheduleReconnect; rewrite rejectAllPending_eq; simpl;
      destruct (stopped (client w)) eqn:Hs; simpl;
      try (destruct (reconnectTimer (client w)) eqn:Hr; simpl);
      (eexists; split; [simpl; by rewrite <- ?app_assoc|]);
      rewrite ?Forall_app; repeat split;
      try apply Forall_rejections; by repeat constructor.
  - destruct (timers w !! timer) as [t|] eqn:Ht; [|done].
    destruct (due t <=? now w)%Z; [|done]. intros [= <-].
    destruct (callback t); simpl.
    + eexists. split; [reflexivity|]. by repeat constructor.
    + destruct (turn_connect (updClient (setReconnectTimer None)
                                (setTimers (delete timer (timers w)) w)))
        as (effects & Htr & Hall).
      exists effects. split; [done|]. eapply Forall_impl; [done|].
      intros e He. by destruct e as [| | | | | | | | | |? []| | | |].
  - destruct (0 <=? ms)%Z; [|done]. intros [= <-]. by apply turn_same.
Qed.

(** What no turn changes: the address, the token and the reconnect
    delay of the client; and a stopped client stays stopped and without
    a socket. *)
Definition fixed (w w' : World) : Prop :=
  wsUrl (client w') = wsUrl (client w)
  ∧ accessToken (client w') = accessToken (client w)
  ∧ reconnectDelayMs (client w') = reconnectDelayMs (client w)
  ∧ (stopped (client w) = true -> stopped (client w') = true)
  ∧ (stopped (client w) = true -> ws (client w) = None -> ws (client w') = None).

Lemma fixed_refl w : fixed w w.
Proof. by repeat split. Qed.

Lemma fixed_trans w1 w2 w3 : fixed w1 w2 -> fixed w2 w3 -> fixed w1 w3.
Proof.
  intros (H1 & H2 & H3 & H4 & H5) (H1' & H2' & H3' & H4' & H5').
  repeat split; try congruence; auto.
Qed.

Lemma fixed_same w w' : client w' = client w -> fixed w w'.
Proof. intros H. unfold fixed. by rewrite H. Qed.

Lemma fixed_stop w : fixed w (stop w).
Proof.
  destruct (stop_state w) as (H1 & H2 & _).
  unfold fixed. rewrite H1, H2. unfold stop. rewrite rejectAllPending_eq. simpl.
  unfold closeSocket, clearReconnectTimer. simpl.
  destruct (reconnectTimer (client w)); simpl; by destruct (ws (client w)).
Qed.

Lemma fixed_connect w : fixed w (connect api webSocketThrows w).
Proof.
  unfold connect. destruct (stopped (client w)) eqn:Hs; [apply fixed_refl|].
  destruct (webSocketThrows _); [by apply fixed_same|].
  destruct (_ && _); unfold fixed; simpl; rewrite Hs; by repeat split.
Qed.

Lemma fixed_sendAction act params options sendThrows w :
  fixed w (sendAction act params options sendThrows w).2.
Proof.
  unfold sendAction. simpl.
  destruct (ws (client w)) eqn:Hw; simpl; [|by apply fixed_same].
  destruct (isOpen _); simpl; [|by apply fixed_same].
  destruct sendThrows; unfold fixed; simpl; rewrite Hw; by repeat split.
Qed.

Lemma fixed_handlePayload payload w : fixed w (handlePayload payload w).
Proof.
  unfold handlePayload.
  destruct payload; try apply fixed_refl;
    repeat case_match; try apply fixed_refl; by unfold fixed.
Qed.

Lemma fixed_step w i w' : step api webSocketThrows w i = Some w' -> fixed w w'.
Proof.
  destruct i; simpl.
  - intros [= <-]. unfold start. destruct (_ && _); [by unfold fixed|].
    apply fixed_connect.
  - intros [= <-]. apply fixed_stop.
  - intros [= <-]. by unfold fixed.
  - intros [= <-]. apply fixed_sendAction.
  - destruct (_ && _); [|done]. intros [= <-].
    induction (abortListeners w) as [|n IH]; [by apply fixed_same|].
    rewrite Nat.iter_succ. eapply fixed_trans; [apply IH|apply fixed_stop].
  - destruct (sockets w !! socket) as [[]|]; try done. intros [= <-].
    by apply fixed_same.
  - destruct (sockets w !! socket) as [[]|]; try done; intros [= <-];
      (destruct frame; simpl; [by apply fixed_same|apply fixed_handlePayload]).
  - destruct (sockets w !! socket) as [[]|]; try done; intros [= <-];
      by apply fixed_same.
  - destruct (sockets w !! socket) as [[]|]; try done; intros [= <-];
      unfold onSocketClose, scheduleReconnect; rewrite rejectAllPending_eq; simpl;
      repeat case_match; by unfold fixed.
  - destruct (timers w !! timer) as [t|] eqn:Ht; [|done].
    destruct (due t <=? now w)%Z; [|done]. intros [= <-].
    destruct (callback t); simpl; [by unfold fixed|].
    eapply fixed_trans; [|apply fixed_connect]. by unfold fixed.
  - destruct (0 <=? ms)%Z; [|done]. intros [= <-]. by apply fixed_same.
Qed.

(** *** A stopped client *)

(** What a stopped client without a socket still does: it logs, calls
    back, and settles promises. *)
Definition inert (e : Effect) : Prop :=
  match e with
  | NewWebSocket _ _ _ | WsSend _ _ | WsClose _ | SetTimeout _ _ _ | Throw _ => False
  | _ => True
  end.

Lemma turnAllows_inert w e :
  stopped (client w) = true -> ws (client w) = None -> turnAllows w e -> inert e.
Proof.
  intros Hs Hw.
  destruct e as [| | | | | | | | | |? []| | | |]; cbn [turnAllows inert];
    unfold isOpen, readyState; rewrite ?Hs, ?Hw; try done; by intros [? _].
Qed.

Lemma inert_run w inputs w' :
  stopped (client w) = true -> ws (client w) = None ->
  run api webSocketThrows w inputs = Some w' ->
  stopped (client w') = true ∧ ws (client w') = None
  ∧ exists effects, trace w' = trace w ++ effects ∧ Forall inert effects.
Proof.
  revert w. induction inputs as [|i inputs IH]; intros w Hs Hw; simpl.
  - intros [= <-]. split; [done|]. split; [done|]. exists []. by rewrite app_nil_r.
  - destruct (step api webSocketThrows w i) as [w1|] eqn:E; [|done]. intros Hrun.
    destruct (fixed_step _ _ _ E) as (_ & _ & _ & Hs1 & Hw1).
    destruct (turn_step _ _ _ E) as (effects & Ht & Hall).
    destruct (IH w1 (Hs1 Hs) (Hw1 Hs Hw) Hrun) as (Hs' & Hw' & effects' & Ht' & Hall').
    split; [done|]. split; [done|]. exists (effects ++ effects').
    split; [by rewrite Ht', Ht, app_assoc|].
    apply Forall_app. split; [|done].
    eapply Forall_impl; [done|]. intros e. by apply turnAllows_inert.
Qed.

(** X18. After [stop()] the client is inert, whatever happens: it stays
    stopped and without a socket, it creates no socket, sends and closes
    nothing and sets no timer, and every [sendAction] is rejected with
    "OneBot is not connected". *)
Theorem stopped_client_is_inert (v : World) (inputs : list Input) (v' : World) :
  run api webSocketThrows (stop v) inputs = Some v' ->
  stopped (client v') = true
  ∧ ws (client v') = None
  ∧ (exists effects, trace v' = trace (stop v) ++ effects ∧ Forall inert effects)
  ∧ forall act params options sendThrows,
      trace (sendAction act params options sendThrows v').2
      = trace v' ++ [Reject (fresh v') (lit "OneBot is not connected")].
Proof.
  intros Hrun. destruct (stop_state v) as (Hs & Hw & _).
  destruct (inert_run _ _ _ Hs Hw Hrun) as (Hs' & Hw' & Heff).
  split; [done|]. split; [done|]. split; [done|].
  intros act params options sendThrows. unfold sendAction. simpl. by rewrite Hw'.
Qed.

(** *** Connections follow the options *)

(** The effects that depend on the options of the client. *)
Definition follows (options : OneBotClientOptions) (e : Effect) : Prop :=
  match e with
  | NewWebSocket _ url authorization =>
      url = withAccessToken api (optWsUrl options) (optAccessToken options)
      ∧ authorization
        = (fun token => lit "Bearer " ++ token) <$> ifTruthy (optAccessToken options)
  | SetTimeout _ Reconnect delay =>
      delay = mathMax (ofZ 1000) (default (ofZ 2500) (optReconnectDelayMs options))
  | _ => True
  end.

Lemma follows_run options time inputs w :
  run api webSocketThrows (initial options time) inputs = Some w ->
  Forall (follows options) (trace w).
Proof.
  assert (forall w0 w1,
            fixed (initial options time) w0 -> Forall (follows options) (trace w0) ->
            run api webSocketThrows w0 inputs = Some w1 ->
            Forall (follows options) (trace w1)) as H.
  { induction inputs as [|i inputs IH]; intros w0 w1 Hf Hall; simpl.
    - by intros [= <-].
    - destruct (step api webSocketThrows w0 i) as [w2|] eqn:E; [|done].
      pose proof (fixed_step _ _ _ E) as Hf2.
      destruct (turn_step _ _ _ E) as (effects & Ht & Heff).
      apply IH; [by eapply fixed_trans|]. rewrite Ht. apply Forall_app.
      split; [done|]. eapply Forall_impl; [done|].
      destruct Hf as (H1 & H2 & H3 & _). simpl in H1, H2, H3.
      intros e. unfold turnAllows, follows.
      destruct e as [| | | | | | | | | |? []| | | |]; try done.
      + rewrite H1, H2. naive_solver.
      + rewrite H3. by intros [_ ->]. }
  intros Hrun. eapply H; [apply fixed_refl| |done]. constructor.
Qed.

(** The time the reconnect timer waits, by the configured delay. *)
Lemma reconnect_wait (configured : number) :
  let delay := mathMax (ofZ 1000) configured in
  (numLe configured (ofZ TIMEOUT_MAX) = true ->
   (1000 <= timerDelay delay <= TIMEOUT_MAX)%Z)
  ∧ (numLe configured (ofZ TIMEOUT_MAX) = false -> timerDelay delay = 1%Z).
Proof.
  unfold TIMEOUT_MAX. destruct configured as [| | |q]; cbn; split; try done.
  - intros Hmax. destruct (Qle_bool (inject_Z 1000) q) eqn:Hq; [|done].
    unfold timerDelay, numLe, ofZ, TIMEOUT_MAX, trunc. rewrite Hmax.
    assert (Qle_bool (inject_Z 1) q = true) as ->.
    { apply Qle_bool_iff. apply Qle_bool_iff in Hq. unfold Qle in *.
      simpl in *. lia. }
    cbn [andb]. apply Qle_bool_iff in Hq, Hmax. unfold Qle in *.
    destruct q as [a b]. simpl in *.
    assert (0 < Z.pos b)%Z by lia. rewrite Z.quot_div_nonneg by lia. split.
    + apply Z.div_le_lower_bound; lia.
    + apply Z.div_le_upper_bound; lia.
  - intros Hmax.
    assert (Qle_bool (inject_Z 1000) q = true) as ->.
    { apply Qle_bool_iff. apply not_true_iff_false in Hmax.
      rewrite Qle_bool_iff in Hmax. unfold Qle in *. simpl in *. lia. }
    unfold timerDelay. cbn [numLe ofZ]. unfold TIMEOUT_MAX.
    by rewrite Hmax, andb_false_r.
Qed.

(** X19. Every socket a client creates, the first one and those of
    reconnects, is created at the configured address with the token
    added by [withAccessToken], and with the header
    [Authorization: Bearer] and the token exactly when a token that is
    not empty is configured.  Every reconnect timer is set with
    [Math.max(1000, reconnectDelayMs ?? 2500)]: it waits 2500 ms by
    default and at least 1000 ms for a configured delay that is a
    number up to 2147483647.  For a configured delay that is [NaN] or
    above 2147483647 the timer waits 1 ms. *)
Theorem connections_follow_options (options : OneBotClientOptions) (time : Z)
    (inputs : list Input) (w : World) :
  run api webSocketThrows (initial options time) inputs = Some w ->
  let delay := mathMax (ofZ 1000) (default (ofZ 2500) (optReconnectDelayMs options)) in
  (forall socket url authorization,
     NewWebSocket socket url authorization ∈ trace w ->
     url = withAccessToken api (optWsUrl options) (optAccessToken options)
     ∧ authorization
       = (fun token => lit "Bearer " ++ token) <$> ifTruthy (optAccessToken options))
  ∧ (forall timer set, SetTimeout timer Reconnect set ∈ trace w -> set = delay)
  ∧ (optReconnectDelayMs options = None -> timerDelay delay = 2500%Z)
  ∧ (forall configured,
       optReconnectDelayMs options = Some configured ->
       (numLe configured (ofZ TIMEOUT_MAX) = true ->
        (1000 <= timerDelay delay <= TIMEOUT_MAX)%Z)
       ∧ (numLe configured (ofZ TIMEOUT_MAX) = false -> timerDelay delay = 1%Z)).
Proof.
  intros Hrun delay. pose proof (follows_run _ _ _ _ Hrun) as Hall.
  rewrite Forall_forall in Hall.
  split; [|split; [|split]].
  - intros socket url authorization Hin. apply (Hall _ Hin).
  - intros timer set Hin. apply (Hall _ Hin).
  - intros Hnone. subst delay. rewrite Hnone. by vm_compute.
  - intros configured Hsome. subst delay. rewrite Hsome. apply reconnect_wait.
Qed.

(** *** A response in time *)

(** X20. A response frame, one with a string [status] and the echo
    token of an action that is still pending, resolves the promise of
    that action with the frame, clears its timeout and removes it from
    the pending actions, and is no event.  From then on the timeout of
    the action cannot fire any more, and a second response with the
    same echo token changes nothing. *)
Theorem response_settles_action (w0 : World) (act : jsstring)
    (params : option Json) (options : option SendActionOptions) :
  isOpen w0 = true ->
  let p := fresh w0 in
  let id := S (fresh w0) in
  let echo := echoToken (now w0) (actionCounter (client w0)) in
  let w1 := (sendAction act params options None w0).2 in
  forall inputs w2 socket payload status w3,
    run api webSocketThrows w1 inputs = Some w2 ->
    mapGet echo (pending (client w2)) = Some {| promise := p; timeout := id |} ->
    stringProp payload "status" = Some status ->
    stringProp payload "echo" = Some echo ->
    step api webSocketThrows w2 (SocketMessage socket (GoodJson payload)) = Some w3 ->
    trace w3 = trace w2 ++ [ClearTimeout id; Resolve p payload]
    ∧ mapGet echo (pending (client w3)) = None
    ∧ timers w3 !! id = None
    ∧ forall inputs' w4,
        run api webSocketThrows w3 inputs' = Some w4 ->
        step api webSocketThrows w4 (TimerFires id) = None
        ∧ forall socket' payload' status' w5,
            stringProp payload' "status" = Some status' ->
            stringProp payload' "echo" = Some echo ->
            step api webSocketThrows w4 (SocketMessage socket' (GoodJson payload'))
            = Some w5 ->
            w5 = w4.
Proof.
  intros Hopen p id echo w1 inputs w2 socket payload status w3
    Hrun Hget Hstatus Hecho Hstep.
  assert (fresh w1 = S (S (fresh w0))
          ∧ actionCounter (client w1) = actionCounter (client w0) + 1) as [Hf1 Hc1].
  { subst w1. unfold sendAction. simpl.
    assert (isOpen (setFresh (S (fresh w0)) w0) = true) as -> by done.
    unfold isOpen, readyState in Hopen. by destruct (ws (client w0)). }
  assert (w3 = emit (Resolve p payload)
                 (updClient (fun c => setPending (mapDelete echo (pending c)) c)
                    (clearTimeout id w2))) as ->.
  { simpl in Hstep. destruct (sockets w2 !! socket) as [[]|]; try done;
      injection Hstep as <-; unfold handlePayload;
      destruct payload; try done; by rewrite Hstatus, Hecho, Hget. }
  split; [simpl; by rewrite <- app_assoc|].
  split; [apply mapGet_mapDelete|]. split; [apply lookup_delete_eq|].
  intros inputs' w4 Hrun'.
  destruct (grows_run _ _ _ _ _ Hrun) as [Hfresh _].
  destruct (grows_run _ _ _ _ _ Hrun') as [_ Hback].
  pose proof (counter_run _ _ _ _ _ Hrun) as Hcounter.
  split.
  - simpl. destruct (timers w4 !! id) as [t|] eqn:Ht; [|done].
    apply Hback in Ht; [|simpl; lia]. simpl in Ht. by rewrite lookup_delete_eq in Ht.
  - intros socket' payload' status' w5 Hstatus' Hecho' Hstep'.
    assert (spent echo w4) as [Hnone _].
    { eapply spent_run; [|done]. split; simpl; [apply mapGet_mapDelete|].
      exists (now w0), (actionCounter (client w0)). split; [done|lia]. }
    simpl in Hstep'. destruct (sockets w4 !! socket') as [[]|]; try done;
      injection Hstep' as <-; unfold handlePayload;
      destruct payload'; try done; rewrite Hstatus', Hecho'; simpl; by rewrite Hnone.
Qed.

End Platform.

Lemma stopped_client_is_inert_witness :
  exists v',
    run SimpleUrl.api noThrow (stop busyWorld)
      [CallStart; CallSendAction (lit "get_status") None None None;
       SocketClose 0 1000 []; Elapse 5000] = Some v'
    ∧ stopped (client v') = true ∧ ws (client v') = None.
Proof.
  destruct (run SimpleUrl.api noThrow (stop busyWorld)
              [CallStart; CallSendAction (lit "get_status") None None None;
               SocketClose 0 1000 []; Elapse 5000]) as [v'|] eqn:E;
    [|by vm_compute in E].
  exists v'. split; [reflexivity|].
  destruct (stopped_client_is_inert SimpleUrl.api noThrow busyWorld _ v' E)
    as (H1 & H2 & _).
  split; [exact H1|exact H2].
Defined.

Lemma connections_follow_options_witness :
  exists w,
    run SimpleUrl.api noThrow (initial sessionOptions 0)
      [CallStart; SocketClose 0 1006 []; Elapse 2500; TimerFires 1] = Some w
    ∧ (forall timer set,
         SetTimeout timer Reconnect set ∈ trace w -> timerDelay set = 2500%Z).
Proof.
  destruct (run SimpleUrl.api noThrow (initial sessionOptions 0)
              [CallStart; SocketClose 0 1006 []; Elapse 2500; TimerFires 1])
    as [w|] eqn:E; [|by vm_compute in E].
  exists w. split; [reflexivity|].
  destruct (connections_follow_options SimpleUrl.api noThrow sessionOptions 0 _ w E)
    as (_ & Hset & Hdefault & _).
  intros timer set Hin. rewrite (Hset timer set Hin). by apply Hdefault.
Defined.

Lemma response_settles_action_witness :
  let response :=
    JObject [(lit "status", JString (lit "ok"));
             (lit "echo", JString (lit "onebot:0:0"))] in
  exists w3,
    step SimpleUrl.api noThrow busyWorld (SocketMessage 0 (GoodJson response)) = Some w3
    ∧ trace w3 = trace busyWorld ++ [ClearTimeout 2; Resolve 1 response]
    ∧ step SimpleUrl.api noThrow w3 (TimerFires 2) = None.
Proof.
  intros response.
  destruct (step SimpleUrl.api noThrow busyWorld (SocketMessage 0 (GoodJson response)))
    as [w3|] eqn:E; [|by vm_compute in E].
  exists w3. split; [reflexivity|].
  assert (isOpen openWorld = true) as Hopen by (vm_compute; reflexivity).
  destruct (response_settles_action SimpleUrl.api noThrow openWorld
              (lit "send_message") None None Hopen [] busyWorld 0%nat response
              (lit "ok") w3) as (H1 & _ & _ & H4).
  - vm_compute. reflexivity.
  - vm_compute. reflexivity.
  - reflexivity.
  - reflexivity.
  - exact E.
  - split; [exact H1|]. exact (proj1 (H4 [] w3 eq_refl)).
Defined.

(** *** The address of the socket *)

(** X21. [withAccessToken] leaves the address as it is when no token,
    or an empty one, is configured and when the address does not parse.
    Otherwise the address it gives parses and has an [access_token]
    parameter: the one the address had when it had one, which the
    configured token does not replace, else the configured token.
    Applying it twice is applying it once. *)
Theorem access_token_is_attached (api : UrlApi) (url : jsstring)
    (token : option jsstring) :
  Lawful api ->
  (ifTruthy token = None -> withAccessToken api url token = url)
  ∧ (parse api url = None -> withAccessToken api url token = url)
  ∧ (forall t u, ifTruthy token = Some t -> parse api url = Some u ->
       exists u',
         withAccessToken api url token = toString api u'
         ∧ parse api (withAccessToken api url token) = Some u'
         ∧ has api u' ACCESS_TOKEN = true
         ∧ (has api u ACCESS_TOKEN = true -> u' = u)
         ∧ (has api u ACCESS_TOKEN = false -> u' = set api u ACCESS_TOKEN t))
  ∧ withAccessToken api (withAccessToken api url token) token
    = withAccessToken api url token.
Proof.
  intros [Hts Hps Hhs Hss].
  assert (forall t u, ifTruthy token = Some t -> parse api url = Some u ->
       exists u',
         withAccessToken api url token = toString api u'
         ∧ parse api (withAccessToken api url token) = Some u'
         ∧ has api u' ACCESS_TOKEN = true
         ∧ (has api u ACCESS_TOKEN = true -> u' = u)
         ∧ (has api u ACCESS_TOKEN = false -> u' = set api u ACCESS_TOKEN t)) as Hthird.
  { intros t u Ht Hu. unfold withAccessToken. rewrite Ht, Hu.
    destruct (has api u ACCESS_TOKEN) eqn:Eh; simpl.
    - exists u. split; [done|]. split; [by eapply Hts|]. by repeat split.
    - exists (set api u ACCESS_TOKEN t). split; [done|].
      split; [by eapply Hps|]. by repeat split. }
  split; [|split; [|split; [done|]]].
  - intros Ht. unfold withAccessToken. by rewrite Ht.
  - intros Hu. unfold withAccessToken. rewrite Hu. by destruct (ifTruthy token).
  - destruct (ifTruthy token) as [t|] eqn:Ht.
    2:{ unfold withAccessToken. by rewrite Ht. }
    destruct (parse api url) as [u|] eqn:Hu.
    2:{ unfold withAccessToken. by rewrite Ht, Hu, Hu. }
    destruct (Hthird t u eq_refl eq_refl) as (u' & Heq & Hp & Hh & _).
    rewrite Heq at 2. unfold withAccessToken at 1. by rewrite Ht, Hp, Hh.
Qed.

Lemma access_token_is_attached_witness :
  withAccessToken SimpleUrl.api
    (withAccessToken SimpleUrl.api (lit "ws://127.0.0.1:6700/?x=1") (Some (lit "s3cret")))
    (Some (lit "s3cret"))
  = lit "ws://127.0.0.1:6700/?x=1&access_token=s3cret".
Proof.
  rewrite (proj2 (proj2 (proj2
             (access_token_is_attached SimpleUrl.api (lit "ws://127.0.0.1:6700/?x=1")
                (Some (lit "s3cret")) SimpleUrlFacts.lawful)))).
  vm_compute. reflexivity.
Defined.

End ClientFacts.

(** ** Accounts and setup *)

Module AccountsFacts.
Import Js Types Targets ClientRegistry Outbound Accounts ChannelPlugin OutboundAdapter.
Import JsFacts TargetsFacts MonitorFacts.

Section Sdk.

Context (DEFAULT_ACCOUNT_ID : jsstring).
Context (normalizeAccountId : option jsstring -> jsstring).

Abbreviation resolve := (resolveOneBotAccount normalizeAccountId).

Lemma notFalse_true value : notFalse value = true <-> value ≠ Some false.
Proof. destruct value as [[|]|]; simpl; naive_solver. Qed.

(** X22. An account is enabled exactly when neither the channel section
    nor the entry of the account says [enabled: false]; the entry
    cannot enable an account of a channel that is disabled. *)
Theorem account_is_enabled (cfg : option OneBotConfig) (accountId : option jsstring) :
  let entry := resolveAccountConfig cfg (normalizeAccountId accountId) in
  accountEnabled (account (resolve cfg accountId)) = true
  <-> (cfg ≫= fun c => sectionEnabled (base c)) ≠ Some false
      ∧ (entry ≫= sectionEnabled) ≠ Some false.
Proof.
  intros entry. unfold resolveOneBotAccount, mergeOneBotAccountConfig. simpl.
  fold entry. rewrite andb_true_iff, !notFalse_true.
  destruct cfg as [c|]; simpl; [|by destruct entry as [e|]].
  destruct entry as [e|]; simpl; [|naive_solver].
  destruct (sectionEnabled e) as [[|]|]; simpl; naive_solver.
Qed.

(** X23. The address of an account is the [wsUrl] of its entry when the
    entry has one, else the one of the channel section, trimmed; the
    account is configured exactly when that address is not blank.  A
    blank [wsUrl] of the entry is not replaced by the one of the
    section.  An account without an entry resolves to the channel
    section. *)
Theorem account_is_configured (cfg : option OneBotConfig)
    (accountId : option jsstring) :
  let id := normalizeAccountId accountId in
  let section := default emptySection (base <$> cfg) in
  let entry := resolveAccountConfig cfg id in
  let resolved := account (resolve cfg accountId) in
  let address :=
    spreadKey (sectionWsUrl section) (entry ≫= sectionWsUrl) in
  Types.accountId resolved = id
  ∧ accountWsUrl resolved = trim <$> address
  ∧ (configured resolved = true <-> exists url, address = Some url ∧ trim url ≠ [])
  ∧ (forall url, entry ≫= sectionWsUrl = Some url -> trim url = [] ->
       configured resolved = false)
  ∧ (entry = None ->
       accountWsUrl resolved = trim <$> sectionWsUrl section
       ∧ accountAccessToken resolved = ifTruthy (trim <$> sectionAccessToken section)
       ∧ config resolved = sectionPolicy section).
Proof.
  intros id section entry resolved address.
  subst resolved address. unfold resolveOneBotAccount, mergeOneBotAccountConfig.
  simpl. fold id. fold entry. fold section.
  assert (sectionWsUrl (default emptySection entry) = entry ≫= sectionWsUrl) as ->
    by by destruct entry.
  split; [done|]. split; [done|]. split; [|split].
  - destruct (spreadKey _ _) as [url|]; simpl.
    + rewrite truthy_ne. split; [by exists url|by intros (? & [= <-] & ?)].
    + split; [done|by intros (? & ? & _)].
  - intros url -> Hblank. simpl. by rewrite Hblank.
  - intros ->. simpl. split; [done|]. split; [done|].
    by destruct (sectionPolicy section).
Qed.

(** *** Account ids *)

Section Listing.

Context (ownKeys : gmap jsstring AccountSection -> list jsstring).
Context (sortByLocale : list jsstring -> list jsstring).

Abbreviation configuredIds := (listConfiguredAccountIds ownKeys).
Abbreviation ids := (listOneBotAccountIds DEFAULT_ACCOUNT_ID ownKeys sortByLocale).
Abbreviation defaultId :=
  (resolveDefaultOneBotAccountId DEFAULT_ACCOUNT_ID ownKeys sortByLocale).

(** X24. With a sort that permutes its argument: the list of account
    ids is never empty; it is the default id alone when no account with
    a non-empty id is configured, and else the configured non-empty ids,
    sorted.  The default account is the configured [defaultAccount],
    trimmed, when that is not blank, also when no such account is
    configured; else the default id when it is listed; else the first
    id of the list, which is a configured one. *)
Theorem default_account_id (cfg : option OneBotConfig) :
  (forall l, sortByLocale l ≡ₚ l) ->
  ids cfg ≠ []
  ∧ (configuredIds cfg = [] -> ids cfg = [DEFAULT_ACCOUNT_ID])
  ∧ (configuredIds cfg ≠ [] -> ids cfg ≡ₚ configuredIds cfg)
  ∧ (forall id, id ∈ configuredIds cfg -> id ≠ [])
  ∧ (forall configured, ifTruthy (trim <$> (cfg ≫= defaultAccount)) = Some configured ->
       defaultId cfg = configured)
  ∧ (ifTruthy (trim <$> (cfg ≫= defaultAccount)) = None ->
       (DEFAULT_ACCOUNT_ID ∈ ids cfg -> defaultId cfg = DEFAULT_ACCOUNT_ID)
       ∧ (DEFAULT_ACCOUNT_ID ∉ ids cfg ->
          head (ids cfg) = Some (defaultId cfg)
          ∧ defaultId cfg ∈ configuredIds cfg)).
Proof.
  intros Hsort.
  assert (configuredIds cfg = [] -> ids cfg = [DEFAULT_ACCOUNT_ID]) as Hnone.
  { intros H. unfold listOneBotAccountIds. by rewrite H. }
  assert (configuredIds cfg ≠ [] -> ids cfg ≡ₚ configuredIds cfg) as Hsome.
  { intros H. unfold listOneBotAccountIds.
    rewrite bool_decide_eq_false_2; [done|]. by destruct (configuredIds cfg). }
  assert (ids cfg ≠ []) as Hne.
  { destruct (configuredIds cfg) as [|k ks] eqn:E.
    - by rewrite Hnone.
    - intros Heq. specialize (Hsome ltac:(done)). rewrite Heq in Hsome.
      by apply Permutation_nil_l in Hsome. }
  split; [done|]. split; [done|]. split; [done|]. split; [|split].
  - intros id. unfold listConfiguredAccountIds. destruct (cfg ≫= accounts); [|by intros ?%elem_of_nil].
    rewrite list_elem_of_In, filter_In. intros [_ Ht]. by apply truthy_ne.
  - intros configured Hc. unfold resolveDefaultOneBotAccountId. by rewrite Hc.
  - intros Hc. unfold resolveDefaultOneBotAccountId. rewrite Hc. split.
    + intros Hin. by rewrite bool_decide_eq_true_2.
    + intros Hnin. rewrite bool_decide_eq_false_2 by done.
      destruct (ids cfg) as [|first rest] eqn:E; [done|]. simpl. split; [done|].
      destruct (configuredIds cfg) as [|k ks] eqn:Ek.
      * specialize (Hnone eq_refl). injection Hnone as -> ->.
        destruct Hnin. apply list_elem_of_here.
      * rewrite <- Hsome by done. apply list_elem_of_here.
Qed.

End Listing.

(** *** Setup *)

Abbreviation setup := (applyAccountConfig DEFAULT_ACCOUNT_ID).

Lemma spreadKey_truthy (old : option jsstring) url :
  url ≠ [] -> spreadKey old (ifTruthy (Some url)) = Some url.
Proof. intros H. by destruct url. Qed.

(** X25. After [applyAccountConfig] with a [url], an account other than
    the default one is enabled and has that address, trimmed, whatever
    the configuration was before.  For the default account the address
    goes to the channel section, so the same holds as long as
    [accounts] has no entry under the default id; an entry there with a
    [wsUrl] of its own keeps that address, and the [url] of the input is
    not the one the account resolves to. *)
Theorem setup_then_resolve (namedConfig : option OneBotConfig)
    (accountId : jsstring) (input : SetupInput) (url : jsstring) :
  normalizeAccountId (Some accountId) = accountId ->
  inputUrl input = Some url -> url ≠ [] ->
  let cfg := Some (setup namedConfig accountId input) in
  let resolved := account (resolve cfg (Some accountId)) in
  let entry := (namedConfig ≫= accounts) ≫= fun entries => entries !! accountId in
  (accountId ≠ DEFAULT_ACCOUNT_ID ->
     accountWsUrl resolved = Some (trim url)
     ∧ accountEnabled resolved = true
     ∧ (configured resolved = true <-> trim url ≠ []))
  ∧ (accountId = DEFAULT_ACCOUNT_ID -> entry = None ->
       accountWsUrl resolved = Some (trim url)
       ∧ accountEnabled resolved = true
       ∧ (configured resolved = true <-> trim url ≠ []))
  ∧ (accountId = DEFAULT_ACCOUNT_ID ->
     forall section other, entry = Some section -> sectionWsUrl section = Some other ->
       accountWsUrl resolved = Some (trim other)).
Proof.
  intros Hid Hurl Hne cfg resolved entry.
  subst resolved cfg.
  unfold resolveOneBotAccount, mergeOneBotAccountConfig, resolveAccountConfig,
    applyAccountConfig.
  rewrite Hid. split; [|split].
  - intros Hother. rewrite (proj2 (strictEq_false _ _) Hother). simpl.
    rewrite lookup_insert_eq. simpl. rewrite Hurl, spreadKey_truthy by done. simpl.
    split; [done|]. split; [done|]. apply truthy_ne.
  - intros -> Hentry. rewrite (proj2 (strictEq_true _ _) eq_refl). simpl.
    subst entry. destruct (namedConfig ≫= accounts) as [entries|]; simpl in *.
    + rewrite Hentry. simpl. rewrite Hurl, spreadKey_truthy by done. simpl.
      split; [done|]. split; [done|]. apply truthy_ne.
    + rewrite Hurl, spreadKey_truthy by done. simpl.
      split; [done|]. split; [done|]. apply truthy_ne.
  - intros -> section other Hentry Hother.
    rewrite (proj2 (strictEq_true _ _) eq_refl). simpl.
    subst entry. destruct (namedConfig ≫= accounts) as [entries|]; simpl in *; [|done].
    rewrite Hentry. simpl. by rewrite Hother.
Qed.

End Sdk.

(** *** The outbound adapter *)

Lemma parse_trim input : parseOneBotTarget (trim input) = parseOneBotTarget input.
Proof. unfold parseOneBotTarget, normalizeRawTarget. by rewrite trim_idem. Qed.

Lemma resolveTarget_eq to :
  resolveTarget to
  = match parseOneBotTarget (default [] to) with
    | None => inl (lit "Invalid OneBot target. Use " ++ formatOneBotTargetHint)
    | Some _ => inr (trim (default [] to))
    end.
Proof.
  unfold resolveTarget. destruct to as [[|c t]|]; simpl; try done.
  by rewrite parse_trim.
Qed.

(** X26. [resolveTarget] accepts exactly the addresses that
    [parseOneBotTarget] parses, a missing address being the empty one,
    and returns the address trimmed; what it returns it accepts again
    unchanged, and [sendOneBotMessage] does not reject it as invalid. *)
Theorem adapter_resolves_target (to : option jsstring) :
  (looksLikeOneBotTargetId (default [] to) = true ->
     resolveTarget to = inr (trim (default [] to)))
  ∧ (looksLikeOneBotTargetId (default [] to) = false ->
       resolveTarget to
       = inl (lit "Invalid OneBot target. Use <user:ID|group:ID|channel:GUILD:CHANNEL>"))
  ∧ (forall address, resolveTarget to = inr address ->
       resolveTarget (Some address) = inr address
       ∧ parseOneBotTarget address = parseOneBotTarget (default [] to)
       ∧ forall account text sendThrows clients,
           (sendOneBotMessage account address text sendThrows clients).1
           ≠ Threw (lit "Invalid OneBot target. Use " ++ formatOneBotTargetHint)).
Proof.
  rewrite !resolveTarget_eq. unfold looksLikeOneBotTargetId.
  destruct (parseOneBotTarget (default [] to)) as [t|] eqn:E.
  - split; [done|]. split; [done|]. intros address [= <-].
    rewrite resolveTarget_eq. simpl. rewrite parse_trim, E, trim_idem.
    split; [done|]. split; [done|].
    intros account text sendThrows clients. unfold sendOneBotMessage.
    rewrite parse_trim, E.
    destruct (getOneBotClient _ _); [|done].
    destruct (negb _); [done|]. by destruct (WsClient.sendAction _ _ _ _ _).
  - split; [done|]. split; [done|]. by intros address [=].
Qed.

Lemma adapter_resolves_target_witness :
  resolveTarget (Some (lit " QQ:10001 ")) = inr (lit "QQ:10001")
  ∧ resolveTarget (Some (lit "10001"))
    = inl (lit "Invalid OneBot target. Use <user:ID|group:ID|channel:GUILD:CHANNEL>").
Proof.
  split.
  - apply (proj1 (adapter_resolves_target (Some (lit " QQ:10001 ")))).
    vm_compute. reflexivity.
  - apply (proj1 (proj2 (adapter_resolves_target (Some (lit "10001"))))).
    vm_compute. reflexivity.
Defined.

Section Adapter.

Context (normalizeAccountId : option jsstring -> jsstring).
Context (convertMarkdownTables : option OneBotConfig -> jsstring -> jsstring -> jsstring).

Abbreviation resolveAccount := (resolveOneBotAccount normalizeAccountId).
Abbreviation adapterSendText := (sendText normalizeAccountId convertMarkdownTables).
Abbreviation adapterSendMedia := (sendMedia normalizeAccountId convertMarkdownTables).

Lemma mediaText_blank text :
  trim (default [] text) = [] -> mediaText text None = [].
Proof.
  unfold mediaText. simpl. destruct text as [t|]; simpl; [|done].
  intros ->. by rewrite andb_false_r.
Qed.

(** X27. [sendText] and [sendMedia] of the adapter first resolve the
    account: when neither its entry nor the channel section has a
    [wsUrl] that is not blank they throw
    "OneBot account not configured (missing wsUrl)", whatever the
    address, the text and the client registry are, and touch no client.
    [sendMedia] with a blank text and no media URL is [sendText] with
    the empty text. *)
Theorem adapter_needs_address (cfg : option OneBotConfig) (to : jsstring)
    (text mediaUrl accountId sendThrows : option jsstring) (clients : Clients) :
  let id := normalizeAccountId accountId in
  let section := default emptySection (base <$> cfg) in
  let entry := resolveAccountConfig cfg id in
  let address := spreadKey (sectionWsUrl section) (entry ≫= sectionWsUrl) in
  let failure := Threw (lit "OneBot account not configured (missing wsUrl)") in
  ((forall url, address = Some url -> trim url = []) ->
     adapterSendText cfg to text accountId sendThrows clients = (failure, clients)
     ∧ adapterSendMedia cfg to text mediaUrl accountId sendThrows clients
       = (failure, clients))
  ∧ (forall url, address = Some url -> trim url ≠ [] ->
       adapterSendText cfg to text accountId sendThrows clients
       = sendOneBotMessage (account (resolveAccount cfg accountId)) to
           (convertMarkdownTables cfg id (default [] text)) sendThrows clients)
  ∧ (trim (default [] text) = [] ->
       adapterSendMedia cfg to text None accountId sendThrows clients
       = adapterSendText cfg to (Some []) accountId sendThrows clients).
Proof.
  intros id section entry address failure.
  assert (configured (account (resolveAccount cfg accountId))
          = match address with Some url => truthy (trim url) | None => false end)
    as Hconfigured.
  { subst address. unfold resolveOneBotAccount, mergeOneBotAccountConfig. simpl.
    fold id. fold entry. fold section.
    assert (sectionWsUrl (default emptySection entry) = entry ≫= sectionWsUrl) as ->
      by by destruct entry.
    by destruct (spreadKey _ _). }
  split; [|split].
  - intros Hblank. unfold sendMedia, sendText. rewrite Hconfigured.
    destruct address as [url|]; [|done]. by rewrite (Hblank url eq_refl).
  - intros url Hurl Hne. unfold sendText. rewrite Hconfigured, Hurl.
    by rewrite (proj2 (truthy_ne _) Hne).
  - intros Hblank. unfold sendMedia. by rewrite mediaText_blank.
Qed.

End Adapter.

(** *** A configuration *)

(** Code units compared one by one, for a locale that orders strings so. *)
Fixpoint lexLe (a b : jsstring) : bool :=
  match a, b with
  | [], _ => true
  | _ :: _, [] => false
  | x :: a', y :: b' => (x <? y) || ((x =? y) && lexLe a' b')
  end.

Fixpoint insertSorted (x : jsstring) (l : list jsstring) : list jsstring :=
  match l with
  | [] => [x]
  | y :: l' => if lexLe x y then x :: l else y :: insertSorted x l'
  end.

Definition sortByCodeUnits (l : list jsstring) : list jsstring :=
  foldr insertSorted [] l.

Lemma insertSorted_perm x l : insertSorted x l ≡ₚ x :: l.
Proof.
  induction l as [|y l IH]; [done|]. simpl.
  destruct (lexLe x y); [done|]. rewrite IH. apply Permutation_swap.
Qed.

Lemma sortByCodeUnits_perm l : sortByCodeUnits l ≡ₚ l.
Proof.
  induction l as [|x l IH]; [done|]. simpl. by rewrite insertSorted_perm, IH.
Qed.

Definition keysOf (m : gmap jsstring AccountSection) : list jsstring :=
  (map_to_list m).*1.

Definition idOrDefault (accountId : option jsstring) : jsstring :=
  default (lit "default") (ifTruthy (trim <$> accountId)).

Definition twoAccounts : option OneBotConfig :=
  Some {| base := emptySection;
          accounts := Some {[ lit "work" := emptySection; lit "home" := emptySection ]};
          defaultAccount := None |}.

Lemma default_account_id_witness :
  resolveDefaultOneBotAccountId (lit "default") keysOf sortByCodeUnits twoAccounts
  ∈ listConfiguredAccountIds keysOf twoAccounts.
Proof.
  destruct (default_account_id (lit "default") keysOf sortByCodeUnits twoAccounts
              sortByCodeUnits_perm) as (_ & _ & _ & _ & _ & H).
  apply H; [reflexivity|].
  assert (listOneBotAccountIds (lit "default") keysOf sortByCodeUnits twoAccounts
          = [lit "home"; lit "work"]) as -> by (vm_compute; reflexivity).
  rewrite !not_elem_of_cons.
  repeat split; try (intros E; vm_compute in E; discriminate E).
  apply not_elem_of_nil.
Defined.

Lemma setup_then_resolve_witness :
  accountWsUrl
    (account
       (resolveOneBotAccount idOrDefault
          (Some (applyAccountConfig (lit "default") twoAccounts (lit "work")
                   {| inputUrl := Some (lit " ws://127.0.0.1:6700 ");
                      inputAccessToken := None |}))
          (Some (lit "work"))))
  = Some (lit "ws://127.0.0.1:6700").
Proof.
  apply (proj1 (setup_then_resolve (lit "default") idOrDefault twoAccounts (lit "work")
                  {| inputUrl := Some (lit " ws://127.0.0.1:6700 ");
                     inputAccessToken := None |}
                  (lit " ws://127.0.0.1:6700 ")
                  ltac:(vm_compute; reflexivity) eq_refl ltac:(discriminate))).
  discriminate.
Defined.

End AccountsFacts.

(** ** Every action is settled once *)

Module SettlementFacts.
Import Js Types Url WsClient JsFacts WsClientFacts ClientFacts.

(** An effect that neither settles a promise nor sets the timeout of an
    action. *)
Definition plain (e : Effect) : Prop :=
  match e with
  | Resolve _ _ | Reject _ _ | SetTimeout _ (ActionTimeout _ _ _) _ => False
  | _ => True
  end.

Lemma settled_plain p effects : Forall plain effects -> settled p effects = 0%nat.
Proof.
  induction 1 as [|e effects He Hall IH]; [done|].
  change (e :: effects) with ([e] ++ effects). rewrite settled_app, IH.
  by destruct e.
Qed.

Lemma plain_not_sent effects id echo act p delay :
  Forall plain effects -> SetTimeout id (ActionTimeout echo act p) delay ∉ effects.
Proof.
  intros Hall Hin. rewrite Forall_forall in Hall. by apply (Hall _ Hin).
Qed.

Lemma plain_rejections error entries effect :
  effect ∈ flat_map (rejectionOf error) entries ->
  match effect with SetTimeout _ _ _ => False | _ => True end.
Proof.
  induction entries as [|entry entries IH]; [by intros ?%elem_of_nil|].
  simpl. intros [->|[->|Hin]%elem_of_cons]%elem_of_cons; [done|done|by apply IH].
Qed.

Lemma NoDup_fmap_eq {A B} (f : A -> B) (l : list A) x y :
  NoDup (List.map f l) -> x ∈ l -> y ∈ l -> f x = f y -> x = y.
Proof.
  induction l as [|a l IH]; [by intros _ ?%elem_of_nil|].
  simpl. intros [Hn Hl]%NoDup_cons [->|Hx]%elem_of_cons [->|Hy]%elem_of_cons Heq.
  - done.
  - destruct Hn. rewrite Heq. apply list_elem_of_fmap. by exists y.
  - destruct Hn. rewrite <- Heq. apply list_elem_of_fmap. by exists x.
  - by apply IH.
Qed.

(** The invariant: a timeout that is set belongs to the pending action
    of its echo token; a pending action is not settled, and its token
    is one of a counter that has passed; no promise is settled that is
    still to be created; no promise is settled twice; and an action that
    was sent is pending or settled once. *)
Record Once (w : World) : Prop := {
  once_timer : forall id t echo act p,
    timers w !! id = Some t -> callback t = ActionTimeout echo act p ->
    mapGet echo (pending (client w)) = Some {| promise := p; timeout := id |};
  once_pending : forall echo entry,
    (echo, entry) ∈ pending (client w) ->
    settled (promise entry) (trace w) = 0%nat
    ∧ exists time counter,
        echo = echoToken time counter ∧ counter < actionCounter (client w);
  once_fresh : forall p, (fresh w <= p)%nat -> settled p (trace w) = 0%nat;
  once_most : forall p, (settled p (trace w) <= 1)%nat;
  once_sent : forall id echo act p delay,
    SetTimeout id (ActionTimeout echo act p) delay ∈ trace w ->
    mapGet echo (pending (client w)) = Some {| promise := p; timeout := id |}
    ∨ settled p (trace w) = 1%nat;
}.

Lemma Once_frame w w' effects :
  Once w ->
  trace w' = trace w ++ effects -> Forall plain effects ->
  pending (client w') = pending (client w) ->
  actionCounter (client w) <= actionCounter (client w') ->
  (fresh w <= fresh w')%nat ->
  (forall id t echo act p,
     timers w' !! id = Some t -> callback t = ActionTimeout echo act p ->
     timers w !! id = Some t) ->
  Once w'.
Proof.
  intros [H1 H2 H3 H4 H5] Ht Hplain Hp Hc Hf Htimers.
  assert (forall p, settled p (trace w') = settled p (trace w)) as Hs.
  { intros p. rewrite Ht, settled_app, (settled_plain p effects Hplain). lia. }
  constructor.
  - intros id t echo act p Hid Hcb. rewrite Hp.
    apply (H1 id t echo act p); [by eapply Htimers|done].
  - intros echo entry Hin. rewrite Hp in Hin. rewrite Hs.
    destruct (H2 _ _ Hin) as (? & time & counter & ? & ?).
    split; [done|]. exists time, counter. split; [done|lia].
  - intros p Hle. rewrite Hs. apply H3. lia.
  - intros p. by rewrite Hs.
  - intros id echo act p delay Hin. rewrite Hp, Hs. rewrite Ht in Hin.
    apply elem_of_app in Hin as [Hin|Hin]; [by eapply H5|].
    by apply plain_not_sent in Hin.
Qed.

(** A change of the client or of the sockets only. *)
Lemma Once_same w w' :
  Once w ->
  trace w' = trace w -> pending (client w') = pending (client w) ->
  actionCounter (client w') = actionCounter (client w) ->
  fresh w' = fresh w -> timers w' = timers w ->
  Once w'.
Proof.
  intros HO Ht Hp Hc Hf Hm.
  apply (Once_frame w w' []); rewrite ?app_nil_r, ?Hm; try done; lia.
Qed.

(** The promise of a pending action is settled, and the action removed. *)
Lemma Once_settle w w' echo entry pre e :
  Inv w -> Once w ->
  mapGet echo (pending (client w)) = Some entry ->
  (forall q, settlesPromise q e = bool_decide (promise entry = q)) ->
  Forall plain pre ->
  trace w' = trace w ++ pre ++ [e] ->
  pending (client w') = mapDelete echo (pending (client w)) ->
  (forall id t echo' act p,
     timers w' !! id = Some t -> callback t = ActionTimeout echo' act p ->
     id ≠ timeout entry ∧ timers w !! id = Some t) ->
  actionCounter (client w') = actionCounter (client w) ->
  fresh w' = fresh w ->
  Once w'.
Proof.
  intros HI [H1 H2 H3 H4 H5] Hget He Hplain Ht Hp Htimers Hc Hf.
  pose proof (mapGet_elem _ _ _ Hget) as Hin.
  destruct (H2 _ _ Hin) as [Hzero _].
  destruct (pending_promise_fresh w echo entry HI Hin) as [Hlt _].
  assert (forall q, settled q (trace w')
                    = (settled q (trace w)
                       + if bool_decide (promise entry = q) then 1 else 0)%nat) as Hs.
  { intros q. rewrite Ht, !settled_app, (settled_plain q pre Hplain).
    unfold settled at 2. simpl. rewrite He. by destruct (bool_decide _). }
  assert (forall id k a p d, e ≠ SetTimeout id (ActionTimeout k a p) d) as Hnot.
  { intros id k a p d ->. specialize (He (promise entry)).
    simpl in He. by rewrite bool_decide_eq_true_2 in He. }
  constructor.
  - intros id t echo' act p Hid Hcb. rewrite Hp.
    destruct (Htimers _ _ _ _ _ Hid Hcb) as [Hne Hold].
    pose proof (H1 _ _ _ _ _ Hold Hcb) as Hg.
    rewrite mapGet_mapDelete_ne; [done|].
    intros <-. rewrite Hget in Hg. injection Hg as ->. done.
  - intros echo' entry' Hin'. rewrite Hp in Hin'.
    apply elem_of_mapDelete in Hin' as [Hin' Hne].
    destruct (H2 _ _ Hin') as (Hz & time & counter & ? & ?).
    split; [|exists time, counter; split; [done|by rewrite Hc]].
    rewrite Hs, Hz, bool_decide_eq_false_2; [done|].
    intros Heq. destruct Hne.
    assert ((echo, entry) = (echo', entry')) as [= -> _]; [|done].
    apply (NoDup_fmap_eq (fun x => promise x.2) (pending (client w)));
      [apply HI|done|done|done].
  - intros q Hle. rewrite Hs, H3 by lia. rewrite bool_decide_eq_false_2; [done|lia].
  - intros q. rewrite Hs. case_bool_decide as Hq; [subst q; lia|].
    specialize (H4 q). lia.
  - intros id k act p delay Hsent. rewrite Hp, Hs. rewrite Ht in Hsent.
    apply elem_of_app in Hsent as [Hsent|Hsent].
    2:{ apply elem_of_app in Hsent as [Hsent|Hsent];
          [by apply plain_not_sent in Hsent|].
        apply list_elem_of_singleton in Hsent. by destruct (Hnot id k act p delay). }
    destruct (H5 _ _ _ _ _ Hsent) as [Hg|Hone].
    + destruct (decide (k = echo)) as [->|Hne].
      * right. rewrite Hget in Hg. injection Hg as ->. simpl in *.
        rewrite Hzero. by rewrite bool_decide_eq_true_2.
      * left. by rewrite mapGet_mapDelete_ne.
    + right. rewrite Hone, bool_decide_eq_false_2; [done|].
      intros <-. lia.
Qed.

(** An action is issued: its timeout is set and it is pending. *)
Lemma Once_issue w w' act delay post :
  Inv w -> Once w ->
  let p := fresh w in
  let id := S (fresh w) in
  let echo := echoToken (now w) (actionCounter (client w)) in
  trace w' = trace w ++ SetTimeout id (ActionTimeout echo act p) delay :: post ->
  Forall plain post ->
  pending (client w')
  = mapSet echo {| promise := p; timeout := id |} (pending (client w)) ->
  timers w'
  = <[id := {| due := (now w + timerDelay delay)%Z;
               callback := ActionTimeout echo act p |}]>
      (timers w) ->
  actionCounter (client w') = actionCounter (client w) + 1 ->
  (fresh w <= fresh w')%nat ->
  Once w'.
Proof.
  intros HI [H1 H2 H3 H4 H5] p id echo Ht Hplain Hp Htimers Hc Hf.
  assert (forall q, settled q (trace w') = settled q (trace w)) as Hs.
  { intros q. rewrite Ht.
    change (SetTimeout id (ActionTimeout echo act p) delay :: post)
      with ([SetTimeout id (ActionTimeout echo act p) delay] ++ post).
    rewrite !settled_app, (settled_plain q post Hplain). unfold settled at 2.
    simpl. lia. }
  assert (forall k entry, (k, entry) ∈ pending (client w) -> k ≠ echo) as Hechoes.
  { intros k entry Hin ->. destruct (H2 _ _ Hin) as (_ & time & counter & Heq & Hlt).
    apply echoToken_inj in Heq. lia. }
  constructor.
  - intros id' t k a q Hid Hcb. rewrite Hp. rewrite Htimers in Hid.
    apply lookup_insert_Some in Hid as [[<- <-]|[Hne Hid]].
    + injection Hcb as <- <- <-. apply mapGet_mapSet.
    + pose proof (H1 _ _ _ _ _ Hid Hcb) as Hg.
      rewrite mapGet_mapSet_ne; [done|].
      intros <-. by apply (Hechoes _ _ (mapGet_elem _ _ _ Hg)).
  - intros k entry Hin. rewrite Hp in Hin. rewrite Hs, Hc.
    apply elem_of_mapSet in Hin as [[= -> ->]|Hin].
    + split; [by apply H3|]. eexists _, _. split; [done|lia].
    + destruct (H2 _ _ Hin) as (? & time & counter & ? & ?).
      split; [done|]. exists time, counter. split; [done|lia].
  - intros q Hle. rewrite Hs. apply H3. lia.
  - intros q. by rewrite Hs.
  - intros id' k a q d Hsent. rewrite Hp, Hs. rewrite Ht in Hsent.
    apply elem_of_app in Hsent as [Hsent|Hsent].
    + destruct (H5 _ _ _ _ _ Hsent) as [Hg|Hone]; [|by right].
      left. rewrite mapGet_mapSet_ne; [done|].
      intros <-. by apply (Hechoes _ _ (mapGet_elem _ _ _ Hg)).
    + apply elem_of_cons in Hsent as [Hsent|Hsent];
        [|by apply plain_not_sent in Hsent].
      injection Hsent as -> -> -> -> _. left. apply mapGet_mapSet.
Qed.

(** The promise of a call is rejected at once. *)
Lemma Once_refuse w w' err :
  Inv w -> Once w ->
  trace w' = trace w ++ [Reject (fresh w) err] ->
  pending (client w') = pending (client w) ->
  actionCounter (client w') = actionCounter (client w) ->
  timers w' = timers w ->
  (fresh w < fresh w')%nat ->
  Once w'.
Proof.
  intros HI [H1 H2 H3 H4 H5] Ht Hp Hc Hm Hf.
  assert (forall q, settled q (trace w')
                    = (settled q (trace w)
                       + if bool_decide (fresh w = q) then 1 else 0)%nat) as Hs.
  { intros q. rewrite Ht, settled_app. unfold settled at 2. simpl.
    by destruct (bool_decide _). }
  constructor.
  - intros id t echo act p Hid Hcb. rewrite Hp, Hm in *. by eapply H1.
  - intros echo entry Hin. rewrite Hp in Hin. rewrite Hs, Hc.
    destruct (H2 _ _ Hin) as [Hz Hecho]. split; [|done].
    destruct (pending_promise_fresh w echo entry HI Hin) as [Hlt _].
    rewrite Hz, bool_decide_eq_false_2; [done|lia].
  - intros q Hle. rewrite Hs, H3 by lia. rewrite bool_decide_eq_false_2; [done|lia].
  - intros q. rewrite Hs. case_bool_decide as Hq; [subst q; rewrite H3; lia|].
    specialize (H4 q). lia.
  - intros id echo act p delay Hsent. rewrite Hp, Hs. rewrite Ht in Hsent.
    apply elem_of_app in Hsent as [Hsent|Hsent];
      [|by apply list_elem_of_singleton in Hsent].
    destruct (H5 _ _ _ _ _ Hsent) as [Hg|Hone]; [by left|right].
    rewrite Hone, bool_decide_eq_false_2; [done|].
    intros <-. rewrite H3 in Hone; [done|lia].
Qed.

Lemma Once_rejectAllPending error w :
  Inv w -> Once w -> Once (rejectAllPending error w).
Proof.
  intros HI [H1 H2 H3 H4 H5]. rewrite rejectAllPending_eq.
  assert (forall q, q ∈ List.map (fun entry => promise entry.2) (pending (client w)) ->
            settled q (trace w) = 0%nat
            ∧ settled q (flat_map (rejectionOf error) (pending (client w))) = 1%nat)
    as Hin.
  { intros q ([k entry] & -> & Hin)%list_elem_of_fmap. simpl.
    split; [by apply (H2 k)|].
    by apply (settled_rejections error _ k entry (inv_nodup w HI) Hin). }
  constructor; simpl.
  - intros id t echo act p Hid Hcb. rewrite clearTimers_lookup in Hid.
    case_bool_decide as Hno; [done|]. destruct Hno.
    apply list_elem_of_fmap.
    exists (echo, {| promise := p; timeout := id |}). split; [done|].
    apply mapGet_elem. by eapply H1.
  - by intros echo entry ?%elem_of_nil.
  - intros q Hle. rewrite settled_app, H3 by done.
    rewrite settled_rejections_none; [done|].
    intros ([k entry] & -> & Hk)%list_elem_of_fmap. simpl in Hle.
    destruct (pending_promise_fresh w k entry HI Hk). lia.
  - intros q. rewrite settled_app.
    destruct (decide (q ∈ List.map (fun entry => promise entry.2)
                            (pending (client w)))) as [Hq|Hq].
    + destruct (Hin q Hq) as [-> ->]. lia.
    + rewrite settled_rejections_none by done. specialize (H4 q). lia.
  - intros id echo act p delay Hsent. right. rewrite settled_app.
    apply elem_of_app in Hsent as [Hsent|Hsent];
      [|by apply plain_rejections in Hsent].
    destruct (decide (p ∈ List.map (fun entry => promise entry.2)
                            (pending (client w)))) as [Hq|Hq].
    + by destruct (Hin p Hq) as [-> ->].
    + rewrite settled_rejections_none by done.
      destruct (H5 _ _ _ _ _ Hsent) as [Hg|Hone]; [|lia].
      destruct Hq. apply list_elem_of_fmap.
      exists (echo, {| promise := p; timeout := id |}). split; [done|].
      by apply mapGet_elem.
Qed.

Lemma Once_clearReconnectTimer w : Once w -> Once (clearReconnectTimer w).
Proof.
  intros HO. unfold clearReconnectTimer.
  destruct (reconnectTimer (client w)) as [id|]; [|done].
  apply (Once_frame w _ [ClearTimeout id]); simpl; try done; try lia.
  - by repeat constructor.
  - by intros id' t echo act p [_ Hid]%lookup_delete_Some.
Qed.

Lemma Once_closeSocket w : Once w -> Once (closeSocket w).
Proof.
  intros HO. unfold closeSocket. destruct (ws (client w)) as [s|]; [|done].
  apply (Once_frame w _ [WsClose s]); simpl; try done; try lia.
  by repeat constructor.
Qed.

Lemma Once_stop w : Inv w -> Once w -> Once (stop w).
Proof.
  intros HI HO. unfold stop.
  set (w1 := updClient (setStopped true) w).
  assert (Inv w1) as HI1 by by apply (Inv_same w).
  assert (Once w1) as HO1 by by apply (Once_same w).
  apply Once_rejectAllPending.
  - by apply Inv_closeSocket, Inv_clearReconnectTimer.
  - by apply Once_closeSocket, Once_clearReconnectTimer.
Qed.

Lemma Once_iter_stop n w :
  Inv w -> Once w -> Inv (Nat.iter n stop w) ∧ Once (Nat.iter n stop w).
Proof.
  intros HI HO. induction n as [|n [IH1 IH2]]; [done|].
  rewrite Nat.iter_succ. split; [by apply Inv_stop|by apply Once_stop].
Qed.

Lemma Once_scheduleReconnect w : Once w -> Once (scheduleReconnect w).
Proof.
  intros HO. unfold scheduleReconnect. destruct (_ || _); [done|]. simpl.
  apply (Once_frame w _ [SetTimeout (fresh w) Reconnect (reconnectDelayMs (client w))]);
    simpl; try done; try lia.
  - by repeat constructor.
  - intros id t echo act p Hid Hcb.
    apply lookup_insert_Some in Hid as [[_ <-]|[_ Hid]]; done.
Qed.

Lemma Once_sendAction act params options sendThrows w :
  Inv w -> Once w -> Once (sendAction act params options sendThrows w).2.
Proof.
  intros HI HO. pose proof (Inv_sendAction act params options None w HI) as HI1.
  revert HI1. unfold sendAction. simpl.
  destruct (ws (client w)) as [s|] eqn:Hws; simpl;
    [|intros _; eapply (Once_refuse w); simpl; try done; lia].
  assert (isOpen (setFresh (S (fresh w)) w) = isOpen w) as -> by done.
  destruct (isOpen w) eqn:Hopen; simpl;
    [|intros _; eapply (Once_refuse w); simpl; try done; lia].
  set (echo := echoToken (now w) (actionCounter (client w))).
  set (delay := default (ofZ 10000) (options ≫= timeoutMs)).
  destruct sendThrows as [err|]; simpl; intros HI1.
  - set (w1 := updClient
                 (fun c => setPending
                    (mapSet echo {| promise := fresh w; timeout := S (fresh w) |}
                       (pending c)) c)
                 (setTimeout (ActionTimeout echo act (fresh w)) delay
                    (updClient (setActionCounter (actionCounter (client w) + 1))
                       (setFresh (S (fresh w)) w))).2).
    assert (Inv w1) as HIw by (revert HI1; by apply Inv_same).
    assert (Once w1) as HOw.
    { apply (Once_issue w w1 act delay []); simpl; try done. lia. }
    apply (Once_settle w1 _ echo {| promise := fresh w; timeout := S (fresh w) |}
             [ClearTimeout (S (fresh w))] (Reject (fresh w) err));
      simpl; try done.
    + apply mapGet_mapSet.
    + by repeat constructor.
    + by rewrite <- !app_assoc.
    + by intros id t k a p [Hne Hid]%lookup_delete_Some.
  - apply (Once_issue w _ act delay
             [WsSend s {| action := act; params := params; echo := echo;
                          requestSelf := match options ≫= selfOverride with
                                         | Some v => Some v
                                         | None => self (client w)
                                         end |}]); simpl; try done.
    + by rewrite <- !app_assoc.
    + by repeat constructor.
    + lia.
Qed.

Lemma Once_handlePayload payload w :
  Inv w -> Once w -> Once (handlePayload payload w).
Proof.
  intros HI HO. unfold handlePayload.
  assert (Once
    match stringProp payload "status", stringProp payload "echo" with
    | Some _, Some echo =>
        match mapGet echo (pending (client w)) with
        | Some entry =>
            emit (Resolve (promise entry) payload)
              (updClient (fun c => setPending (mapDelete echo (pending c)) c)
                 (clearTimeout (timeout entry) w))
        | None => w
        end
    | _, _ =>
        match stringProp payload "type", stringProp payload "detail_type" with
        | Some _, Some _ => emit (OnEvent payload) w
        | _, _ => w
        end
    end) as Hobj.
  { destruct (stringProp payload "status"), (stringProp payload "echo") as [echo|];
      try (repeat case_match; done
           || (apply (Once_frame w _ [OnEvent payload]); simpl; try done; try lia;
               by repeat constructor)).
    destruct (mapGet echo (pending (client w))) as [entry|] eqn:E; [|done].
    apply (Once_settle w _ echo entry [ClearTimeout (timeout entry)]
             (Resolve (promise entry) payload)); simpl; try done.
    - by repeat constructor.
    - by rewrite <- !app_assoc.
    - by intros id t k a p [Hne Hid]%lookup_delete_Some. }
  by destruct payload.
Qed.

Section Platform.

Context (api : UrlApi) (webSocketThrows : jsstring -> option jsstring).

Lemma Once_connect w : Once w -> Once (connect api webSocketThrows w).
Proof.
  intros HO. unfold connect. destruct (stopped (client w)); [done|].
  destruct (webSocketThrows _) as [err|].
  - eapply (Once_frame w _ [_; _]); simpl; try done; try lia.
    + by rewrite <- !app_assoc.
    + by repeat constructor.
  - destruct (_ && _);
      (eapply (Once_frame w _ [_; _]); simpl; try done; try lia;
       [by rewrite <- !app_assoc|by repeat constructor]).
Qed.

Lemma Once_onSocketClose code reason w :
  Inv w -> Once w -> Once (onSocketClose code reason w).
Proof.
  intros HI HO. unfold onSocketClose.
  set (w0 := emit _ (emit _ w)).
  assert (Inv w0) as HI0 by by apply (Inv_same w).
  assert (Once w0) as HO0.
  { eapply (Once_frame w _ [_; _]); simpl; try done; try lia.
    - by rewrite <- !app_assoc.
    - by repeat constructor. }
  set (w1 := rejectAllPending _ w0).
  assert (Once w1) as HO1 by by apply Once_rejectAllPending.
  destruct (negb (stopped (client w1))); [by apply Once_scheduleReconnect|done].
Qed.

Lemma Once_runTimer id t w :
  Inv w -> Once w -> timers w !! id = Some t ->
  Once (runTimer api webSocketThrows (callback t) (setTimers (delete id (timers w)) w)).
Proof.
  intros HI HO Ht. destruct (callback t) as [echo act p|] eqn:Hcb; simpl.
  - apply (Once_settle w _ echo {| promise := p; timeout := id |} []
             (Reject p (lit "OneBot action timeout: " ++ act))); simpl; try done.
    + by eapply (once_timer w HO).
    + by intros id' t' k a q [Hne Hid]%lookup_delete_Some.
  - apply Once_connect.
    apply (Once_frame w _ []); simpl; rewrite ?app_nil_r; try done; try lia.
    by intros id' t' k a q [Hne Hid]%lookup_delete_Some.
Qed.

Lemma Once_step w i w' :
  Inv w -> Once w -> step api webSocketThrows w i = Some w' -> Once w'.
Proof.
  intros HI HO. destruct i; simpl.
  - intros [= <-]. unfold start. destruct (_ && _); [by apply (Once_same w)|].
    by apply Once_connect.
  - intros [= <-]. by apply Once_stop.
  - intros [= <-]. by apply (Once_same w).
  - intros [= <-]. by apply Once_sendAction.
  - destruct (_ && _); [|done]. intros [= <-].
    apply Once_iter_stop; [by apply (Inv_same w)|by apply (Once_same w)].
  - destruct (sockets w !! socket) as [[]|]; try done. intros [= <-].
    eapply (Once_frame w _ [_; _]); simpl; try done; try lia.
    + by rewrite <- !app_assoc.
    + by repeat constructor.
  - destruct (sockets w !! socket) as [[]|]; try done; intros [= <-];
      (destruct frame as [err|payload]; simpl;
       [eapply (Once_frame w _ [_]); simpl; try done; try lia;
        by repeat constructor
       |by apply Once_handlePayload]).
  - destruct (sockets w !! socket) as [[]|]; try done; intros [= <-];
      (eapply (Once_frame w _ [_; _]); simpl; try done; try lia;
       [by rewrite <- !app_assoc|by repeat constructor]).
  - destruct (sockets w !! socket) as [[]|]; try done; intros [= <-];
      (apply Once_onSocketClose; [by apply (Inv_same w)|by apply (Once_same w)]).
  - destruct (timers w !! timer) as [t|] eqn:Ht; [|done].
    destruct (due t <=? now w)%Z; [|done]. intros [= <-]. by apply Once_runTimer.
  - destruct (0 <=? ms)%Z; [|done]. intros [= <-]. by apply (Once_same w).
Qed.

Lemma Once_initial options time : Once (initial options time).
Proof.
  constructor; simpl; try done.
  - by intros echo entry ?%elem_of_nil.
  - intros p. unfold settled. simpl. lia.
  - by intros id echo act p delay ?%elem_of_nil.
Qed.

Lemma Once_run w inputs w' :
  Inv w -> Once w -> run api webSocketThrows w inputs = Some w' -> Once w'.
Proof.
  revert w. induction inputs as [|i inputs IH]; intros w HI HO; simpl.
  - by intros [= <-].
  - destruct (step api webSocketThrows w i) as [w1|] eqn:E; [|done].
    apply IH; [by eapply Inv_step|by eapply Once_step].
Qed.

Lemma Once_reachable w : reachable api webSocketThrows w -> Once w.
Proof.
  intros (options & time & inputs & Hrun).
  eapply Once_run; [apply Inv_initial|apply Once_initial|done].
Qed.

(** X28. In every state a client can reach, no promise that
    [sendAction] returned is settled more than once, the promise of a
    pending action is not settled, and an action whose timeout was set
    is either still pending under its echo token, with that promise and
    that timer, or its promise has been settled exactly once. *)
Theorem every_action_settles_once (w : World) :
  reachable api webSocketThrows w ->
  (forall p, (settled p (trace w) <= 1)%nat)
  ∧ (forall echo entry,
       (echo, entry) ∈ pending (client w) ->
       settled (promise entry) (trace w) = 0%nat)
  ∧ (forall id echo act p delay,
       SetTimeout id (ActionTimeout echo act p) delay ∈ trace w ->
       mapGet echo (pending (client w)) = Some {| promise := p; timeout := id |}
       ∨ settled p (trace w) = 1%nat).
Proof.
  intros [H1 H2 H3 H4 H5]%Once_reachable. split; [done|]. split; [|done].
  intros echo entry Hin. by destruct (H2 _ _ Hin).
Qed.

End Platform.

Lemma every_action_settles_once_witness :
  reachable SimpleUrl.api noThrow closedWorld
  ∧ pending (client closedWorld) = []
  ∧ settled 1 (trace closedWorld) = 1%nat.
Proof.
  assert (reachable SimpleUrl.api noThrow closedWorld) as Hreach
    by (apply reachable_after; vm_compute; eauto).
  assert (pending (client closedWorld) = []) as Hpending by (vm_compute; reflexivity).
  destruct (every_action_settles_once SimpleUrl.api noThrow closedWorld Hreach)
    as (_ & _ & Hsent).
  split; [exact Hreach|]. split; [exact Hpending|].
  destruct (Hsent 2%nat (echoToken 0 0) (lit "send_message") 1%nat (ofZ 10000))
    as [Hget|Hone]; [|by rewrite Hpending in Hget|exact Hone].
  apply list_elem_of_In. vm_compute.
  repeat first [left; reflexivity|right].
Defined.

End SettlementFacts.
